(** * SD file facade (Core/Src/sd_functions.c) over FatFs

    A shallow embedding of the facade that [sd_functions.c] puts in front of
    the FatFs library, and the properties its specification states about it.

    - C integers are [Z]; [UINT] arithmetic wraps modulo 2^32.
    - [char] arrays are [list ascii]; a C string is the part of such an array
      before its first NUL.
    - The library calls run in a monad over a [World]: the volume, the
      behaviour of the card for the calls to come, and the log of the calls
      made.  A store outside the array it aims at ends the run with
      [Overrun].
    - [printf] lines go to the console only and are left out, but for the
      directory listing, whose whole result they are: it runs in a monad
      over a [Disk], the directories of the volume and the console. *)

From Stdlib Require Import ZArith Lia Ascii String List Bool.
From stdpp Require Import base tactics option list gmap strings.

Local Open Scope Z_scope.

(** ** C integers and characters *)

Definition UINT_MAX : Z := 4294967295.
Definition INT_MAX : Z := 2147483647.
Definition INT_MIN : Z := -2147483648.

(** Unsigned 32-bit arithmetic: the value of a [UINT] expression. *)
Definition wrap32 (z : Z) : Z := z mod 2 ^ 32.

Definition NUL : ascii := Ascii.zero.
Definition LF : ascii := ascii_of_nat 10.
Definition CR : ascii := ascii_of_nat 13.
Definition comma : ascii := ascii_of_nat 44.

Definition code (c : ascii) : Z := Z.of_nat (nat_of_ascii c).

(** ** The C library functions the facade calls (ISO C semantics) *)

(** The text of the C string that starts at the head of [s]: everything
    before the first NUL (the end of the list stands for a NUL too). *)
Fixpoint cstr (s : list ascii) : list ascii :=
  match s with
  | [] => []
  | c :: s' => if decide (c = NUL) then [] else c :: cstr s'
  end.

(** [strlen(s)].  [size_t] and [UINT] are both 32 bits wide on the target, and
    no object there is 2^32 bytes long, so the value is used as it is. *)
Definition strlen (s : list ascii) : Z := Z.of_nat (length (cstr s)).

(** [strncpy(dst, src, n)]: exactly [n] bytes of [dst] are written, the text
    of [src] cut at [n] bytes and, when it is shorter, NULs up to [n].  There
    is no terminator when the text has [n] bytes or more. *)
Definition strncpy (dst src : list ascii) (n : nat) : list ascii :=
  let text := cstr src in
  (take n text ++ replicate (n - length text) NUL) ++ drop n dst.

Fixpoint skip_delims (delim : list ascii) (s : list ascii) : list ascii :=
  match s with
  | [] => []
  | c :: s' => if decide (c ∈ delim) then skip_delims delim s' else s
  end.

(** Splits [s] at its first delimiter: the token before it, and what follows
    the delimiter (which [strtok] overwrites with a NUL). *)
Fixpoint scan_token (delim : list ascii) (s : list ascii) : list ascii * list ascii :=
  match s with
  | [] => ([], [])
  | c :: s' =>
      if decide (c ∈ delim) then ([], s')
      else let '(tok, rest) := scan_token delim s' in (c :: tok, rest)
  end.

(** [strtok(str, delim)].  [str = Some s] starts on the string [s],
    [str = None] is [strtok(NULL, delim)] and goes on from [saved], the
    function's static pointer.  The result is the token ([None] for a null
    pointer) and the new value of the static pointer. *)
Definition strtok (str : option (list ascii)) (delim : list ascii)
    (saved : list ascii) : option (list ascii) * list ascii :=
  let s := match str with Some s => cstr s | None => saved end in
  match skip_delims delim s with
  | [] => (None, [])
  | s' => let '(tok, rest) := scan_token delim s' in (Some tok, rest)
  end.

Definition isspace (c : ascii) : bool :=
  bool_decide (code c = 32) || bool_decide (9 <= code c <= 13).

Definition isdigit (c : ascii) : bool := bool_decide (48 <= code c <= 57).

Fixpoint skip_spaces (s : list ascii) : list ascii :=
  match s with
  | [] => []
  | c :: s' => if isspace c then skip_spaces s' else s
  end.

Fixpoint digits_value (acc : Z) (s : list ascii) : Z :=
  match s with
  | [] => acc
  | c :: s' => if isdigit c then digits_value (acc * 10 + (code c - 48)) s' else acc
  end.

(** [atoi(s)]: leading white space, an optional sign, then the decimal digits
    that follow; 0 when there are none.  A value outside [int] is not defined
    by ISO C; newlib's [atoi] is [(int) strtol(s, NULL, 10)], which saturates,
    and that is what is written here. *)
Definition atoi (s : list ascii) : Z :=
  let s := skip_spaces (cstr s) in
  let v :=
    match s with
    | c :: s' =>
        if decide (code c = 45) then - digits_value 0 s'
        else if decide (code c = 43) then digits_value 0 s'
        else digits_value 0 s
    | [] => 0
    end in
  Z.max INT_MIN (Z.min INT_MAX v).

(** A string literal as the bytes of a [char] array. *)
Definition chars (s : string) : list ascii := list_ascii_of_string s.

(** ** FatFs: result codes, open modes, file objects *)

(** Modelled from the spec: the FAT filesystem library (ff.h, ff.c) is a
    collaborator whose sources are not part of the facade.  Section 6 gives
    its contract: every call returns a code of a fixed enumeration, one value
    for success and one for each kind of failure.  The enumeration is that of
    FatFs, in its order. *)
Inductive FRESULT : Type :=
  | FR_OK | FR_DISK_ERR | FR_INT_ERR | FR_NOT_READY | FR_NO_FILE | FR_NO_PATH
  | FR_INVALID_NAME | FR_DENIED | FR_EXIST | FR_INVALID_OBJECT
  | FR_WRITE_PROTECTED | FR_INVALID_DRIVE | FR_NOT_ENABLED | FR_NO_FILESYSTEM
  | FR_MKFS_ABORTED | FR_TIMEOUT | FR_LOCKED | FR_NOT_ENOUGH_CORE
  | FR_TOO_MANY_OPEN_FILES | FR_INVALID_PARAMETER.

Global Instance FRESULT_eq_dec : EqDecision FRESULT.
Proof. solve_decision. Defined.

(** The [int] a facade function returns is the enumerator's value; the
    embedding keeps the enumerator. *)
Definition FRESULT_int (r : FRESULT) : Z :=
  match r with
  | FR_OK => 0 | FR_DISK_ERR => 1 | FR_INT_ERR => 2 | FR_NOT_READY => 3
  | FR_NO_FILE => 4 | FR_NO_PATH => 5 | FR_INVALID_NAME => 6 | FR_DENIED => 7
  | FR_EXIST => 8 | FR_INVALID_OBJECT => 9 | FR_WRITE_PROTECTED => 10
  | FR_INVALID_DRIVE => 11 | FR_NOT_ENABLED => 12 | FR_NO_FILESYSTEM => 13
  | FR_MKFS_ABORTED => 14 | FR_TIMEOUT => 15 | FR_LOCKED => 16
  | FR_NOT_ENOUGH_CORE => 17 | FR_TOO_MANY_OPEN_FILES => 18
  | FR_INVALID_PARAMETER => 19
  end.

(** Modelled from the spec: the open-mode bits of ff.h (section 4.2 names
    what each combination does: open for reading, create or truncate, open
    or create). *)
Definition FA_READ : Z := 1.
Definition FA_WRITE : Z := 2.
Definition FA_CREATE_NEW : Z := 4.
Definition FA_CREATE_ALWAYS : Z := 8.
Definition FA_OPEN_ALWAYS : Z := 16.

Definition has_flag (mode flags : Z) : bool := negb (Z.land mode flags =? 0).

(** The file object [FIL]: whether it is open, the entry it is bound to, its
    mode, the read/write pointer and the file size. *)
Record FIL : Type := mkFIL {
  fil_valid : bool;
  fil_name : string;
  fil_flag : Z;
  fptr : nat;
  objsize : nat
}.

(** [FIL file;] before [f_open] has filled it in. *)
Definition FIL_blank : FIL := mkFIL false EmptyString 0 0 0.

Definition FIL_close (fp : FIL) : FIL :=
  mkFIL false (fil_name fp) (fil_flag fp) (fptr fp) (objsize fp).

Definition FIL_move (fp : FIL) (pos : nat) : FIL :=
  mkFIL (fil_valid fp) (fil_name fp) (fil_flag fp) pos (Nat.max (objsize fp) pos).

(** ** The world the facade runs in *)

(** What the card does at one library call: serve it, fail it with a code,
    or (for a write) take only the first [n] bytes, as a full volume does. *)
Inductive Fault : Type :=
  | Healthy
  | Fails (e : FRESULT)
  | Short (n : nat).

Definition fault_code (f : Fault) : FRESULT :=
  match f with Fails e => e | _ => FR_OK end.

(** One library call as the log keeps it: its arguments and what it gave
    back. *)
Inductive Call : Type :=
  | c_mount (mounting : bool) (r : FRESULT)
  | c_getfree (r : FRESULT)
  | c_open (path : string) (mode : Z) (r : FRESULT)
  | c_lseek (ofs : Z) (r : FRESULT)
  | c_write (btw bw : Z) (r : FRESULT)
  | c_read (btr br : Z) (r : FRESULT)
  | c_close (r : FRESULT)
  | c_gets (line : option (list ascii))
  | c_unlink (path : string) (r : FRESULT)
  | c_rename (path_old path_new : string) (r : FRESULT)
  | c_mkdir (path : string) (r : FRESULT).

Global Instance Call_eq_dec : EqDecision Call.
Proof. solve_decision. Defined.

(** The code a logged call returned ([f_gets] returns a pointer, no code). *)
Definition call_result (c : Call) : FRESULT :=
  match c with
  | c_mount _ r | c_getfree r | c_open _ _ r | c_lseek _ r | c_write _ _ r
  | c_read _ _ r | c_close r | c_unlink _ r | c_rename _ _ r | c_mkdir _ r => r
  | c_gets _ => FR_OK
  end.

(** Modelled from the spec: the mounted volume with its files (a flat name
    space, path resolution is not modelled), its cluster geometry, the
    [_USE_STRFUNC] setting of ffconf.h, the faults the card has in store for
    the coming calls (one entry a call, none left means healthy), and the
    log of the library calls made so far, oldest first. *)
Record World : Type := mkWorld {
  mounted : bool;
  files : gmap string (list ascii);
  dirs : gset string;
  n_fatent : Z;
  csize : Z;
  free_clst : Z;
  USE_STRFUNC : Z;
  device : list Fault;
  calls : list Call
}.

Definition with_mounted (b : bool) (w : World) : World :=
  mkWorld b (files w) (dirs w) (n_fatent w) (csize w) (free_clst w)
    (USE_STRFUNC w) (device w) (calls w).
Definition with_files (fs : gmap string (list ascii)) (w : World) : World :=
  mkWorld (mounted w) fs (dirs w) (n_fatent w) (csize w) (free_clst w)
    (USE_STRFUNC w) (device w) (calls w).
Definition with_dirs (ds : gset string) (w : World) : World :=
  mkWorld (mounted w) (files w) ds (n_fatent w) (csize w) (free_clst w)
    (USE_STRFUNC w) (device w) (calls w).
Definition with_device (d : list Fault) (w : World) : World :=
  mkWorld (mounted w) (files w) (dirs w) (n_fatent w) (csize w) (free_clst w)
    (USE_STRFUNC w) d (calls w).
Definition with_calls (cs : list Call) (w : World) : World :=
  mkWorld (mounted w) (files w) (dirs w) (n_fatent w) (csize w) (free_clst w)
    (USE_STRFUNC w) (device w) cs.

(** How a run ends: with a value, in a store outside the array it was aimed
    at (undefined behaviour in C), or with the loop budget used up. *)
Inductive outcome (A : Type) : Type :=
  | Ret (a : A)
  | Overrun
  | OutOfFuel.
Arguments Ret {A} a.
Arguments Overrun {A}.
Arguments OutOfFuel {A}.

Global Instance outcome_ret : MRet outcome := λ A a, Ret a.
Global Instance outcome_bind : MBind outcome := λ A B f o,
  match o with
  | Ret a => f a
  | Overrun => Overrun
  | OutOfFuel => OutOfFuel
  end.

(** A computation on the world: the library calls and the facade. *)
Definition M (A : Type) : Type := World → outcome A * World.

Global Instance M_ret : MRet M := λ A a w, (Ret a, w).
Global Instance M_bind : MBind M := λ A B f m w,
  match m w with
  | (Ret a, w') => f a w'
  | (Overrun, w') => (Overrun, w')
  | (OutOfFuel, w') => (OutOfFuel, w')
  end.

Definition get_world : M World := λ w, (Ret w, w).
Definition modify (f : World → World) : M unit := λ w, (Ret tt, f w).
Definition lift {A} (o : outcome A) : M A := λ w, (o, w).

(** The card's answer to the call being made. *)
Definition draw : M Fault := λ w,
  (Ret (hd Healthy (device w)), with_device (tl (device w)) w).

Definition log (c : Call) : M unit := modify (λ w, with_calls (calls w ++ [c]) w).

(** The calls made between [w] and a later [w']. *)
Definition since (w w' : World) : list Call := drop (length (calls w)) (calls w').

(** ** Memory *)

(** A write into a file at [ofs]: it overwrites, and extends the file when
    it runs past its end (a gap, which FatFs leaves undefined, is NULs). *)
Definition mem_write (mem : list ascii) (ofs : nat) (data : list ascii) : list ascii :=
  take ofs mem ++ replicate (ofs - length mem) NUL ++ data
    ++ drop (ofs + length data) mem.

(** A store of [data] at the head of a caller's array: inside it, or the run
    ends in [Overrun]. *)
Definition store (mem data : list ascii) : outcome (list ascii) :=
  if decide (length data ≤ length mem)%nat
  then Ret (data ++ drop (length data) mem)
  else Overrun.

(** [mem[i] = c]. *)
Definition poke (mem : list ascii) (i : Z) (c : ascii) : outcome (list ascii) :=
  if decide (0 <= i < Z.of_nat (length mem))
  then Ret (<[Z.to_nat i := c]> mem)
  else Overrun.

(** ** The FatFs calls *)

(** Modelled from the spec: [f_mount(&fs, SDPath, 1)] attaches the volume,
    [f_mount(NULL, SDPath, 1)] detaches it. *)
Definition f_mount (mounting : bool) : M FRESULT :=
  fault ← draw;
  let res := fault_code fault in
  (if decide (res = FR_OK) then modify (with_mounted mounting) else mret tt);;
  log (c_mount mounting res);;
  mret res.

(** Modelled from the spec: [f_getfree(SDPath, &fre_clust, &pfs)] gives the
    free cluster count and the volume's [n_fatent] and [csize]; it fails on a
    volume that is not mounted. *)
Definition f_getfree : M (FRESULT * Z * (Z * Z)) :=
  fault ← draw;
  w ← get_world;
  let res :=
    if decide (fault_code fault ≠ FR_OK) then fault_code fault
    else if mounted w then FR_OK else FR_NOT_ENABLED in
  log (c_getfree res);;
  mret (res, if decide (res = FR_OK) then free_clst w else 0, (n_fatent w, csize w)).

(** What [f_open] does to the volume, and the size of the file it opened. *)
Definition open_entry (path : string) (mode : Z) (w : World) : FRESULT * World * nat :=
  let creating :=
    has_flag mode (Z.lor FA_CREATE_ALWAYS (Z.lor FA_OPEN_ALWAYS FA_CREATE_NEW)) in
  let fresh := with_files (<[path := []]> (files w)) w in
  if negb (mounted w) then (FR_NOT_ENABLED, w, 0%nat)
  else if decide (path ∈ dirs w)
  then (if creating then FR_DENIED else FR_NO_FILE, w, 0%nat)
  else match files w !! path with
       | None => if creating then (FR_OK, fresh, 0%nat) else (FR_NO_FILE, w, 0%nat)
       | Some content =>
           if has_flag mode FA_CREATE_NEW then (FR_EXIST, w, 0%nat)
           else if has_flag mode FA_CREATE_ALWAYS then (FR_OK, fresh, 0%nat)
           else (FR_OK, w, length content)
       end.

(** Modelled from the spec: [f_open(&file, path, mode)].  [FA_READ] needs the
    file to exist, [FA_CREATE_ALWAYS] creates or truncates it,
    [FA_OPEN_ALWAYS] opens it and creates it when absent.  On failure the
    file object is left invalid. *)
Definition f_open (fp : FIL) (path : string) (mode : Z) : M (FRESULT * FIL) :=
  fault ← draw;
  w ← get_world;
  let '(res, w', size) :=
    if decide (fault_code fault ≠ FR_OK) then (fault_code fault, w, 0%nat)
    else open_entry path mode w in
  modify (λ _, w');;
  log (c_open path mode res);;
  mret (res, if decide (res = FR_OK) then mkFIL true path mode 0 size
             else FIL_close fp).

(** [f_size(fp)], a macro over the file object. *)
Definition f_size (fp : FIL) : Z := Z.of_nat (objsize fp).

(** Modelled from the spec: [f_lseek(fp, ofs)].  A read-only file is not
    extended: the pointer stops at its end. *)
Definition f_lseek (fp : FIL) (ofs : Z) : M (FRESULT * FIL) :=
  fault ← draw;
  if decide (fault_code fault ≠ FR_OK)
  then log (c_lseek ofs (fault_code fault));; mret (fault_code fault, fp)
  else if negb (fil_valid fp)
  then log (c_lseek ofs FR_INVALID_OBJECT);; mret (FR_INVALID_OBJECT, fp)
  else
    let pos :=
      if has_flag (fil_flag fp) FA_WRITE then Z.to_nat ofs
      else Nat.min (Z.to_nat ofs) (objsize fp) in
    w ← get_world;
    let content := default [] (files w !! fil_name fp) in
    (if decide (length content < pos)%nat
     then modify (with_files (<[fil_name fp := mem_write content pos []]> (files w)))
     else mret tt);;
    log (c_lseek ofs FR_OK);;
    mret (FR_OK, FIL_move fp pos).

(** Modelled from the spec: [f_write(fp, buff, btw, &bw)] writes the first
    [btw] bytes of [buff] at the file pointer; [bw] is the count written,
    which is below [btw] when the volume fills up.  The bytes reach the
    volume at once here; FatFs may keep them in the file object until
    [f_close], which matters only on a card that fails that close. *)
Definition f_write (fp : FIL) (buff : list ascii) (btw : Z) : M (FRESULT * FIL * Z) :=
  fault ← draw;
  if decide (fault_code fault ≠ FR_OK)
  then log (c_write btw 0 (fault_code fault));; mret (fault_code fault, fp, 0)
  else if negb (fil_valid fp)
  then log (c_write btw 0 FR_INVALID_OBJECT);; mret (FR_INVALID_OBJECT, fp, 0)
  else if negb (has_flag (fil_flag fp) FA_WRITE)
  then log (c_write btw 0 FR_DENIED);; mret (FR_DENIED, fp, 0)
  else
    let bw :=
      match fault with
      | Short n => Z.min (Z.of_nat n) btw
      | _ => btw
      end in
    w ← get_world;
    let content := default [] (files w !! fil_name fp) in
    let data := take (Z.to_nat bw) buff in
    modify (with_files (<[fil_name fp := mem_write content (fptr fp) data]> (files w)));;
    log (c_write btw bw FR_OK);;
    mret (FR_OK, FIL_move fp (fptr fp + Z.to_nat bw), bw).

(** Modelled from the spec: [f_read(fp, buff, btr, &br)] copies the bytes at
    the file pointer into [buff], at most [btr] of them and at most what is
    left of the file; [br] is the count copied. *)
Definition f_read (fp : FIL) (buff : list ascii) (btr : Z)
    : M (FRESULT * FIL * list ascii * Z) :=
  fault ← draw;
  if decide (fault_code fault ≠ FR_OK)
  then log (c_read btr 0 (fault_code fault));; mret (fault_code fault, fp, buff, 0)
  else if negb (fil_valid fp)
  then log (c_read btr 0 FR_INVALID_OBJECT);; mret (FR_INVALID_OBJECT, fp, buff, 0)
  else if negb (has_flag (fil_flag fp) FA_READ)
  then log (c_read btr 0 FR_DENIED);; mret (FR_DENIED, fp, buff, 0)
  else
    w ← get_world;
    let rest := drop (fptr fp) (default [] (files w !! fil_name fp)) in
    let br := Z.min btr (Z.of_nat (length rest)) in
    let data := take (Z.to_nat br) rest in
    log (c_read btr br FR_OK);;
    buff ← lift (store buff data);
    mret (FR_OK, FIL_move fp (fptr fp + Z.to_nat br), buff, br).

(** Modelled from the spec: [f_close(fp)]. *)
Definition f_close (fp : FIL) : M (FRESULT * FIL) :=
  fault ← draw;
  let res :=
    if decide (fault_code fault ≠ FR_OK) then fault_code fault
    else if fil_valid fp then FR_OK else FR_INVALID_OBJECT in
  log (c_close res);;
  mret (res, if decide (res = FR_OK) then FIL_close fp else fp).

(** The characters one [f_gets] takes from [rest] with [room] places left in
    the line, and how many bytes of the file it used up for them: it stops
    after a line feed, at the end of the file or when the line is full, and
    drops carriage returns when [_USE_STRFUNC] is 2. *)
Fixpoint gets_scan (strip_cr : bool) (room : nat) (rest : list ascii)
    : list ascii * nat :=
  match rest with
  | [] => ([], 0%nat)
  | c :: rest' =>
      match room with
      | O => ([], 0%nat)
      | S room' =>
          if strip_cr && bool_decide (c = CR)
          then let '(l, k) := gets_scan strip_cr room rest' in (l, S k)
          else if bool_decide (c = LF) then ([c], 1%nat)
          else let '(l, k) := gets_scan strip_cr room' rest' in (c :: l, S k)
      end
  end.

(** Modelled from the spec: [f_gets(buff, len, fp)], the line read of
    section 6: at most [len - 1] characters up to and with the line feed;
    a null pointer ([None]) when nothing could be read. *)
Definition f_gets (len : Z) (fp : FIL) : M (option (list ascii) * FIL) :=
  fault ← draw;
  w ← get_world;
  let rest := drop (fptr fp) (default [] (files w !! fil_name fp)) in
  let '(line, used) :=
    if decide (fault_code fault ≠ FR_OK) then ([], 0%nat)
    else if negb (fil_valid fp && has_flag (fil_flag fp) FA_READ) then ([], 0%nat)
    else gets_scan (bool_decide (USE_STRFUNC w = 2)) (Z.to_nat (len - 1)) rest in
  let res := match line with [] => None | _ => Some line end in
  log (c_gets res);;
  mret (res, FIL_move fp (fptr fp + used)).

(** Modelled from the spec: [f_unlink(path)] removes the entry. *)
Definition f_unlink (path : string) : M FRESULT :=
  fault ← draw;
  w ← get_world;
  let '(res, w') :=
    if decide (fault_code fault ≠ FR_OK) then (fault_code fault, w)
    else if negb (mounted w) then (FR_NOT_ENABLED, w)
    else if decide (path ∈ dirs w) then (FR_OK, with_dirs (dirs w ∖ {[path]}) w)
    else match files w !! path with
         | Some _ => (FR_OK, with_files (delete path (files w)) w)
         | None => (FR_NO_FILE, w)
         end in
  modify (λ _, w');;
  log (c_unlink path res);;
  mret res.

(** Modelled from the spec: [f_rename(old, new)] fails when the source is
    absent or the destination exists. *)
Definition f_rename (path_old path_new : string) : M FRESULT :=
  fault ← draw;
  w ← get_world;
  let '(res, w') :=
    if decide (fault_code fault ≠ FR_OK) then (fault_code fault, w)
    else if negb (mounted w) then (FR_NOT_ENABLED, w)
    else if decide ((path_old ∉ dirs w) ∧ files w !! path_old = None)
    then (FR_NO_FILE, w)
    else if decide (path_new ∈ dirs w ∨ is_Some (files w !! path_new))
    then (FR_EXIST, w)
    else match files w !! path_old with
         | Some content =>
             (FR_OK, with_files (<[path_new := content]> (delete path_old (files w))) w)
         | None => (FR_OK, with_dirs ({[path_new]} ∪ dirs w ∖ {[path_old]}) w)
         end in
  modify (λ _, w');;
  log (c_rename path_old path_new res);;
  mret res.

(** Modelled from the spec: [f_mkdir(path)] creates one directory. *)
Definition f_mkdir (path : string) : M FRESULT :=
  fault ← draw;
  w ← get_world;
  let '(res, w') :=
    if decide (fault_code fault ≠ FR_OK) then (fault_code fault, w)
    else if negb (mounted w) then (FR_NOT_ENABLED, w)
    else if decide (path ∈ dirs w ∨ is_Some (files w !! path)) then (FR_EXIST, w)
    else (FR_OK, with_dirs ({[path]} ∪ dirs w) w) in
  modify (λ _, w');;
  log (c_mkdir path res);;
  mret res.

(** ** The facade: sd_functions.c *)

(** The figures [sd_get_space_kb] prints: total and free space in KB, in
    [DWORD] arithmetic, two 512-byte sectors to the KB. *)
Definition space_kb (fre_clust n_fatent csize : Z) : Z * Z :=
  let tot_sect := wrap32 ((n_fatent - 2) * csize) in
  let fre_sect := wrap32 (fre_clust * csize) in
  (tot_sect / 2, fre_sect / 2).

Definition sd_get_space_kb : M FRESULT :=
  '(res, fre_clust, pfs) ← f_getfree;
  if decide (res ≠ FR_OK) then mret res
  else
    let '(total_kb, free_kb) := space_kb fre_clust (fst pfs) (snd pfs) in
    mret FR_OK.

(** [BSP_SD_GetCardInfo] only fills the card record that is then printed. *)
Definition sd_mount : M FRESULT :=
  res ← f_mount true;
  if decide (res = FR_OK) then
    _ ← sd_get_space_kb;
    mret FR_OK
  else mret res.

Definition sd_unmount : M FRESULT :=
  res ← f_mount false;
  mret res.

Definition sd_write_file (filename : string) (text : list ascii) : M FRESULT :=
  '(res, file) ← f_open FIL_blank filename (Z.lor FA_CREATE_ALWAYS FA_WRITE);
  if decide (res ≠ FR_OK) then mret res
  else
    '(res, file, bw) ← f_write file text (strlen text);
    _ ← f_close file;
    mret (if decide (res = FR_OK ∧ bw = strlen text) then FR_OK else FR_DISK_ERR).

Definition sd_append_file (filename : string) (text : list ascii) : M FRESULT :=
  '(res, file) ← f_open FIL_blank filename (Z.lor FA_OPEN_ALWAYS FA_WRITE);
  if decide (res ≠ FR_OK) then mret res
  else
    '(res, file) ← f_lseek file (f_size file);
    if decide (res ≠ FR_OK) then
      _ ← f_close file;
      mret res
    else
      '(res, file, bw) ← f_write file text (strlen text);
      _ ← f_close file;
      mret (if decide (res = FR_OK ∧ bw = strlen text) then FR_OK else FR_DISK_ERR).

(** The result is the code, the buffer and [*bytes_read]. *)
Definition sd_read_file (filename : string) (buffer : list ascii) (bufsize : Z)
    : M (FRESULT * list ascii * Z) :=
  let bytes_read := 0 in
  '(res, file) ← f_open FIL_blank filename FA_READ;
  if decide (res ≠ FR_OK) then mret (res, buffer, bytes_read)
  else
    '(res, file, buffer, bytes_read) ← f_read file buffer (wrap32 (bufsize - 1));
    if decide (res ≠ FR_OK) then
      _ ← f_close file;
      mret (res, buffer, bytes_read)
    else
      buffer ← lift (poke buffer bytes_read NUL);
      '(res, file) ← f_close file;
      if decide (res ≠ FR_OK) then mret (res, buffer, bytes_read)
      else mret (FR_OK, buffer, bytes_read).

Record CsvRecord : Type := mkCsvRecord {
  field1 : list ascii;
  field2 : list ascii;
  value : Z
}.

(** [sizeof(records[i].field1)] and [sizeof(records[i].field2)]. *)
Definition FIELD_SIZE : nat := 32.

Definition set_field1 (f : list ascii) (r : CsvRecord) : CsvRecord :=
  mkCsvRecord f (field2 r) (value r).
Definition set_field2 (f : list ascii) (r : CsvRecord) : CsvRecord :=
  mkCsvRecord (field1 r) f (value r).
Definition set_value (v : Z) (r : CsvRecord) : CsvRecord :=
  mkCsvRecord (field1 r) (field2 r) v.

(** A store into [records[i]]: [i] is inside the caller's array, or the run
    ends in [Overrun]. *)
Definition update_record (records : list CsvRecord) (i : Z)
    (f : CsvRecord → CsvRecord) : outcome (list CsvRecord) :=
  match (if decide (0 <= i) then records !! Z.to_nat i else None) with
  | Some r => Ret (<[Z.to_nat i := f r]> records)
  | None => Overrun
  end.

(** The body of the [while] loop of [sd_read_csv] for one [line]; the two
    [continue]s leave [record_count] as it is. *)
Definition read_csv_line (line : list ascii) (records : list CsvRecord)
    (record_count : Z) : outcome (list CsvRecord * Z) :=
  let '(token, saved) := strtok (Some line) [comma] [] in
  match token with
  | None => mret (records, record_count)
  | Some token =>
      records ← update_record records record_count
                  (λ r, set_field1 (strncpy (field1 r) token FIELD_SIZE) r);
      let '(token, saved) := strtok None [comma] saved in
      match token with
      | None => mret (records, record_count)
      | Some token =>
          records ← update_record records record_count
                      (λ r, set_field2 (strncpy (field2 r) token FIELD_SIZE) r);
          let '(token, saved) := strtok None [comma] saved in
          records ← update_record records record_count
                      (set_value (match token with
                                  | Some token => atoi token
                                  | None => 0
                                  end));
          mret (records, record_count + 1)
      end
  end.

(** [while (f_gets(line, sizeof(line), &file) && *record_count < max_records)].
    Every turn that goes on has taken at least one byte of the file, so the
    file's size bounds the turns; [fuel] is that bound. *)
Fixpoint read_csv_loop (fuel : nat) (file : FIL) (records : list CsvRecord)
    (record_count max_records : Z) : M (FIL * list CsvRecord * Z) :=
  match fuel with
  | O => lift OutOfFuel
  | S fuel' =>
      '(line, file) ← f_gets 128 file;
      match line with
      | None => mret (file, records, record_count)
      | Some line =>
          if decide (record_count < max_records) then
            '(records, record_count) ← lift (read_csv_line line records record_count);
            read_csv_loop fuel' file records record_count max_records
          else mret (file, records, record_count)
      end
  end.

(** The result is the code, the records and [*record_count]. *)
Definition sd_read_csv (filename : string) (records : list CsvRecord)
    (max_records : Z) : M (FRESULT * list CsvRecord * Z) :=
  let record_count := 0 in
  '(res, file) ← f_open FIL_blank filename FA_READ;
  if decide (res ≠ FR_OK) then mret (res, records, record_count)
  else
    '(file, records, record_count) ←
      read_csv_loop (S (objsize file)) file records record_count max_records;
    _ ← f_close file;
    mret (FR_OK, records, record_count).

Definition sd_delete_file (filename : string) : M FRESULT :=
  res ← f_unlink filename;
  mret res.

Definition sd_rename_file (oldname newname : string) : M FRESULT :=
  res ← f_rename oldname newname;
  mret res.

Definition sd_create_directory (path : string) : M FRESULT :=
  res ← f_mkdir path;
  mret res.

(** ** FatFs: directories *)

(** Modelled from the spec: the directory bit of an entry's attributes
    ([AM_DIR] of ff.h), the is-directory flag of section 3. *)
Definition AM_DIR : Z := 16.

(** Modelled from the spec: [FILINFO], what [f_readdir] tells about one
    entry (section 3): its size, its attributes and its name. *)
Record FILINFO : Type := mkFILINFO {
  fsize : Z;
  fattrib : Z;
  fname : string
}.

(** The entry with an empty name, which [f_readdir] hands back at the end
    of a directory; it also stands for [FILINFO fno;] before the first
    read. *)
Definition FILINFO_end : FILINFO := mkFILINFO 0 0 "".

(** Modelled from the spec: the directory object [DIR], whether it is open
    and the entries still to be read. *)
Record DIR : Type := mkDIR {
  dir_valid : bool;
  dir_rest : list FILINFO
}.

(** One directory call as the log keeps it. *)
Inductive DirCall : Type :=
  | c_opendir (path : string) (r : FRESULT)
  | c_readdir (r : FRESULT)
  | c_closedir (r : FRESULT).

(** One [printf] of the listing, by its format and its arguments:
    - [l_header]: the header line of [sd_list_files];
    - [l_cannot_open w path]: ["%*s[ERR] Cannot open: %s\r\n"];
    - [l_folder w name]: ["%*s<folder sign> %s\r\n"];
    - [l_file w name size]: ["%*s<file sign> %s (%lu bytes)\r\n"];
    - [l_end]: the two empty lines that end [sd_list_files].
    [w] is the width given for the ["%*s"] of the empty string, the
    indentation. *)
Inductive Line : Type :=
  | l_header
  | l_cannot_open (width : Z) (path : string)
  | l_folder (width : Z) (name : string)
  | l_file (width : Z) (name : string) (size : Z)
  | l_end.

(** Modelled from the spec: the volume as the listing sees it: the mount
    point [SDPath], the entries of each directory by its path and in the
    order [f_readdir] yields them, the faults the card has in store for the
    coming calls, the log of the directory calls, and the console. *)
Record Disk : Type := mkDisk {
  SDPath : string;
  folders : gmap string (list FILINFO);
  answers : list Fault;
  dir_calls : list DirCall;
  console : list Line
}.

(** A computation on the disk. *)
Definition D (A : Type) : Type := Disk → outcome A * Disk.

Global Instance D_ret : MRet D := λ A a d, (Ret a, d).
Global Instance D_bind : MBind D := λ A B f m d,
  match m d with
  | (Ret a, d') => f a d'
  | (Overrun, d') => (Overrun, d')
  | (OutOfFuel, d') => (OutOfFuel, d')
  end.

Definition get_disk : D Disk := λ d, (Ret d, d).

(** The budget of loop turns or of nested calls is used up. *)
Definition exhausted {A} : D A := λ d, (OutOfFuel, d).

(** The card's answer to the directory call being made. *)
Definition answer : D Fault := λ d,
  (Ret (hd Healthy (answers d)),
   mkDisk (SDPath d) (folders d) (tl (answers d)) (dir_calls d) (console d)).

Definition dir_log (c : DirCall) : D unit := λ d,
  (Ret tt, mkDisk (SDPath d) (folders d) (answers d) (dir_calls d ++ [c]) (console d)).

Definition printf (l : Line) : D unit := λ d,
  (Ret tt, mkDisk (SDPath d) (folders d) (answers d) (dir_calls d) (console d ++ [l])).

(** Modelled from the spec: [f_opendir(&dir, path)]. *)
Definition f_opendir (path : string) : D (FRESULT * DIR) :=
  fault ← answer;
  d ← get_disk;
  let res :=
    if decide (fault_code fault ≠ FR_OK) then fault_code fault
    else match folders d !! path with Some _ => FR_OK | None => FR_NO_PATH end in
  dir_log (c_opendir path res);;
  mret (res, if decide (res = FR_OK)
             then mkDIR true (default [] (folders d !! path))
             else mkDIR false []).

(** Modelled from the spec: [f_readdir(&dir, &fno)] yields the entries one
    at a time, and an empty name with [FR_OK] when there is none left. *)
Definition f_readdir (dp : DIR) (fno : FILINFO) : D (FRESULT * DIR * FILINFO) :=
  fault ← answer;
  let '(res, dp', fno') :=
    if decide (fault_code fault ≠ FR_OK) then (fault_code fault, dp, fno)
    else if negb (dir_valid dp) then (FR_INVALID_OBJECT, dp, fno)
    else match dir_rest dp with
         | [] => (FR_OK, dp, FILINFO_end)
         | entry :: rest => (FR_OK, mkDIR true rest, entry)
         end in
  dir_log (c_readdir res);;
  mret (res, dp', fno').

(** Modelled from the spec: [f_closedir(&dir)]. *)
Definition f_closedir (dp : DIR) : D FRESULT :=
  fault ← answer;
  let res :=
    if decide (fault_code fault ≠ FR_OK) then fault_code fault
    else if dir_valid dp then FR_OK else FR_INVALID_OBJECT in
  dir_log (c_closedir res);;
  mret res.

(** ** The facade: the directory listing *)

(** [sizeof(newpath)]. *)
Definition PATH_SIZE : nat := 128.

(** [snprintf(buf, size, ...)] for the text the format comes to: the text
    cut to [size - 1] characters. *)
Definition snprintf (size : nat) (text : string) : string :=
  string_of_list_ascii (take (size - 1) (chars text)).

(** The [while (1)] loop of [sd_list_directory_recursive], [recurse] being
    the function itself.  Every turn that goes on has taken an entry of the
    directory, so their number bounds the turns; [turns] is that bound. *)
Fixpoint list_entries (turns : nat) (recurse : string → Z → D unit)
    (path : string) (depth : Z) (dir : DIR) (fno : FILINFO) : D DIR :=
  match turns with
  | O => exhausted
  | S turns' =>
      '(res, dir, fno) ← f_readdir dir fno;
      if decide (res ≠ FR_OK ∨ fname fno = ""%string) then mret dir
      else
        let name := fname fno in
        (if has_flag (fattrib fno) AM_DIR then
           if decide (name ≠ "."%string ∧ name ≠ ".."%string) then
             printf (l_folder (depth * 2) name);;
             let newpath := snprintf PATH_SIZE (path ++ "/" ++ name) in
             recurse newpath (depth + 1)
           else mret tt
         else printf (l_file (depth * 2) name (fsize fno)));;
        list_entries turns' recurse path depth dir fno
  end.

(** [stack] is the number of nested calls the call stack has room for. *)
Fixpoint sd_list_directory_recursive (stack : nat) (path : string) (depth : Z)
    : D unit :=
  match stack with
  | O => exhausted
  | S stack' =>
      '(res, dir) ← f_opendir path;
      if decide (res ≠ FR_OK) then printf (l_cannot_open (depth * 2) path)
      else
        dir ← list_entries (S (length (dir_rest dir)))
                 (sd_list_directory_recursive stack') path depth dir FILINFO_end;
        _ ← f_closedir dir;
        mret tt
  end.

Definition sd_list_files (stack : nat) : D unit :=
  printf l_header;;
  d ← get_disk;
  sd_list_directory_recursive stack (SDPath d) 0;;
  printf l_end.

(** ** The CSV loop, line by line *)

(** The tokens the three [strtok] calls of the loop body find on a line. *)
Definition first_token (line : list ascii) : option (list ascii) :=
  (strtok (Some line) [comma] []).1.

Definition second_token (line : list ascii) : option (list ascii) :=
  let '(token, saved) := strtok (Some line) [comma] [] in
  match token with
  | None => None
  | Some _ => (strtok None [comma] saved).1
  end.

Definition third_token (line : list ascii) : option (list ascii) :=
  let '(token, saved) := strtok (Some line) [comma] [] in
  match token with
  | None => None
  | Some _ =>
      let '(token, saved) := strtok None [comma] saved in
      match token with
      | None => None
      | Some _ => (strtok None [comma] saved).1
      end
  end.

(** What the loop body makes of the record it is given. *)
Definition line_record (line : list ascii) (old : CsvRecord) : CsvRecord :=
  match first_token line with
  | None => old
  | Some t1 =>
      let r1 := set_field1 (strncpy (field1 old) t1 FIELD_SIZE) old in
      match second_token line with
      | None => r1
      | Some t2 =>
          set_value (match third_token line with
                     | Some t3 => atoi t3
                     | None => 0
                     end)
            (set_field2 (strncpy (field2 old) t2 FIELD_SIZE) r1)
      end
  end.

Definition counted (line : list ascii) : bool :=
  match second_token line with Some _ => true | None => false end.

(** The loop of [sd_read_csv] on the lines [f_gets] hands it. *)
Fixpoint parse_lines (ls : list (list ascii)) (records : list CsvRecord)
    (record_count max_records : Z) : outcome (list CsvRecord * Z) :=
  match ls with
  | [] => Ret (records, record_count)
  | line :: ls' =>
      if decide (record_count < max_records) then
        '(records, record_count) ← read_csv_line line records record_count;
        parse_lines ls' records record_count max_records
      else Ret (records, record_count)
  end.

(** The lines successive [f_gets] calls deliver from [rest], the part of
    the file not read yet; [fuel] bounds their number. *)
Fixpoint lines_from (strip_cr : bool) (fuel : nat) (rest : list ascii)
    : list (list ascii) :=
  match fuel with
  | O => []
  | S fuel' =>
      let '(line, used) := gets_scan strip_cr 127 rest in
      match line with
      | [] => []
      | _ => line :: lines_from strip_cr fuel' (drop used rest)
      end
  end.

(** The lines of the file [filename] as [sd_read_csv] gets them. *)
Definition file_lines (w : World) (filename : string) : list (list ascii) :=
  let content := default [] (files w !! filename) in
  lines_from (bool_decide (USE_STRFUNC w = 2)) (S (length content)) content.

(** What is left to read of the file behind [fp]. *)
Definition unread (fp : FIL) (w : World) : list ascii :=
  drop (fptr fp) (default [] (files w !! fil_name fp)).

(** [sd_read_csv]'s result without the file object. *)
Definition loop_result (o : outcome (FIL * list CsvRecord * Z))
    : outcome (list CsvRecord * Z) :=
  '(_, records, n) ← o; Ret (records, n).


(** The count [sd_read_csv] hands back, when it returns. *)
Definition count_of (o : outcome (FRESULT * list CsvRecord * Z)) : option Z :=
  match o with Ret (_, _, n) => Some n | _ => None end.

(** The records [sd_read_csv] hands back, when it returns. *)
Definition records_of (o : outcome (FRESULT * list CsvRecord * Z))
    : list CsvRecord :=
  match o with Ret (_, records, _) => records | _ => [] end.

(** [field], a member of [FIELD_SIZE] bytes, after [strncpy] has copied
    [token] into it: the text cut to the field, NULs after it when it is
    shorter, and then no terminator when it is not. *)
Definition copy_of (token field : list ascii) : Prop :=
  length field = FIELD_SIZE ∧
  field = take FIELD_SIZE (cstr token)
            ++ replicate (FIELD_SIZE - length (cstr token)) NUL ∧
  ((FIELD_SIZE ≤ length (cstr token))%nat → NUL ∉ field) ∧
  ((length (cstr token) < FIELD_SIZE)%nat →
   field !! length (cstr token) = Some NUL).

(** ** Worlds to run on *)

(** A mounted card with the given files and the given faults in store. *)
Definition card (fs : list (string * list ascii)) (d : list Fault) : World :=
  mkWorld true (list_to_map fs) ∅ 1000 8 500 1 d [].

(** A card that serves the open and denies the write that follows. *)
Definition denying_card : World := card [] [Healthy; Fails FR_DENIED].

(** A card that fills up after two bytes of the first write. *)
Definition full_card : World := card [] [Healthy; Short 2].

(** A card whose seek fails with a timeout. *)
Definition stalling_card : World := card [] [Healthy; Fails FR_TIMEOUT].

Definition blank_record : CsvRecord :=
  mkCsvRecord (replicate FIELD_SIZE NUL) (replicate FIELD_SIZE NUL) 7.

(** The CSV input of section 8. *)
Definition spec_csv : list ascii :=
  chars "a,b,3" ++ [LF] ++ chars "a,b" ++ [LF] ++ chars "a" ++ [LF].

Definition csv_card : World := card [("data.csv"%string, spec_csv)] [].

Definition hello_card : World := card [("hello.txt"%string, chars "hello")] [].

(** A line whose first token has 40 bytes. *)
Definition long_line : list ascii :=
  replicate 40 (ascii_of_nat 120) ++ chars ",yes,1" ++ [LF].

(** A card that serves every call still to come. *)
Definition healthy (w : World) : Prop :=
  Forall (λ f, fault_code f = FR_OK) (device w).

(** ** The facade as a whole *)

(** The operations of the facade that give a code back. *)
Inductive Op : Type :=
  | op_get_space_kb
  | op_mount
  | op_unmount
  | op_write_file (filename : string) (text : list ascii)
  | op_append_file (filename : string) (text : list ascii)
  | op_read_file (filename : string) (buffer : list ascii) (bufsize : Z)
  | op_read_csv (filename : string) (records : list CsvRecord) (max_records : Z)
  | op_delete_file (filename : string)
  | op_rename_file (oldname newname : string)
  | op_create_directory (path : string).

(** The code the operation returns to its caller. *)
Definition returned (op : Op) : M FRESULT :=
  match op with
  | op_get_space_kb => sd_get_space_kb
  | op_mount => sd_mount
  | op_unmount => sd_unmount
  | op_write_file filename text => sd_write_file filename text
  | op_append_file filename text => sd_append_file filename text
  | op_read_file filename buffer bufsize =>
      '(res, _, _) ← sd_read_file filename buffer bufsize; mret res
  | op_read_csv filename records max_records =>
      '(res, _, _) ← sd_read_csv filename records max_records; mret res
  | op_delete_file filename => sd_delete_file filename
  | op_rename_file oldname newname => sd_rename_file oldname newname
  | op_create_directory path => sd_create_directory path
  end.

(** ** Reading the log *)

(** The first code that is not [FR_OK] among the calls, each seen through
    [view]; [FR_OK] when there is none. *)
Fixpoint first_failure (view : Call → FRESULT) (cs : list Call) : FRESULT :=
  match cs with
  | [] => FR_OK
  | c :: cs' =>
      if decide (view c = FR_OK) then first_failure view cs' else view c
  end.

(** A library step as the propagation policy of section 7 reads it: its own
    code, but the generic I/O error for a write that reported success with
    fewer bytes than asked. *)
Definition stated_view (c : Call) : FRESULT :=
  match c with
  | c_write btw bw r =>
      if decide (r = FR_OK ∧ bw ≠ btw) then FR_DISK_ERR else r
  | _ => call_result c
  end.

(** A library step as the operation [op] takes it: the code of a step it
    checks, [FR_DISK_ERR] for a write step of [sd_write_file] or
    [sd_append_file] that failed in any way, and [FR_OK] for a step whose
    result it does not look at. *)
Definition checked_view (op : Op) (c : Call) : FRESULT :=
  match op, c with
  | (op_write_file _ _ | op_append_file _ _), c_write btw bw r =>
      if decide (r = FR_OK ∧ bw = btw) then FR_OK else FR_DISK_ERR
  | (op_write_file _ _ | op_append_file _ _ | op_read_csv _ _ _), c_close _ => FR_OK
  | op_mount, c_getfree _ => FR_OK
  | _, _ => call_result c
  end.

(** A successful [f_open] in the log. *)
Definition opened (c : Call) : bool :=
  match c with c_open _ _ FR_OK => true | _ => false end.

(** An [f_close] in the log, whatever it returned. *)
Definition closed (c : Call) : bool :=
  match c with c_close _ => true | _ => false end.

(** A call that has failed: it gave back a code other than [FR_OK], an
    [f_write] stored another count of bytes than asked, or [f_gets] gave no
    line. *)
Definition failed (c : Call) : Prop :=
  call_result c ≠ FR_OK ∨
  match c with
  | c_write btw bw _ => bw ≠ btw
  | c_gets None => True
  | _ => False
  end.

(** A card that serves the open and the read and fails the close. *)
Definition closing_card : World :=
  card [("hello.txt"%string, chars "hello")] [Healthy; Healthy; Fails FR_DISK_ERR].

(** ** The tokens of a line *)

(** The text [s] cut at every comma: the pieces between the commas, empty
    ones too. *)
Fixpoint fields (s : list ascii) : list (list ascii) :=
  match s with
  | [] => [[]]
  | c :: s' =>
      if decide (c = comma) then [] :: fields s'
      else match fields s' with
           | f :: fs => (c :: f) :: fs
           | [] => [[c]]
           end
  end.

(** The pieces of a line that are not empty, up to its terminator. *)
Definition tokens (line : list ascii) : list (list ascii) :=
  filter (λ f, f ≠ []) (fields (cstr line)).

(** What the loop body of [sd_read_csv] makes of a record for the tokens
    [ts] of a line: nothing without a token, [field1] with one, both
    fields and [value] with two or more. *)
Definition record_of_tokens (ts : list (list ascii)) (old : CsvRecord) : CsvRecord :=
  match ts with
  | [] => old
  | [t1] => set_field1 (strncpy (field1 old) t1 FIELD_SIZE) old
  | t1 :: t2 :: rest =>
      mkCsvRecord (strncpy (field1 old) t1 FIELD_SIZE)
                  (strncpy (field2 old) t2 FIELD_SIZE)
                  (match rest with t3 :: _ => atoi t3 | [] => 0 end)
  end.

(** A text with no comma and no NUL in it. *)
Definition plain (t : list ascii) : Prop := (comma ∉ t) ∧ NUL ∉ t.

(** A row of the CSV layout [field1,field2,value], with its line feed. *)
Definition row_text (row : list ascii * list ascii * list ascii) : list ascii :=
  let '(t1, t2, t3) := row in t1 ++ comma :: t2 ++ comma :: t3 ++ [LF].

(** A character a field of a row can hold: no separator, no terminator and
    no line end. *)
Definition field_char (c : ascii) : Prop :=
  c ≠ comma ∧ c ≠ NUL ∧ c ≠ LF ∧ c ≠ CR.

(** A row that fits the line buffer of [sd_read_csv] and has its first two
    fields. *)
Definition whole_row (row : list ascii * list ascii * list ascii) : Prop :=
  let '(t1, t2, t3) := row in
  t1 ≠ [] ∧ t2 ≠ [] ∧ Forall field_char (t1 ++ t2 ++ t3) ∧
  (length (row_text row) ≤ 127)%nat.

(** ** Directory trees *)

(** An entry of a directory with all that is below it. *)
#[warnings="-register-all"] Inductive Entry : Type :=
  | File (name : string) (attrib size : Z)
  | Folder (name : string) (attrib size : Z) (entries : list Entry).

(** What [f_readdir] tells about the entry. *)
Definition info (e : Entry) : FILINFO :=
  match e with
  | File name attrib size | Folder name attrib size _ => mkFILINFO size attrib name
  end.

Fixpoint height (e : Entry) : nat :=
  match e with
  | File _ _ _ => 0
  | Folder _ _ _ entries => S (foldr (λ e h, Nat.max (height e) h) 0%nat entries)
  end.

(** The levels of directories below a directory with these entries. *)
Definition levels (entries : list Entry) : nat :=
  foldr (λ e h, Nat.max (height e) h) 0%nat entries.

(** The lines of an entry in a listing at [depth]: a file has one line; a
    folder has its line and then, one level deeper, the lines of its
    entries in their order; the dot entries have none. *)
Fixpoint listed (depth : Z) (e : Entry) : list Line :=
  match e with
  | File name _ size => [l_file (depth * 2) name size]
  | Folder name _ _ entries =>
      if decide (name ≠ "."%string ∧ name ≠ ".."%string)
      then l_folder (depth * 2) name :: flat_map (listed (depth + 1)) entries
      else []
  end.

(** The entry [e], read in the directory [path], is as the volume [fs] has
    it: a name, the directory bit of a folder, and for a folder that is no
    dot entry its own entries under [path/name], a path that fits the path
    buffer. *)
Fixpoint on_volume (fs : gmap string (list FILINFO)) (path : string) (e : Entry)
    : Prop :=
  match e with
  | File name attrib _ => name ≠ ""%string ∧ has_flag attrib AM_DIR = false
  | Folder name attrib _ entries =>
      name ≠ ""%string ∧ has_flag attrib AM_DIR = true ∧
      (name ≠ "."%string ∧ name ≠ ".."%string →
       let sub := (path ++ "/" ++ name)%string in
       (String.length sub < PATH_SIZE)%nat ∧
       fs !! sub = Some (info <$> entries) ∧
       foldr (λ e P, on_volume fs sub e ∧ P) True entries)
  end.

(** An entry the listing goes into: a directory that is no dot entry. *)
Definition entered (e : FILINFO) : Prop :=
  has_flag (fattrib e) AM_DIR = true ∧
  fname e ≠ ""%string ∧ fname e ≠ "."%string ∧ fname e ≠ ".."%string.

(** ** Reading the directory log and the console *)

Definition opened_dir (c : DirCall) : bool :=
  match c with c_opendir _ FR_OK => true | _ => false end.

Definition closed_dir (c : DirCall) : bool :=
  match c with c_closedir _ => true | _ => false end.

(** The path of an [f_opendir] that failed. *)
Definition failed_open (c : DirCall) : option string :=
  match c with
  | c_opendir path r => if decide (r = FR_OK) then None else Some path
  | _ => None
  end.

(** The path an error line names. *)
Definition error_line (l : Line) : option string :=
  match l with l_cannot_open _ path => Some path | _ => None end.

(** The directory calls made between [d] and a later [d'], and the lines
    printed. *)
Definition dir_since (d d' : Disk) : list DirCall :=
  drop (length (dir_calls d)) (dir_calls d').

Definition printed (d d' : Disk) : list Line :=
  drop (length (console d)) (console d').

(** A disk that serves every call still to come. *)
Definition serving (d : Disk) : Prop :=
  Forall (λ f, fault_code f = FR_OK) (answers d).

(** A computation that leaves the volume as it is, stores nowhere outside
    an array, has an error line for every open that failed and for nothing
    else, and has closed, when it returns, every directory it opened. *)
Definition accounted {A} (m : D A) : Prop :=
  ∀ d, ∃ o d' cs ls,
    m d = (o, d') ∧
    dir_calls d' = dir_calls d ++ cs ∧ console d' = console d ++ ls ∧
    folders d' = folders d ∧ SDPath d' = SDPath d ∧ (serving d → serving d') ∧
    o ≠ Overrun ∧
    omap error_line ls = omap failed_open cs ∧
    (∀ a, o = Ret a →
       length (filter (λ c, closed_dir c) cs) = length (filter (λ c, opened_dir c) cs)).

(** On a serving disk with the directories [fs], the computation returns
    [a] and has printed the lines [ls]. *)
Definition lists (fs : gmap string (list FILINFO)) {A} (m : D A) (a : A)
    (ls : list Line) : Prop :=
  ∀ d, serving d → folders d = fs →
    ∃ d', m d = (Ret a, d') ∧ console d' = console d ++ ls ∧
          folders d' = fs ∧ serving d'.

(** ** Disks to run on *)

(** A disk mounted at ["0:/"] with the given directories and faults. *)
Definition disk (fs : list (string * list FILINFO)) (a : list Fault) : Disk :=
  mkDisk "0:/" (list_to_map fs) a [] [].

(** Two files and a folder under the root, and in the folder a file after
    the dot entries a FAT sub-directory has. *)
Definition small_tree : list Entry :=
  [File "README.TXT" 32 120;
   Folder "LOGS" 16 0
     [Folder "." 16 0 []; Folder ".." 16 0 []; File "RUN1.CSV" 32 2048];
   File "DATA.CSV" 32 14].

(** The root's entries are read at ["0:/"], those of [LOGS] at the path the
    listing builds for it: ["0://LOGS"], [SDPath] ending in a slash. *)
Definition small_disk : Disk :=
  disk [("0:/"%string, info <$> small_tree);
        ("0://LOGS"%string,
         info <$> [Folder "." 16 0 []; Folder ".." 16 0 []; File "RUN1.CSV" 32 2048])]
       [].

(** A card that fails the second directory open. *)
Definition failing_disk : Disk :=
  disk [("0:/"%string, info <$> small_tree)]
       [Healthy; Healthy; Healthy; Fails FR_DISK_ERR].

(** A path of 127 characters, as long as the path buffer can hold. *)
Definition full_path : string :=
  string_of_list_ascii (chars "0:/" ++ replicate 124 (ascii_of_nat 97)).

(** A directory at that path with a file and a sub-directory in it. *)
Definition deep_disk : Disk :=
  disk [(full_path, [mkFILINFO 5 32 "A.TXT"; mkFILINFO 0 16 "SUB"])] [].

(** Two rows of the CSV layout, and a card with the file they make. *)
Definition two_rows : list (list ascii * list ascii * list ascii) :=
  [(chars "a", chars "b", chars "3"); (chars "key", chars "value", chars "12")].

Definition rows_card : World :=
  card [("rows.csv"%string, concat (row_text <$> two_rows))] [].

(** A card that serves the next [k] calls and fails the one after them
    with [e]. *)
Definition fails_after (k : nat) (e : FRESULT) (w : World) : Prop :=
  ∃ oks rest,
    device w = oks ++ Fails e :: rest ∧ length oks = k ∧
    Forall (λ f, fault_code f = FR_OK) oks ∧ e ≠ FR_OK.

(** A card with the CSV input of section 8 that serves the open and one
    read of a line, and fails the next read. *)
Definition reading_fails_card : World :=
  card [("data.csv"%string, spec_csv)] [Healthy; Healthy; Fails FR_DISK_ERR].

(** * Properties *)

(** Distinct codes are distinct [int]s: nothing is lost by keeping the
    enumerator where the source returns an [int]. *)
Lemma FRESULT_int_inj a b : FRESULT_int a = FRESULT_int b → a = b.
Proof. destruct a, b; simpl; intros H; first [reflexivity | discriminate H]. Qed.

(** ** The model at work *)

Example strtok_first :
  strtok (Some (chars "a,b,3")) [comma] [] = (Some (chars "a"), chars "b,3").
Proof. reflexivity. Qed.

Example strtok_skips_empty_fields :
  strtok (Some (chars ",,x")) [comma] [] = (Some (chars "x"), []).
Proof. reflexivity. Qed.

Example atoi_stops_at_line_feed : atoi (chars "3" ++ [LF]) = 3.
Proof. reflexivity. Qed.

Example atoi_of_text : atoi (chars "abc") = 0.
Proof. reflexivity. Qed.

Example atoi_signed : atoi (chars "  -12x") = -12.
Proof. reflexivity. Qed.

Example strncpy_pads : strncpy (replicate 4 LF) (chars "ab") 4 = chars "ab" ++ [NUL; NUL].
Proof. reflexivity. Qed.

Example strncpy_cuts : strncpy (replicate 4 LF) (chars "abcdef") 4 = chars "abcd".
Proof. reflexivity. Qed.

Example wrap32_of_minus_one : wrap32 (0 - 1) = UINT_MAX.
Proof. reflexivity. Qed.

Example spec_csv_lines :
  file_lines csv_card "data.csv"
    = [chars "a,b,3" ++ [LF]; chars "a,b" ++ [LF]; chars "a" ++ [LF]].
Proof. vm_compute. reflexivity. Qed.

(** The input of section 8 read into three records that held NULs and 7:
    two records are counted, and the third has the one token of the last
    line in [field1]. *)
Example spec_csv_read :
  (sd_read_csv "data.csv" (replicate 3 blank_record) 3 csv_card).1
    = Ret (FR_OK,
           [mkCsvRecord (chars "a" ++ replicate 31 NUL)
                        (chars "b" ++ replicate 31 NUL) 3;
            mkCsvRecord (chars "a" ++ replicate 31 NUL)
                        (chars "b" ++ [LF] ++ replicate 30 NUL) 0;
            mkCsvRecord (chars "a" ++ [LF] ++ replicate 30 NUL)
                        (replicate 32 NUL) 7],
           2).
Proof. vm_compute. reflexivity. Qed.

Example write_then_append :
  let w1 := (sd_write_file "log.txt" (chars "ab") (card [] [])).2 in
  let w2 := (sd_append_file "log.txt" (chars "cd") w1).2 in
  files w2 !! "log.txt"%string = Some (chars "abcd").
Proof. vm_compute. reflexivity. Qed.

(** ** Running the monad *)

Lemma bind_run {A B} (m : M A) (f : A → M B) w a w' :
  m w = (Ret a, w') → (m ≫= f) w = f a w'.
Proof. intros H. unfold mbind, M_bind. by rewrite H. Qed.

Lemma bind_overrun {A B} (m : M A) (f : A → M B) w w' :
  m w = (Overrun, w') → (m ≫= f) w = (Overrun, w').
Proof. intros H. unfold mbind, M_bind. by rewrite H. Qed.

Lemma bind_out_of_fuel {A B} (m : M A) (f : A → M B) w w' :
  m w = (OutOfFuel, w') → (m ≫= f) w = (OutOfFuel, w').
Proof. intros H. unfold mbind, M_bind. by rewrite H. Qed.

Lemma since_app w w' cs : calls w' = calls w ++ cs → since w w' = cs.
Proof. intros H. unfold since. rewrite H. apply drop_app_length. Qed.

(** ** Proof tactics *)

(** Unfolds the monad and the primitives of the world. *)
Ltac run_call :=
  unfold draw, log, modify, get_world, lift;
  unfold mbind, M_bind, mret, M_ret; simpl.

(** Replaces a call whose run is known by its result. *)
Ltac step H := rewrite (bind_run _ _ _ _ _ H); cbn beta iota.

(** Joins the logs of two runs, one after the other. *)
Ltac chain H1 H2 := rewrite H2, H1, <- ?app_assoc; reflexivity.

(** Goes through the members of a list given in full. *)
Ltac in_list H :=
  repeat (apply elem_of_cons in H as [H|H]); try (by apply elem_of_nil in H).

(** ** What each library call returns and logs *)

Lemma open_entry_calls path mode w :
  calls (open_entry path mode w).1.2 = calls w.
Proof.
  unfold open_entry.
  repeat (case_match || case_decide); simpl; done.
Qed.

Lemma f_mount_log mounting w :
  ∃ res w', f_mount mounting w = (Ret res, w') ∧
            calls w' = calls w ++ [c_mount mounting res].
Proof.
  unfold f_mount. run_call.
  case_decide; simpl; eauto.
Qed.

Lemma f_getfree_log w :
  ∃ res n pfs w', f_getfree w = (Ret (res, n, pfs), w') ∧
                  calls w' = calls w ++ [c_getfree res].
Proof. unfold f_getfree. run_call. eauto 10. Qed.

Lemma f_open_log fp path mode w :
  ∃ res fp' w', f_open fp path mode w = (Ret (res, fp'), w') ∧
                calls w' = calls w ++ [c_open path mode res].
Proof.
  unfold f_open. run_call.
  case_decide; simpl; [eauto 10|].
  pose proof (open_entry_calls path mode (with_device (tl (device w)) w)) as Hc.
  destruct (open_entry _ _ _) as [[res w0] size]. simpl in *.
  rewrite Hc. eauto 10.
Qed.

Lemma f_lseek_log fp ofs w :
  ∃ res fp' w', f_lseek fp ofs w = (Ret (res, fp'), w') ∧
                calls w' = calls w ++ [c_lseek ofs res].
Proof.
  unfold f_lseek. run_call.
  repeat (case_decide || case_match); simpl; eauto 10.
Qed.

Lemma f_write_log fp buff btw w :
  ∃ res fp' bw w', f_write fp buff btw w = (Ret (res, fp', bw), w') ∧
                   calls w' = calls w ++ [c_write btw bw res].
Proof.
  unfold f_write. run_call.
  case_decide; simpl; [eauto 10|].
  destruct (fil_valid fp); simpl; [|eauto 10].
  destruct (has_flag _ _); simpl; eauto 10.
Qed.

Lemma f_read_log fp buff btr w :
  ∃ res br w',
    calls w' = calls w ++ [c_read btr br res] ∧ (0 <= btr → 0 <= br <= btr) ∧
    (res = FR_OK ∧ f_read fp buff btr w = (Overrun, w') ∨
     ∃ fp' buff', f_read fp buff btr w = (Ret (res, fp', buff', br), w')).
Proof.
  unfold f_read, store. run_call.
  case_decide; simpl;
    [do 3 eexists; split; [|split; [|right; do 2 eexists; reflexivity]]; [done|lia]|].
  destruct (fil_valid fp); simpl;
    [|do 3 eexists; split; [|split; [|right; do 2 eexists; reflexivity]]; [done|lia]].
  destruct (has_flag _ _); simpl;
    [|do 3 eexists; split; [|split; [|right; do 2 eexists; reflexivity]]; [done|lia]].
  case_decide; simpl; do 3 eexists.
  - split; [|split; [|right; do 2 eexists; reflexivity]]; [done|lia].
  - split; [|split; [|left; split; reflexivity]]; [done|lia].
Qed.

Lemma f_close_log fp w :
  ∃ res fp' w', f_close fp w = (Ret (res, fp'), w') ∧
                calls w' = calls w ++ [c_close res].
Proof. unfold f_close. run_call. eauto 10. Qed.

Lemma f_gets_log len fp w :
  ∃ line fp' w', f_gets len fp w = (Ret (line, fp'), w') ∧
                 calls w' = calls w ++ [c_gets line].
Proof.
  unfold f_gets. run_call.
  destruct (if decide _ then _ else _) as [line used]. simpl. eauto 10.
Qed.

Lemma f_unlink_log path w :
  ∃ res w', f_unlink path w = (Ret res, w') ∧
            calls w' = calls w ++ [c_unlink path res].
Proof.
  unfold f_unlink. run_call.
  repeat (case_decide || case_match); simplify_eq; simpl; eauto 10.
Qed.

Lemma f_rename_log path_old path_new w :
  ∃ res w', f_rename path_old path_new w = (Ret res, w') ∧
            calls w' = calls w ++ [c_rename path_old path_new res].
Proof.
  unfold f_rename. run_call.
  repeat (case_decide || case_match); simplify_eq; simpl; eauto 10.
Qed.

Lemma f_mkdir_log path w :
  ∃ res w', f_mkdir path w = (Ret res, w') ∧
            calls w' = calls w ++ [c_mkdir path res].
Proof.
  unfold f_mkdir. run_call.
  repeat (case_decide || case_match); simplify_eq; simpl; eauto 10.
Qed.

(** ** What each operation returns and logs *)

Lemma sd_get_space_kb_run w :
  ∃ r w', sd_get_space_kb w = (Ret r, w') ∧ calls w' = calls w ++ [c_getfree r].
Proof.
  destruct (f_getfree_log w) as (res & n & pfs & w1 & Hg & Hc).
  unfold sd_get_space_kb. step Hg.
  exists res, w1. split; [|done].
  case_decide; [done|].
  destruct (space_kb _ _ _). unfold mret, M_ret.
  destruct (decide (res = FR_OK)); congruence.
Qed.

Lemma sd_mount_run w :
  ∃ r w' cs, sd_mount w = (Ret r, w') ∧ calls w' = calls w ++ c_mount true r :: cs ∧
             (cs = [] ∨ ∃ rg, cs = [c_getfree rg]).
Proof.
  destruct (f_mount_log true w) as (res & w1 & Hm & Hc).
  unfold sd_mount. step Hm.
  case_decide.
  - destruct (sd_get_space_kb_run w1) as (rg & w2 & Hg & Hc2). step Hg.
    subst res. exists FR_OK, w2, [c_getfree rg].
    split; [done|]. split; [chain Hc Hc2|eauto].
  - exists res, w1, []. eauto.
Qed.

Lemma sd_unmount_run w :
  ∃ r w', sd_unmount w = (Ret r, w') ∧ calls w' = calls w ++ [c_mount false r].
Proof.
  destruct (f_mount_log false w) as (res & w1 & Hm & Hc).
  unfold sd_unmount. step Hm. eauto.
Qed.

Lemma sd_delete_file_run filename w :
  ∃ r w', sd_delete_file filename w = (Ret r, w') ∧
          calls w' = calls w ++ [c_unlink filename r].
Proof.
  destruct (f_unlink_log filename w) as (res & w1 & Hm & Hc).
  unfold sd_delete_file. step Hm. eauto.
Qed.

Lemma sd_rename_file_run oldname newname w :
  ∃ r w', sd_rename_file oldname newname w = (Ret r, w') ∧
          calls w' = calls w ++ [c_rename oldname newname r].
Proof.
  destruct (f_rename_log oldname newname w) as (res & w1 & Hm & Hc).
  unfold sd_rename_file. step Hm. eauto.
Qed.

Lemma sd_create_directory_run path w :
  ∃ r w', sd_create_directory path w = (Ret r, w') ∧
          calls w' = calls w ++ [c_mkdir path r].
Proof.
  destruct (f_mkdir_log path w) as (res & w1 & Hm & Hc).
  unfold sd_create_directory. step Hm. eauto.
Qed.

(** [sd_write_file] always returns: after a failed open with its code and
    nothing else done, otherwise after a write and a close. *)
Lemma sd_write_file_run filename text w :
  let mode := Z.lor FA_CREATE_ALWAYS FA_WRITE in
  ∃ r w', sd_write_file filename text w = (Ret r, w') ∧
    ((r ≠ FR_OK ∧ calls w' = calls w ++ [c_open filename mode r]) ∨
     (∃ rw bw rc,
        calls w' = calls w ++ [c_open filename mode FR_OK;
                               c_write (strlen text) bw rw; c_close rc] ∧
        r = if decide (rw = FR_OK ∧ bw = strlen text) then FR_OK else FR_DISK_ERR)).
Proof.
  intros mode.
  destruct (f_open_log FIL_blank filename mode w) as (ro & fp & w1 & Ho & Hc1).
  unfold sd_write_file. fold mode. step Ho.
  case_decide as Hro; [exists ro, w1; eauto|].
  assert (ro = FR_OK) as -> by (by destruct (decide (ro = FR_OK))).
  destruct (f_write_log fp text (strlen text) w1) as (rw & fp2 & bw & w2 & Hw & Hc2).
  step Hw.
  destruct (f_close_log fp2 w2) as (rc & fp3 & w3 & Hcl & Hc3).
  step Hcl.
  eexists _, w3. split; [reflexivity|right].
  exists rw, bw, rc. split; [|done].
  rewrite Hc3, Hc2, Hc1, <- !app_assoc. done.
Qed.

(** [sd_append_file] always returns: after a failed open, after a failed
    seek and a close, or after seek, write and close. *)
Lemma sd_append_file_run filename text w :
  let mode := Z.lor FA_OPEN_ALWAYS FA_WRITE in
  ∃ r w', sd_append_file filename text w = (Ret r, w') ∧
    ((r ≠ FR_OK ∧ calls w' = calls w ++ [c_open filename mode r]) ∨
     (∃ ofs rc, r ≠ FR_OK ∧
        calls w' = calls w ++ [c_open filename mode FR_OK; c_lseek ofs r;
                               c_close rc]) ∨
     (∃ ofs rw bw rc,
        calls w' = calls w ++ [c_open filename mode FR_OK; c_lseek ofs FR_OK;
                               c_write (strlen text) bw rw; c_close rc] ∧
        r = if decide (rw = FR_OK ∧ bw = strlen text) then FR_OK else FR_DISK_ERR)).
Proof.
  intros mode.
  destruct (f_open_log FIL_blank filename mode w) as (ro & fp & w1 & Ho & Hc1).
  unfold sd_append_file. fold mode. step Ho.
  case_decide as Hro; [exists ro, w1; eauto|].
  assert (ro = FR_OK) as -> by (by destruct (decide (ro = FR_OK))).
  destruct (f_lseek_log fp (f_size fp) w1) as (rs & fp1 & w1' & Hs & Hc1').
  step Hs.
  case_decide as Hrs.
  - destruct (f_close_log fp1 w1') as (rc & fp3 & w3 & Hcl & Hc3).
    step Hcl. exists rs, w3. split; [done|right; left].
    exists (f_size fp), rc. split; [done|].
    rewrite Hc3, Hc1', Hc1, <- !app_assoc. done.
  - assert (rs = FR_OK) as -> by (by destruct (decide (rs = FR_OK))).
    destruct (f_write_log fp1 text (strlen text) w1') as (rw & fp2 & bw & w2 & Hw & Hc2).
    step Hw.
    destruct (f_close_log fp2 w2) as (rc & fp3 & w3 & Hcl & Hc3).
    step Hcl.
    eexists _, w3. split; [reflexivity|right; right].
    exists (f_size fp), rw, bw, rc. split; [|done].
    rewrite Hc3, Hc2, Hc1', Hc1, <- !app_assoc. done.
Qed.

Lemma wrap32_range z : 0 <= wrap32 z <= UINT_MAX.
Proof.
  unfold wrap32, UINT_MAX.
  pose proof (Z.mod_pos_bound z (2 ^ 32) ltac:(lia)). lia.
Qed.

(** [sd_read_file] returns after a failed open, after a failed read and a
    close, or after read and close; or it stores outside the buffer. *)
Lemma sd_read_file_run filename buffer bufsize w :
  let btr := wrap32 (bufsize - 1) in
  ∃ o w', sd_read_file filename buffer bufsize w = (o, w') ∧
    ((∃ r, r ≠ FR_OK ∧ o = Ret (r, buffer, 0) ∧
           calls w' = calls w ++ [c_open filename FA_READ r]) ∨
     (∃ r br rc buffer', r ≠ FR_OK ∧ o = Ret (r, buffer', br) ∧ 0 <= br <= btr ∧
        calls w' = calls w ++ [c_open filename FA_READ FR_OK; c_read btr br r;
                               c_close rc]) ∨
     (∃ br rc buffer', o = Ret (rc, buffer', br) ∧ 0 <= br <= btr ∧
        calls w' = calls w ++ [c_open filename FA_READ FR_OK;
                               c_read btr br FR_OK; c_close rc]) ∨
     (∃ br, o = Overrun ∧ 0 <= br <= btr ∧
        calls w' = calls w ++ [c_open filename FA_READ FR_OK; c_read btr br FR_OK])).
Proof.
  intros btr.
  destruct (f_open_log FIL_blank filename FA_READ w) as (ro & fp & w1 & Ho & Hc1).
  unfold sd_read_file. fold btr. step Ho.
  case_decide as Hro; [exists (Ret (ro, buffer, 0)), w1; eauto 10|].
  assert (ro = FR_OK) as -> by (by destruct (decide (ro = FR_OK))).
  destruct (f_read_log fp buffer btr w1)
    as (rr & br & w2 & Hc2 & Hbr & [[-> Hr]|(fp2 & buf2 & Hr)]).
  all: specialize (Hbr (proj1 (wrap32_range _))).
  { rewrite (bind_overrun _ _ _ _ Hr).
    exists Overrun, w2. split; [done|]. do 3 right. exists br.
    split; [done|]. split; [done|].
    rewrite Hc2, Hc1, <- !app_assoc. done. }
  step Hr.
  case_decide as Hrr.
  - destruct (f_close_log fp2 w2) as (rc & fp3 & w3 & Hcl & Hc3).
    step Hcl. eexists _, w3. split; [reflexivity|right; left].
    exists rr, br, rc, buf2. split; [done|]. split; [done|]. split; [done|].
    rewrite Hc3, Hc2, Hc1, <- !app_assoc. done.
  - assert (rr = FR_OK) as -> by (by destruct (decide (rr = FR_OK))).
    unfold lift at 1.
    destruct (poke buf2 br NUL) as [buf3| |] eqn:Hp.
    + rewrite (bind_run _ _ (w2) buf3 w2) by done. cbn beta iota.
      destruct (f_close_log fp2 w2) as (rc & fp3 & w3 & Hcl & Hc3).
      step Hcl. exists (Ret (rc, buf3, br)), w3.
      split; [by case_decide; subst|]. right; right; left.
      exists br, rc, buf3. split; [done|]. split; [done|].
      rewrite Hc3, Hc2, Hc1, <- !app_assoc. done.
    + rewrite (bind_overrun _ _ w2 w2) by done.
      exists Overrun, w2. split; [done|]. do 3 right. exists br.
      split; [done|]. split; [done|].
      rewrite Hc2, Hc1, <- !app_assoc. done.
    + unfold poke in Hp. case_decide; done.
Qed.

Lemma read_csv_loop_log fuel file records record_count max_records w :
  ∃ o w' cs, read_csv_loop fuel file records record_count max_records w = (o, w') ∧
             calls w' = calls w ++ cs ∧ Forall (λ c, ∃ l, c = c_gets l) cs.
Proof.
  revert file records record_count w.
  induction fuel as [|fuel IH]; intros file records record_count w; simpl.
  { exists OutOfFuel, w, []. rewrite app_nil_r. done. }
  destruct (f_gets_log 128 file w) as (line & fp & w1 & Hg & Hc).
  step Hg.
  assert (Forall (λ c, ∃ l, c = c_gets l) [c_gets line]) as Hone by eauto.
  destruct line as [line|]; [|exists (Ret (fp, records, record_count)), w1; eauto].
  case_decide; [|eexists _, w1; eauto].
  unfold lift at 1.
  destruct (read_csv_line line records record_count) as [[recs n]| |].
  - rewrite (bind_run _ _ w1 (recs, n) w1) by done. cbn beta iota.
    destruct (IH fp recs n w1) as (o & w2 & cs & Hl & Hc2 & Hall).
    exists o, w2, (c_gets (Some line) :: cs). split; [done|]. split.
    + rewrite Hc2, Hc, <- app_assoc. done.
    + by constructor; eauto.
  - rewrite (bind_overrun _ _ w1 w1) by done. exists Overrun, w1; eauto.
  - rewrite (bind_out_of_fuel _ _ w1 w1) by done. exists OutOfFuel, w1; eauto.
Qed.

Lemma sd_read_csv_run filename records max_records w :
  ∃ o w', sd_read_csv filename records max_records w = (o, w') ∧
    ((∃ r, r ≠ FR_OK ∧ o = Ret (r, records, 0) ∧
           calls w' = calls w ++ [c_open filename FA_READ r]) ∨
     (∃ cs, (∀ a, o ≠ Ret a) ∧
        calls w' = calls w ++ c_open filename FA_READ FR_OK :: cs ∧
        Forall (λ c, ∃ l, c = c_gets l) cs) ∨
     (∃ cs rc records' n, o = Ret (FR_OK, records', n) ∧
        calls w' = calls w ++ c_open filename FA_READ FR_OK :: cs ++ [c_close rc] ∧
        Forall (λ c, ∃ l, c = c_gets l) cs)).
Proof.
  destruct (f_open_log FIL_blank filename FA_READ w) as (ro & fp & w1 & Ho & Hc1).
  unfold sd_read_csv. step Ho.
  case_decide as Hro; [exists (Ret (ro, records, 0)), w1; eauto 10|].
  assert (ro = FR_OK) as -> by (by destruct (decide (ro = FR_OK))).
  destruct (read_csv_loop_log (S (objsize fp)) fp records 0 max_records w1)
    as (o & w2 & cs & Hl & Hc2 & Hall).
  destruct o as [[[fp2 recs] n]| |].
  - step Hl.
    destruct (f_close_log fp2 w2) as (rc & fp3 & w3 & Hcl & Hc3).
    step Hcl. eexists _, w3. split; [reflexivity|right; right].
    exists cs, rc, recs, n. split; [done|]. split; [|done].
    rewrite Hc3, Hc2, Hc1, <- !app_assoc. done.
  - rewrite (bind_overrun _ _ _ _ Hl). exists Overrun, w2. split; [done|right; left].
    exists cs. split; [done|]. split; [|done].
    rewrite Hc2, Hc1, <- !app_assoc. done.
  - rewrite (bind_out_of_fuel _ _ _ _ Hl). exists OutOfFuel, w2. split; [done|right; left].
    exists cs. split; [done|]. split; [|done].
    rewrite Hc2, Hc1, <- !app_assoc. done.
Qed.

(** ** The codes the operations return *)

Lemma first_failure_gets view cs :
  (∀ l, view (c_gets l) = FR_OK) →
  Forall (λ c, ∃ l, c = c_gets l) cs → first_failure view cs = FR_OK.
Proof.
  intros Hv. induction 1 as [|c cs [l ->] _ IH]; simpl; [done|].
  rewrite Hv. by case_decide.
Qed.

Lemma first_failure_app_ok view cs cs' :
  first_failure view cs = FR_OK →
  first_failure view (cs ++ cs') = first_failure view cs'.
Proof.
  induction cs as [|c cs IH]; simpl; [done|].
  case_decide; [done|]. intros; congruence.
Qed.

Lemma returned_checked op w r w' :
  returned op w = (Ret r, w') →
  r = first_failure (checked_view op) (since w w').
Proof.
  destruct op; simpl.
  - destruct (sd_get_space_kb_run w) as (r0 & w0 & -> & Hc).
    intros [= -> ->]. rewrite (since_app _ _ _ Hc). simpl. by case_decide.
  - destruct (sd_mount_run w) as (r0 & w0 & cs & -> & Hc & Hcs).
    intros [= -> ->]. rewrite (since_app _ _ _ Hc). simpl.
    case_decide as Hr; [|done].
    destruct Hcs as [->|[rg ->]]; simpl; done.
  - destruct (sd_unmount_run w) as (r0 & w0 & -> & Hc).
    intros [= -> ->]. rewrite (since_app _ _ _ Hc). simpl. by case_decide.
  - destruct (sd_write_file_run filename text w)
      as (r0 & w0 & -> & [[Hr Hc]|(rw & bw & rc & Hc & Hr)]);
      intros [= -> ->]; rewrite (since_app _ _ _ Hc); simpl.
    + by case_decide.
    + rewrite Hr. by repeat case_decide.
  - destruct (sd_append_file_run filename text w)
      as (r0 & w0 & -> & [[Hr Hc]|[(ofs & rc & Hr & Hc)|(ofs & rw & bw & rc & Hc & Hr)]]);
      intros [= -> ->]; rewrite (since_app _ _ _ Hc); simpl.
    + by case_decide.
    + by case_decide.
    + rewrite Hr. by repeat case_decide.
  - destruct (sd_read_file_run filename buffer bufsize w)
      as (o & w0 & Hrun &
          [(r0 & Hr & -> & Hc)|[(r0 & br & rc & b' & Hr & -> & _ & Hc)|
           [(br & rc & b' & -> & _ & Hc)|(br & -> & _ & Hc)]]]);
      unfold mbind, M_bind; rewrite Hrun; simpl; [| | |done];
      intros [= -> ->]; rewrite (since_app _ _ _ Hc); simpl.
    + by case_decide.
    + by case_decide.
    + by case_decide.
  - destruct (sd_read_csv_run filename records max_records w)
      as (o & w0 & Hrun &
          [(r0 & Hr & -> & Hc)|[(cs & Ho & Hc & Hall)|
           (cs & rc & recs & n & -> & Hc & Hall)]]);
      unfold mbind, M_bind; rewrite Hrun; simpl.
    + intros [= -> ->]. rewrite (since_app _ _ _ Hc). simpl. by case_decide.
    + destruct o as [a| |]; [by destruct (Ho a)|done|done].
    + intros [= <- ->]. rewrite (since_app _ _ _ Hc). simpl.
      rewrite first_failure_app_ok by (by apply first_failure_gets). done.
  - destruct (sd_delete_file_run filename w) as (r0 & w0 & -> & Hc).
    intros [= -> ->]. rewrite (since_app _ _ _ Hc). simpl. by case_decide.
  - destruct (sd_rename_file_run oldname newname w) as (r0 & w0 & -> & Hc).
    intros [= -> ->]. rewrite (since_app _ _ _ Hc). simpl. by case_decide.
  - destruct (sd_create_directory_run path w) as (r0 & w0 & -> & Hc).
    intros [= -> ->]. rewrite (since_app _ _ _ Hc). simpl. by case_decide.
Qed.

Lemma open_entry_read_ok path w wv size :
  open_entry path FA_READ w = (FR_OK, wv, size) →
  wv = w ∧ mounted w = true ∧ (path ∉ dirs w) ∧
  ∃ content, files w !! path = Some content ∧ size = length content.
Proof.
  unfold open_entry. change (has_flag FA_READ _) with false. cbn match.
  destruct (mounted w); simpl; [|done].
  case_decide; [done|].
  destruct (files w !! path) as [content|]; [|done].
  intros [= <- <-]. eauto 10.
Qed.


(** ** Reading and writing a file *)

Lemma healthy_hd d :
  Forall (λ f, fault_code f = FR_OK) d → fault_code (hd Healthy d) = FR_OK.
Proof. by destruct 1. Qed.

Lemma healthy_tl d :
  Forall (λ f, fault_code f = FR_OK) d → Forall (λ f, fault_code f = FR_OK) (tl d).
Proof. by destruct 1. Qed.

Lemma open_entry_read path w content :
  mounted w = true → path ∉ dirs w → files w !! path = Some content →
  open_entry path FA_READ w = (FR_OK, w, length content).
Proof.
  intros Hm Hd Hf. unfold open_entry. rewrite Hm, Hf. simpl.
  rewrite decide_False by done. done.
Qed.

Lemma sd_read_file_healthy filename buffer bufsize w content :
  mounted w = true → filename ∉ dirs w → files w !! filename = Some content →
  healthy w →
  let br := Z.min (wrap32 (bufsize - 1)) (Z.of_nat (length content)) in
  ∃ w', sd_read_file filename buffer bufsize w =
          (b ← store buffer (take (Z.to_nat br) content);
           b ← poke b br NUL; mret (FR_OK, b, br), w').
Proof.
  intros Hm Hd Hf Hh br. unfold healthy in Hh.
  unfold sd_read_file, f_open, f_read, f_close. run_call.
  rewrite (healthy_hd _ Hh). simpl.
  rewrite (open_entry_read _ _ content) by done. simpl.
  rewrite (healthy_hd _ (healthy_tl _ Hh)). simpl.
  rewrite Hf. simpl. rewrite drop_0. fold br.
  destruct (store buffer _) as [b| |]; simpl; [|by eexists..].
  destruct (poke b br NUL) as [b2| |]; simpl; [|by eexists..].
  rewrite (healthy_hd _ (healthy_tl _ (healthy_tl _ Hh))). simpl.
  by eexists.
Qed.

Lemma sd_read_file_ok filename buffer bufsize w b' br w' :
  sd_read_file filename buffer bufsize w = (Ret (FR_OK, b', br), w') →
  ∃ content,
    files w !! filename = Some content ∧
    br = Z.min (wrap32 (bufsize - 1)) (Z.of_nat (length content)) ∧
    (store buffer (take (Z.to_nat br) content) ≫= λ b, poke b br NUL) = Ret b'.
Proof.
  unfold sd_read_file, f_open, f_read, f_close. run_call.
  case_decide as Hf1; simpl. { case_decide; [|done]. intros; simplify_eq. }
  destruct (open_entry _ _ _) as [[ro wv] size] eqn:Hopen. simpl.
  case_decide as Hro; [intros; simplify_eq|].
  assert (ro = FR_OK) as -> by (by destruct (decide (ro = FR_OK))).
  apply open_entry_read_ok in Hopen as (-> & Hm & Hd & content & Hfile & ->).
  simpl in *.
  case_decide as Hf2; simpl.
  { rewrite decide_True by done. intros; simplify_eq. }
  rewrite Hfile. simpl. rewrite drop_0.
  destruct (store buffer _) as [b| |] eqn:Hst; simpl; [|intros; simplify_eq..].
  destruct (poke b _ NUL) as [b2| |] eqn:Hp; simpl; [|intros; simplify_eq..].
  destruct (decide (fault_code (hd Healthy (tail (tail (device w)))) ≠ FR_OK))
    as [Hf3|Hf3]; simpl.
  { rewrite decide_True by done. intros; simplify_eq. }
  intros [= <- <- <-]. exists content. split; [done|]. split; [done|].
  rewrite Hst. simpl. done.
Qed.

(** ** C strings *)

Lemma take_cstr s : take (length (cstr s)) s = cstr s.
Proof.
  induction s as [|c s IH]; simpl; [done|].
  case_decide; simpl; [done|]. by rewrite IH.
Qed.

Lemma cstr_no_NUL s : NUL ∉ cstr s.
Proof.
  induction s as [|c s IH]; simpl; [apply not_elem_of_nil|].
  case_decide; [apply not_elem_of_nil|].
  apply not_elem_of_cons. split; [congruence|done].
Qed.

Lemma cstr_app_NUL l r : NUL ∉ l → cstr (l ++ NUL :: r) = l.
Proof.
  induction l as [|c l IH]; simpl; intros Hl.
  - done.
  - apply not_elem_of_cons in Hl as [Hc Hl].
    rewrite decide_False by congruence. by rewrite IH.
Qed.

Lemma take_strlen s : take (Z.to_nat (strlen s)) s = cstr s.
Proof. unfold strlen. rewrite Nat2Z.id. apply take_cstr. Qed.

Lemma strlen_nonneg s : 0 <= strlen s.
Proof. unfold strlen. lia. Qed.

Lemma wrap32_small z : 0 <= z <= UINT_MAX → wrap32 z = z.
Proof. unfold wrap32, UINT_MAX. intros. apply Z.mod_small. lia. Qed.

Lemma open_entry_create_ok path w wv size :
  open_entry path (Z.lor FA_CREATE_ALWAYS FA_WRITE) w = (FR_OK, wv, size) →
  mounted w = true ∧ (path ∉ dirs w) ∧
  wv = with_files (<[path := []]> (files w)) w ∧ size = 0%nat.
Proof.
  unfold open_entry.
  change (has_flag (Z.lor FA_CREATE_ALWAYS FA_WRITE)
            (Z.lor FA_CREATE_ALWAYS (Z.lor FA_OPEN_ALWAYS FA_CREATE_NEW))) with true.
  change (has_flag (Z.lor FA_CREATE_ALWAYS FA_WRITE) FA_CREATE_NEW) with false.
  change (has_flag (Z.lor FA_CREATE_ALWAYS FA_WRITE) FA_CREATE_ALWAYS) with true.
  cbn match.
  destruct (mounted w); simpl; [|done].
  case_decide; [done|].
  destruct (files w !! path) as [content|]; intros [= <- <-]; done.
Qed.

Lemma sd_write_file_ok filename text w w' :
  sd_write_file filename text w = (Ret FR_OK, w') →
  mounted w' = true ∧ (filename ∉ dirs w') ∧
  files w' !! filename = Some (cstr text) ∧
  device w' = tl (tl (tl (device w))).
Proof.
  unfold sd_write_file, f_open, f_write, f_close. run_call.
  case_decide as Hf1; simpl. { case_decide; [|done]. intros; simplify_eq. }
  destruct (open_entry _ _ _) as [[ro wv] size] eqn:Hopen. simpl.
  case_decide as Hro; [intros; simplify_eq|].
  assert (ro = FR_OK) as -> by (by destruct (decide (ro = FR_OK))).
  apply open_entry_create_ok in Hopen as (Hm & Hd & -> & ->).
  simpl in *.
  case_decide as Hf2; simpl.
  { rewrite decide_False by tauto. intros; simplify_eq. }
  change (has_flag (Z.lor FA_CREATE_ALWAYS FA_WRITE) FA_WRITE) with true. simpl.
  case_decide as Hbw; [|intros; simplify_eq].
  destruct Hbw as [_ ->]. intros [= <-]. simpl.
  rewrite lookup_insert_eq. simpl. rewrite take_strlen.
  split; [done|]. split; [done|]. split; [|done].
  rewrite lookup_insert_eq. unfold mem_write. simpl.
  by rewrite drop_nil, app_nil_r.
Qed.

(** ** Parsing CSV lines *)

Lemma update_record_in records n f old :
  0 <= n → records !! Z.to_nat n = Some old →
  update_record records n f = Ret (<[Z.to_nat n := f old]> records).
Proof.
  intros Hn Hold. unfold update_record.
  rewrite decide_True by done. by rewrite Hold.
Qed.

Lemma update_record_out records n f :
  n < 0 ∨ records !! Z.to_nat n = None →
  update_record records n f = Overrun.
Proof.
  intros Hn. unfold update_record.
  case_decide; [|done]. destruct Hn as [?| Hn]; [lia|by rewrite Hn].
Qed.

Lemma read_csv_line_in line records n old :
  0 <= n → records !! Z.to_nat n = Some old →
  read_csv_line line records n =
    Ret (<[Z.to_nat n := line_record line old]> records,
         if counted line then n + 1 else n).
Proof.
  intros Hn Hold.
  unfold read_csv_line, line_record, counted, first_token, second_token, third_token.
  unfold mbind, outcome_bind, mret, outcome_ret.
  destruct (strtok (Some line) _ _) as [[t1|] sv1]; cbn [fst].
  2:{ by rewrite list_insert_id. }
  rewrite (update_record_in _ _ _ old) by done.
  destruct (strtok None _ sv1) as [[t2|] sv2]; cbn [fst]; [|done].
  assert (Z.to_nat n < length records)%nat as Hlt by (by eapply lookup_lt_Some).
  rewrite (update_record_in _ n _ (set_field1 (strncpy (field1 old) t1 FIELD_SIZE) old))
    by (done || by apply list_lookup_insert_eq).
  destruct (strtok None _ sv2) as [t3 sv3]; cbn [fst].
  rewrite (update_record_in _ n _
             (set_field2 (strncpy (field2 old) t2 FIELD_SIZE)
                (set_field1 (strncpy (field1 old) t1 FIELD_SIZE) old)))
    by (done || by apply list_lookup_insert_eq; rewrite length_insert).
  by rewrite !list_insert_insert_eq.
Qed.

Lemma read_csv_line_out line records n :
  n < 0 ∨ records !! Z.to_nat n = None →
  read_csv_line line records n =
    match first_token line with Some _ => Overrun | None => Ret (records, n) end.
Proof.
  intros Hn. unfold read_csv_line, first_token.
  unfold mbind, outcome_bind, mret, outcome_ret.
  destruct (strtok (Some line) _ _) as [[t1|] sv1]; cbn [fst]; [|done].
  by rewrite update_record_out.
Qed.

Lemma strncpy_length dst src n :
  length (strncpy dst src n) = Nat.max n (length dst).
Proof.
  unfold strncpy. rewrite !length_app, length_take, length_replicate, length_drop. lia.
Qed.

Lemma strncpy_strncpy dst a b n :
  strncpy (strncpy dst a n) b n = strncpy dst b n.
Proof.
  unfold strncpy at 1 3. f_equal.
  unfold strncpy. rewrite drop_app_length'; [done|].
  rewrite length_app, length_take, length_replicate. lia.
Qed.

Lemma line_record_absorb l l' old :
  counted l = false → counted l' = true →
  line_record l' (line_record l old) = line_record l' old.
Proof.
  unfold counted, line_record, first_token, second_token, third_token.
  destruct (strtok (Some l') _ _) as [[t1'|] sv1']; cbn [fst]; [|done].
  destruct (strtok None _ sv1') as [[t2'|] sv2']; cbn [fst]; [|done].
  destruct (strtok (Some l) _ _) as [[t1|] sv1]; cbn [fst]; [|done].
  destruct (strtok None _ sv1) as [[t2|] sv2]; cbn [fst]; [done|].
  intros _ _. unfold set_value, set_field2, set_field1. simpl.
  by rewrite strncpy_strncpy.
Qed.

Lemma parse_lines_spec ls records n max_records :
  0 <= n → max_records <= Z.of_nat (length records) →
  let n' := Z.min (Z.max n max_records)
              (n + Z.of_nat (length (filter (λ l, counted l) ls))) in
  ∃ records',
    parse_lines ls records n max_records = Ret (records', n') ∧
    length records' = length records ∧
    (∀ i, (i < Z.to_nat n)%nat → records' !! i = records !! i) ∧
    (∀ k l, filter (λ l, counted l) ls !! k = Some l →
            n + Z.of_nat k < n' →
            records' !! (Z.to_nat n + k)%nat
              = line_record l <$> records !! (Z.to_nat n + k)%nat).
Proof.
  revert records n. induction ls as [|l ls IH]; intros records n Hn Hmax; simpl.
  { exists records. split; [f_equal; f_equal; lia|]. split; [done|]. split; [done|].
    intros k l Hk. done. }
  case_decide as Hlt.
  2:{ exists records. split; [f_equal; f_equal; lia|]. split; [done|].
      split; [done|]. intros k l' _ Hk. lia. }
  destruct (lookup_lt_is_Some_2 records (Z.to_nat n)) as [old Hold]; [lia|].
  rewrite (read_csv_line_in _ _ _ old) by done. cbn [mbind outcome_bind].
  cbn beta iota.
  set (records1 := <[Z.to_nat n := line_record l old]> records).
  assert (length records1 = length records) as Hlen1 by apply length_insert.
  destruct (counted l) eqn:Hc.
  - rewrite filter_cons_True by (by rewrite Hc). simpl length.
    destruct (IH records1 (n + 1)) as (records' & Hrun & Hlen & Ha & Hb);
      [lia|lia|].
    exists records'. split; [rewrite Hrun; f_equal; f_equal; lia|].
    split; [congruence|]. split.
    + intros i Hi. rewrite Ha by lia. apply list_lookup_insert_ne. lia.
    + intros k l' Hk Hkn. destruct k as [|k]; simpl in Hk.
      * simplify_eq. rewrite Nat.add_0_r, Ha by lia.
        unfold records1. rewrite list_lookup_insert_eq by lia. by rewrite Hold.
      * replace (Z.to_nat n + S k)%nat with (Z.to_nat (n + 1) + k)%nat by lia.
        rewrite (Hb k l' Hk) by lia. f_equal.
        apply list_lookup_insert_ne. lia.
  - rewrite filter_cons_False by (rewrite Hc; simpl; tauto).
    destruct (IH records1 n) as (records' & Hrun & Hlen & Ha & Hb); [lia|lia|].
    exists records'. split; [done|]. split; [congruence|]. split.
    + intros i Hi. rewrite Ha by lia. apply list_lookup_insert_ne. lia.
    + intros k l' Hk Hkn. rewrite (Hb k l' Hk) by lia.
      destruct k as [|k].
      * rewrite Nat.add_0_r. unfold records1.
        rewrite list_lookup_insert_eq by lia. rewrite Hold. simpl. f_equal.
        apply line_record_absorb; [done|].
        apply list_elem_of_lookup_2 in Hk. apply list_elem_of_filter in Hk as [Hk _].
        by destruct (counted l').
      * f_equal. apply list_lookup_insert_ne. lia.
Qed.

Lemma gets_scan_used strip_cr room rest line used :
  gets_scan strip_cr room rest = (line, used) →
  (used ≤ length rest)%nat ∧ (line ≠ [] → 1 ≤ used)%nat.
Proof.
  revert room line used.
  induction rest as [|c rest IH]; intros room line used; simpl.
  { intros [= <- <-]. split; [done|]. done. }
  destruct room as [|room]. { intros [= <- <-]. split; [lia|done]. }
  destruct (strip_cr && bool_decide (c = CR)).
  { destruct (gets_scan strip_cr (S room) rest) as [l k] eqn:Hs.
    intros [= <- <-]. destruct (IH _ _ _ Hs). split; [lia|lia]. }
  case_bool_decide.
  { intros [= <- <-]. split; lia. }
  destruct (gets_scan strip_cr room rest) as [l k] eqn:Hs.
  intros [= <- <-]. destruct (IH _ _ _ Hs). split; lia.
Qed.

Lemma f_gets_any len fp w :
  ∃ line fp' w',
    f_gets len fp w = (Ret (line, fp'), w') ∧
    files w' = files w ∧ fil_name fp' = fil_name fp ∧
    (is_Some line → (length (unread fp' w') < length (unread fp w))%nat).
Proof.
  unfold f_gets. run_call.
  destruct (if decide _ then _ else _) as [line used] eqn:Hscan. simpl.
  eexists _, _, _. split; [done|]. simpl. split; [done|]. split; [done|].
  intros Hsome. destruct line as [|c line]; [by destruct Hsome|].
  case_decide; [done|]. destruct (negb _); [done|].
  apply gets_scan_used in Hscan as [Hle Hpos].
  unfold unread. simpl. rewrite !length_drop in *.
  specialize (Hpos ltac:(done)). lia.
Qed.

Lemma f_gets_healthy len fp w :
  fil_valid fp = true → has_flag (fil_flag fp) FA_READ = true → healthy w →
  let scan := gets_scan (bool_decide (USE_STRFUNC w = 2)) (Z.to_nat (len - 1))
                (unread fp w) in
  ∃ w',
    f_gets len fp w
      = (Ret (match scan.1 with [] => None | _ => Some scan.1 end,
              FIL_move fp (fptr fp + scan.2)), w') ∧
    files w' = files w ∧ USE_STRFUNC w' = USE_STRFUNC w ∧ healthy w'.
Proof.
  intros Hv Hr Hh. unfold healthy in *. unfold f_gets. run_call.
  rewrite (healthy_hd _ Hh), Hv, Hr. simpl. fold (unread fp w).
  destruct (gets_scan _ _ _) as [line used]. simpl.
  eexists. split; [done|]. simpl. split; [done|]. split; [done|].
  by apply healthy_tl.
Qed.

Lemma read_csv_loop_healthy fuel fp records n max_records w :
  fil_valid fp = true → has_flag (fil_flag fp) FA_READ = true → healthy w →
  (length (unread fp w) < fuel)%nat →
  loop_result (read_csv_loop fuel fp records n max_records w).1
    = parse_lines (lines_from (bool_decide (USE_STRFUNC w = 2)) fuel (unread fp w))
        records n max_records.
Proof.
  revert fp records n w.
  induction fuel as [|fuel IH]; intros fp records n w Hv Hr Hh Hfuel; [lia|].
  simpl.
  destruct (f_gets_healthy 128 fp w Hv Hr Hh) as (w1 & Hg & Hfiles & Hstr & Hh1).
  change (Z.to_nat (128 - 1)) with 127%nat in Hg.
  destruct (gets_scan _ 127 _) as [line used] eqn:Hscan. simpl in Hg.
  step Hg.
  destruct line as [|c line]; [done|]. simpl.
  destruct (decide (n < max_records)); [|reflexivity].
  unfold lift at 1.
  destruct (read_csv_line (c :: line) records n) as [[recs n1]| |] eqn:Hline; cbn.
  - rewrite (bind_run _ _ w1 (recs, n1) w1) by done. cbn beta iota.
    assert (unread (FIL_move fp (fptr fp + used)) w1 = drop used (unread fp w))
      as Hrest.
    { unfold unread. simpl. rewrite Hfiles. by rewrite drop_drop. }
    rewrite IH; [|done|done|done|].
    + by rewrite Hstr, Hrest.
    + rewrite Hrest, length_drop.
      apply gets_scan_used in Hscan as [Hle Hpos].
      specialize (Hpos ltac:(done)). lia.
  - by rewrite (bind_overrun _ _ w1 w1).
  - by rewrite (bind_out_of_fuel _ _ w1 w1).
Qed.

Lemma f_open_read_healthy fp filename w content :
  mounted w = true → filename ∉ dirs w → files w !! filename = Some content →
  healthy w →
  ∃ w', f_open fp filename FA_READ w
          = (Ret (FR_OK, mkFIL true filename FA_READ 0 (length content)), w') ∧
        files w' = files w ∧ USE_STRFUNC w' = USE_STRFUNC w ∧ healthy w'.
Proof.
  intros Hm Hd Hf Hh. unfold healthy in *. unfold f_open. run_call.
  rewrite (healthy_hd _ Hh). simpl.
  rewrite (open_entry_read _ _ content) by done. simpl.
  eexists. split; [done|]. simpl. split; [done|]. split; [done|].
  by apply healthy_tl.
Qed.

Lemma f_open_read_ok fp filename w fp' w' :
  f_open fp filename FA_READ w = (Ret (FR_OK, fp'), w') →
  ∃ content, files w !! filename = Some content ∧
             fp' = mkFIL true filename FA_READ 0 (length content) ∧
             files w' = files w.
Proof.
  unfold f_open. run_call.
  case_decide as Hf1; simpl. { intros; simplify_eq. }
  destruct (open_entry _ _ _) as [[ro wv] size] eqn:Hopen. simpl.
  intros [= -> <- <-]. simpl.
  apply open_entry_read_ok in Hopen as (-> & Hm & Hd & content & Hfile & ->).
  eauto.
Qed.

Lemma sd_read_csv_healthy filename records max_records w content :
  mounted w = true → filename ∉ dirs w → files w !! filename = Some content →
  healthy w →
  (sd_read_csv filename records max_records w).1
    = ('(records', n) ← parse_lines (file_lines w filename) records 0 max_records;
       Ret (FR_OK, records', n)).
Proof.
  intros Hm Hd Hf Hh.
  destruct (f_open_read_healthy FIL_blank filename w content Hm Hd Hf Hh)
    as (w1 & Ho & Hfiles & Hstr & Hh1).
  unfold sd_read_csv. step Ho. cbn [objsize].
  unfold file_lines. rewrite Hf.
  change (default [] (Some content)) with content.
  pose proof (read_csv_loop_healthy (S (length content))
                (mkFIL true filename FA_READ 0 (length content))
                records 0 max_records w1 eq_refl eq_refl Hh1) as Hloop.
  unfold unread in Hloop. cbn [fptr fil_name] in Hloop.
  rewrite Hfiles, Hf, Hstr in Hloop.
  change (default [] (Some content)) with content in Hloop.
  rewrite drop_0 in Hloop. rewrite <- Hloop by lia. clear Hloop.
  destruct (decide (FR_OK ≠ FR_OK)) as [|_]; [done|].
  destruct (read_csv_loop _ _ _ _ _ _) as [[[[fp2 recs] n]| |] w2] eqn:Hrun.
  - step Hrun.
    destruct (f_close_log fp2 w2) as (rc & fp3 & w3 & Hcl & _). step Hcl. done.
  - by rewrite (bind_overrun _ _ _ _ Hrun).
  - by rewrite (bind_out_of_fuel _ _ _ _ Hrun).
Qed.

(** In any world: the loop stores inside the first [max_records] records
    only, and does not run out of turns. *)
Lemma read_csv_loop_safe fuel fp records n max_records w :
  0 <= n → (length (unread fp w) < fuel)%nat →
  match (read_csv_loop fuel fp records n max_records w).1 with
  | Ret (_, records', n') =>
      length records' = length records ∧ n <= n' <= Z.max n max_records ∧
      ∀ i, max_records <= Z.of_nat i → records' !! i = records !! i
  | Overrun => Z.of_nat (length records) < max_records
  | OutOfFuel => False
  end.
Proof.
  revert fp records n w.
  induction fuel as [|fuel IH]; intros fp records n w Hn Hfuel; [lia|].
  simpl.
  destruct (f_gets_any 128 fp w) as (line & fp1 & w1 & Hg & Hfiles & Hname & Hless).
  step Hg.
  destruct line as [line|]; [|simpl; split; [done|split; [lia|done]]].
  specialize (Hless ltac:(done)).
  case_decide as Hlt; [|simpl; split; [done|split; [lia|done]]].
  unfold lift at 1.
  destruct (records !! Z.to_nat n) as [old|] eqn:Hold.
  - rewrite (read_csv_line_in _ _ _ old) by done.
    rewrite (bind_run _ _ w1 _ w1) by done. cbn beta iota.
    specialize (IH fp1 (<[Z.to_nat n := line_record line old]> records)
                  (if counted line then n + 1 else n) w1).
    destruct (read_csv_loop _ _ _ _ _ _).1 as [[[fp2 recs] n2]| |].
    + destruct IH as (Hlen & Hn2 & Hout); [by destruct (counted line); lia|lia|].
      rewrite length_insert in Hlen. split; [done|].
      split; [destruct (counted line); lia|].
      intros i Hi. rewrite Hout by done. apply list_lookup_insert_ne. lia.
    + rewrite length_insert in IH. apply IH; [by destruct (counted line); lia|lia].
    + apply IH; [by destruct (counted line); lia|lia].
  - rewrite read_csv_line_out by eauto.
    apply lookup_ge_None in Hold.
    destruct (first_token line).
    + rewrite (bind_overrun _ _ w1 w1) by done. simpl. lia.
    + rewrite (bind_run _ _ w1 _ w1) by done. cbn beta iota.
      specialize (IH fp1 records n w1 Hn ltac:(lia)).
      destruct (read_csv_loop _ _ _ _ _ _).1 as [[[fp2 recs] n2]| |]; done.
Qed.

(** ** Memory and copies *)

Lemma store_ret mem data b :
  store mem data = Ret b →
  (length data ≤ length mem)%nat ∧ b = data ++ drop (length data) mem.
Proof. unfold store. case_decide; [|done]. by intros [= <-]. Qed.

Lemma poke_ret mem i c b :
  poke mem i c = Ret b →
  0 <= i < Z.of_nat (length mem) ∧ b = <[Z.to_nat i := c]> mem.
Proof. unfold poke. case_decide; [|done]. by intros [= <-]. Qed.

Lemma strncpy_long dst src n :
  (n ≤ length (cstr src))%nat → (n ≤ length dst)%nat →
  take n (strncpy dst src n) = take n (cstr src) ∧
  NUL ∉ take n (strncpy dst src n).
Proof.
  intros Hsrc Hdst. unfold strncpy.
  replace (n - length (cstr src))%nat with 0%nat by lia. simpl.
  rewrite app_nil_r.
  rewrite take_app_le by (rewrite length_take; lia).
  rewrite take_take, Nat.min_id. split; [done|].
  intros Hin. apply elem_of_take in Hin as (i & Hi & _).
  apply list_elem_of_lookup_2 in Hi. by apply cstr_no_NUL in Hi.
Qed.

Lemma strncpy_short dst src n :
  (length (cstr src) < n)%nat →
  take (length (cstr src)) (strncpy dst src n) = cstr src ∧
  strncpy dst src n !! length (cstr src) = Some NUL.
Proof.
  intros Hsrc. unfold strncpy.
  rewrite (take_ge (cstr src) n) by lia. rewrite <- app_assoc. split.
  - by rewrite take_app_length.
  - rewrite lookup_app_r by lia. rewrite Nat.sub_diag.
    destruct (n - length (cstr src))%nat eqn:Hn; [lia|]. done.
Qed.

Lemma strncpy_copy_of dst token :
  length dst = FIELD_SIZE → copy_of token (strncpy dst token FIELD_SIZE).
Proof.
  intros Hdst. unfold copy_of.
  assert (strncpy dst token FIELD_SIZE
          = take FIELD_SIZE (cstr token)
              ++ replicate (FIELD_SIZE - length (cstr token)) NUL) as Heq.
  { unfold strncpy. rewrite drop_ge by lia. by rewrite app_nil_r. }
  split; [rewrite strncpy_length; lia|]. split; [done|]. split.
  - intros Hlong.
    destruct (strncpy_long dst token FIELD_SIZE) as [_ Hno]; [done|lia|].
    rewrite take_ge in Hno by (rewrite strncpy_length; lia). done.
  - intros Hshort. by apply strncpy_short.
Qed.

Lemma line_record_value line old :
  counted line = true →
  value (line_record line old)
    = match third_token line with Some t => atoi t | None => 0 end.
Proof.
  unfold counted, line_record, first_token, second_token, third_token.
  destruct (strtok (Some line) _ _) as [[t1|] sv1]; cbn [fst]; [|done].
  destruct (strtok None _ sv1) as [[t2|] sv2]; cbn [fst]; [|done].
  done.
Qed.

(** * The claims of the specification *)

(** ** C1: which code an operation returns *)

(** C1, as stated, fails on [sd_write_file]: the card serves the open and
    denies the write, so the first failing step is [f_write] with
    [FR_DENIED], and the operation returns [FR_DISK_ERR]. *)
Lemma write_error_code_not_propagated :
  (returned (op_write_file "log.txt" (chars "x")) denying_card).1
    = Ret FR_DISK_ERR ∧
  since denying_card (returned (op_write_file "log.txt" (chars "x")) denying_card).2
    = [c_open "log.txt" (Z.lor FA_CREATE_ALWAYS FA_WRITE) FR_OK;
       c_write 1 0 FR_DENIED; c_close FR_OK] ∧
  first_failure stated_view
    (since denying_card
       (returned (op_write_file "log.txt" (chars "x")) denying_card).2)
    = FR_DENIED.
Proof. vm_compute. done. Qed.

(** C1 (amended).  Every operation of the facade returns the code of the
    first failing step among those it checks, unmodified: [f_getfree],
    [f_mount], [f_open], [f_lseek], [f_read], [f_unlink], [f_rename],
    [f_mkdir], and [f_close] in [sd_read_file].  In [sd_write_file] and
    [sd_append_file] a write step that fails in any way, with a code of
    [f_write]'s own or with a short count, gives [FR_DISK_ERR].  The results
    of [f_close] in write, append and CSV read and of the space query inside
    [sd_mount] are not looked at. *)
Theorem facade_returns_first_checked_failure op w r w' :
  returned op w = (Ret r, w') →
  r = first_failure (checked_view op) (since w w') ∧
  ∀ filename text btw bw e,
    op = op_write_file filename text ∨ op = op_append_file filename text →
    c_write btw bw e ∈ since w w' → e ≠ FR_OK → r = FR_DISK_ERR.
Proof.
  intros Hrun. split; [by apply returned_checked|].
  intros filename text btw bw e [->| ->] Hin He; simpl in Hrun.
  - destruct (sd_write_file_run filename text w)
      as (r0 & w0 & Hr0 & [[Hr Hc]|(rw & bw' & rc & Hc & Hr)]);
      rewrite Hrun in Hr0; simplify_eq; rewrite (since_app _ _ _ Hc) in Hin;
      in_list Hin; simplify_eq.
    rewrite decide_False by tauto. done.
  - destruct (sd_append_file_run filename text w)
      as (r0 & w0 & Hr0 &
          [[Hr Hc]|[(ofs & rc & Hr & Hc)|(ofs & rw & bw' & rc & Hc & Hr)]]);
      rewrite Hrun in Hr0; simplify_eq; rewrite (since_app _ _ _ Hc) in Hin;
      in_list Hin; simplify_eq.
    rewrite decide_False by tauto. done.
Qed.

Lemma facade_returns_first_checked_failure_witness :
  FR_DISK_ERR
    = first_failure (checked_view (op_write_file "log.txt" (chars "x")))
        (since denying_card
           (returned (op_write_file "log.txt" (chars "x")) denying_card).2).
Proof.
  apply (facade_returns_first_checked_failure
           (op_write_file "log.txt" (chars "x")) denying_card).
  vm_compute. reflexivity.
Defined.

(** ** C2: the count of bytes written is checked *)

(** C2.  In [sd_write_file] and in [sd_append_file], a write call that
    reports success with fewer bytes than the text has makes the operation
    return [FR_DISK_ERR]; the operation returns [FR_OK] exactly when the
    write call succeeded with all the bytes of the text. *)
Theorem short_write_reported_as_disk_error op filename text w r w' :
  op = op_write_file filename text ∨ op = op_append_file filename text →
  returned op w = (Ret r, w') →
  (r = FR_OK ↔ c_write (strlen text) (strlen text) FR_OK ∈ since w w') ∧
  (∀ bw, c_write (strlen text) bw FR_OK ∈ since w w' → bw < strlen text →
         r = FR_DISK_ERR).
Proof.
  intros [->| ->] Hrun; simpl in Hrun.
  - destruct (sd_write_file_run filename text w)
      as (r0 & w0 & Hr0 & [[Hr Hc]|(rw & bw' & rc & Hc & Hr)]);
      rewrite Hrun in Hr0; simplify_eq; rewrite (since_app _ _ _ Hc).
    + split; [split; [done|]|]; intros; in_list H; simplify_eq.
    + split; [split|].
      * case_decide as Hd; [|done]. destruct Hd as [-> ->]. intros _.
        apply elem_of_cons; right. apply elem_of_cons; by left.
      * intros H; in_list H; simplify_eq. by rewrite decide_True.
      * intros bw H ?; in_list H; simplify_eq. rewrite decide_False; [done|lia].
  - destruct (sd_append_file_run filename text w)
      as (r0 & w0 & Hr0 &
          [[Hr Hc]|[(ofs & rc & Hr & Hc)|(ofs & rw & bw' & rc & Hc & Hr)]]);
      rewrite Hrun in Hr0; simplify_eq; rewrite (since_app _ _ _ Hc).
    + split; [split; [done|]|]; intros; in_list H; simplify_eq.
    + split; [split; [done|]|]; intros; in_list H; simplify_eq.
    + split; [split|].
      * case_decide as Hd; [|done]. destruct Hd as [-> ->]. intros _.
        do 2 (apply elem_of_cons; right). apply elem_of_cons; by left.
      * intros H; in_list H; simplify_eq. by rewrite decide_True.
      * intros bw H ?; in_list H; simplify_eq. rewrite decide_False; [done|lia].
Qed.

Lemma short_write_reported_as_disk_error_witness :
  (FR_DISK_ERR = FR_OK ↔
   c_write 5 5 FR_OK
     ∈ since full_card (sd_write_file "log.txt" (chars "hello") full_card).2) ∧
  (∀ bw,
     c_write 5 bw FR_OK
       ∈ since full_card (sd_write_file "log.txt" (chars "hello") full_card).2 →
     bw < 5 → FR_DISK_ERR = FR_DISK_ERR).
Proof.
  apply (short_write_reported_as_disk_error
           (op_write_file "log.txt" (chars "hello")) "log.txt" (chars "hello")
           full_card FR_DISK_ERR).
  - left. reflexivity.
  - vm_compute. reflexivity.
Defined.

(** ** C3: which lines are counted *)




(** ** C4: when [value] is assigned *)

(** C4, as stated, fails on the input of section 8: its second line has
    exactly two tokens, the caller's record held 7 in [value], and the
    record comes back with 0 there. *)
Lemma two_token_line_value_zeroed :
  value <$> (records_of
               (sd_read_csv "data.csv" (replicate 3 blank_record) 3 csv_card).1
             !! 1%nat) = Some 0 ∧
  value <$> (replicate 3 blank_record !! 1%nat) = Some 7 ∧
  file_lines csv_card "data.csv" !! 1%nat = Some (chars "a,b" ++ [LF]) ∧
  second_token (chars "a,b" ++ [LF]) = Some (chars "b" ++ [LF]) ∧
  third_token (chars "a,b" ++ [LF]) = None.
Proof. vm_compute. done. Qed.

(** C4 (amended).  For a CSV file read from a healthy card into an array of
    at least [max_records] records, every record that is counted has its
    [value] assigned by the parser: [atoi] of the third token when the line
    has one, and 0 when the line has exactly two tokens. *)
Theorem counted_record_value_assigned filename records max_records w content :
  mounted w = true → filename ∉ dirs w → files w !! filename = Some content →
  healthy w →
  max_records <= Z.of_nat (length records) →
  ∃ records' n,
    (sd_read_csv filename records max_records w).1 = Ret (FR_OK, records', n) ∧
    ∀ k line,
      filter (λ l, counted l) (file_lines w filename) !! k = Some line →
      Z.of_nat k < n →
      ∃ r, records' !! k = Some r ∧
           value r = match third_token line with
                     | Some token => atoi token
                     | None => 0
                     end.
Proof.
  intros Hm Hd Hf Hh Hlen.
  rewrite (sd_read_csv_healthy _ _ _ _ content) by done.
  destruct (parse_lines_spec (file_lines w filename) records 0 max_records)
    as (records' & Hrun & Hlen' & _ & Hrec); [done|done|].
  rewrite Hrun. unfold mbind, outcome_bind. cbn beta iota.
  eexists _, _. split; [done|].
  intros k line Hk Hkn. specialize (Hrec k line Hk ltac:(lia)). simpl in Hrec.
  destruct (lookup_lt_is_Some_2 records k) as [old Hold]; [lia|].
  rewrite Hold in Hrec. simpl in Hrec. eexists. split; [done|].
  apply line_record_value.
  apply list_elem_of_lookup_2, list_elem_of_filter in Hk as [Hk _].
  by destruct (counted line).
Qed.

Lemma counted_record_value_assigned_witness :
  ∃ records' n,
    (sd_read_csv "data.csv" (replicate 3 blank_record) 3 csv_card).1
      = Ret (FR_OK, records', n) ∧
    ∀ k line,
      filter (λ l, counted l) (file_lines csv_card "data.csv") !! k = Some line →
      Z.of_nat k < n →
      ∃ r, records' !! k = Some r ∧
           value r = match third_token line with
                     | Some token => atoi token
                     | None => 0
                     end.
Proof.
  apply (counted_record_value_assigned
           "data.csv" (replicate 3 blank_record) 3 csv_card spec_csv).
  - reflexivity.
  - apply not_elem_of_empty.
  - vm_compute. reflexivity.
  - constructor.
  - vm_compute. discriminate.
Defined.

(** ** C5: a text written is the text read back *)

(** C5.  On a card that serves every call, when [sd_write_file] has
    returned [FR_OK] for a text, [sd_read_file] on the same name with a
    buffer of [bufsize] bytes, [bufsize] above the length of the text,
    returns [FR_OK], reports the length of the text as the bytes read, and
    leaves the text, terminated, in the buffer. *)
Theorem write_then_read_round_trip filename text buffer bufsize w w1 :
  healthy w →
  sd_write_file filename text w = (Ret FR_OK, w1) →
  strlen text < bufsize → bufsize <= UINT_MAX →
  bufsize <= Z.of_nat (length buffer) →
  ∃ buffer' w2,
    sd_read_file filename buffer bufsize w1
      = (Ret (FR_OK, buffer', strlen text), w2) ∧
    cstr buffer' = cstr text.
Proof.
  intros Hh Hw Hlen Hmax Hcap.
  apply sd_write_file_ok in Hw as (Hm & Hd & Hf & Hdev).
  assert (healthy w1) as Hh1.
  { unfold healthy in *. rewrite Hdev. by do 3 apply healthy_tl. }
  destruct (sd_read_file_healthy filename buffer bufsize w1 _ Hm Hd Hf Hh1)
    as (w2 & Hr).
  pose proof (strlen_nonneg text) as Hnn.
  rewrite wrap32_small in Hr by lia.
  fold (strlen text) in Hr. rewrite Z.min_r in Hr by lia.
  rewrite take_ge in Hr by (unfold strlen; lia).
  unfold store in Hr. rewrite decide_True in Hr by (unfold strlen in *; lia).
  simpl in Hr. unfold poke in Hr.
  rewrite decide_True in Hr.
  2:{ rewrite length_app, length_drop. unfold strlen in *. lia. }
  simpl in Hr. eexists _, w2. split; [exact Hr|].
  unfold strlen. rewrite Nat2Z.id.
  rewrite insert_app_r_alt by done. rewrite Nat.sub_diag.
  destruct (drop (length (cstr text)) buffer) as [|c r] eqn:Hdrop.
  { apply (f_equal length) in Hdrop. rewrite length_drop in Hdrop.
    simpl in Hdrop. unfold strlen in *. lia. }
  simpl. apply cstr_app_NUL, cstr_no_NUL.
Qed.

Lemma write_then_read_round_trip_witness :
  ∃ buffer' w2,
    sd_read_file "note.txt" (replicate 8 LF) 8
        (sd_write_file "note.txt" (chars "hello") (card [] [])).2
      = (Ret (FR_OK, buffer', strlen (chars "hello")), w2) ∧
    cstr buffer' = cstr (chars "hello").
Proof.
  apply (write_then_read_round_trip
           "note.txt" (chars "hello") (replicate 8 LF) 8 (card [] [])).
  - constructor.
  - vm_compute. reflexivity.
  - vm_compute. reflexivity.
  - vm_compute. discriminate.
  - vm_compute. discriminate.
Defined.

(** ** C6: the bound of a read, and where it breaks *)

(** C6, as stated, fails at [bufsize = 0].  The file has 5 bytes.  With 8
    bytes of memory behind the pointer the call returns [FR_OK] with 5 bytes
    read and the terminator at index 5: more than [bufsize - 1] bytes, and a
    terminator outside the first [bufsize] bytes.  With a buffer that really
    has no byte the same stores leave it; the read asked for 4294967295
    bytes. *)
Lemma read_file_zero_bufsize_overruns :
  (sd_read_file "hello.txt" (replicate 8 LF) 0 hello_card).1
    = Ret (FR_OK, chars "hello" ++ [NUL; LF; LF], 5) ∧
  (sd_read_file "hello.txt" [] 0 hello_card).1 = Overrun ∧
  since hello_card (sd_read_file "hello.txt" [] 0 hello_card).2
    = [c_open "hello.txt" FA_READ FR_OK; c_read 4294967295 5 FR_OK].
Proof. vm_compute. done. Qed.

(** C6 (amended).  For [bufsize] of 1 or more, and a buffer of at least
    [bufsize] bytes: a call that returns [FR_OK] has read at most
    [bufsize - 1] bytes, they are the head of the file, the terminator
    follows them at once, the buffer past the terminator is as it was, and a
    file of [bufsize] bytes or more gives exactly [bufsize - 1] bytes, so
    that the terminator is within the first [bufsize] bytes. *)
Theorem read_file_bounded_by_bufsize filename buffer bufsize w buffer' br w' :
  1 <= bufsize <= UINT_MAX → bufsize <= Z.of_nat (length buffer) →
  sd_read_file filename buffer bufsize w = (Ret (FR_OK, buffer', br), w') →
  ∃ content,
    files w !! filename = Some content ∧
    0 <= br <= bufsize - 1 ∧
    take (Z.to_nat br) buffer' = take (Z.to_nat br) content ∧
    buffer' !! Z.to_nat br = Some NUL ∧
    drop (Z.to_nat br + 1) buffer' = drop (Z.to_nat br + 1) buffer ∧
    (bufsize <= Z.of_nat (length content) → br = bufsize - 1).
Proof.
  intros Hsize Hcap Hrun.
  apply sd_read_file_ok in Hrun as (content & Hf & Hbr & Hbuf).
  rewrite wrap32_small in Hbr by (unfold UINT_MAX in *; lia).
  exists content. split; [done|]. split; [lia|].
  destruct (store buffer _) as [b| |] eqn:Hst; [|done..]. simpl in Hbuf.
  apply store_ret in Hst as [Hle ->].
  apply poke_ret in Hbuf as [Hin ->].
  set (m := Z.to_nat br) in *.
  set (data := take m content) in *.
  assert (length data = m) as Hlen.
  { unfold data. rewrite length_take. lia. }
  rewrite Hlen in *.
  rewrite length_app, length_drop, Hlen in Hin.
  destruct (drop m buffer) as [|c rest] eqn:Hd.
  { apply (f_equal length) in Hd. rewrite length_drop in Hd. simpl in Hd. lia. }
  rewrite insert_app_r_alt by lia. rewrite Hlen, Nat.sub_diag. simpl.
  split; [by rewrite take_app_length'|]. split; [|split; [|lia]].
  - rewrite lookup_app_r by lia. by rewrite Hlen, Nat.sub_diag.
  - rewrite drop_app_ge by lia. rewrite Hlen.
    replace (m + 1 - m)%nat with 1%nat by lia.
    rewrite <- drop_drop, Hd. done.
Qed.

Lemma read_file_bounded_by_bufsize_witness :
  ∃ content,
    files hello_card !! "hello.txt" = Some content ∧
    0 <= 3 <= 4 - 1 ∧
    take (Z.to_nat 3) (chars "hel" ++ [NUL; LF; LF; LF; LF])
      = take (Z.to_nat 3) content ∧
    (chars "hel" ++ [NUL; LF; LF; LF; LF]) !! Z.to_nat 3 = Some NUL ∧
    drop (Z.to_nat 3 + 1) (chars "hel" ++ [NUL; LF; LF; LF; LF])
      = drop (Z.to_nat 3 + 1) (replicate 8 LF) ∧
    (4 <= Z.of_nat (length content) → 3 = 4 - 1).
Proof.
  apply (read_file_bounded_by_bufsize "hello.txt" (replicate 8 LF) 4 hello_card
           (chars "hel" ++ [NUL; LF; LF; LF; LF]) 3
           (sd_read_file "hello.txt" (replicate 8 LF) 4 hello_card).2).
  - vm_compute. split; discriminate.
  - vm_compute. discriminate.
  - vm_compute. reflexivity.
Defined.

(** ** C7: a failed seek in [sd_append_file] *)

(** C7.  When the seek of [sd_append_file] fails, the calls of the
    operation are the open, the seek and a close, in that order: the file
    is closed before the return, no write is made, and the code returned
    is the seek's. *)
Theorem append_seek_failure_closes_file filename text w o w' ofs e :
  sd_append_file filename text w = (o, w') →
  c_lseek ofs e ∈ since w w' → e ≠ FR_OK →
  o = Ret e ∧
  (∃ rc, since w w' = [c_open filename (Z.lor FA_OPEN_ALWAYS FA_WRITE) FR_OK;
                       c_lseek ofs e; c_close rc]) ∧
  ∀ btw bw r, c_write btw bw r ∉ since w w'.
Proof.
  intros Hrun Hin He.
  destruct (sd_append_file_run filename text w)
    as (r0 & w0 & Hr0 &
        [[Hr Hc]|[(ofs' & rc & Hr & Hc)|(ofs' & rw & bw' & rc & Hc & Hr)]]);
    rewrite Hrun in Hr0; simplify_eq; rewrite (since_app _ _ _ Hc) in *;
    in_list Hin; simplify_eq.
  split; [done|]. split; [eauto|].
  intros btw bw r H. in_list H; simplify_eq.
Qed.

Lemma append_seek_failure_closes_file_witness :
  (sd_append_file "log.txt" (chars "x") stalling_card).1 = Ret FR_TIMEOUT ∧
  (∃ rc,
     since stalling_card (sd_append_file "log.txt" (chars "x") stalling_card).2
       = [c_open "log.txt" (Z.lor FA_OPEN_ALWAYS FA_WRITE) FR_OK;
          c_lseek 0 FR_TIMEOUT; c_close rc]) ∧
  ∀ btw bw r,
    c_write btw bw r
      ∉ since stalling_card (sd_append_file "log.txt" (chars "x") stalling_card).2.
Proof.
  apply (append_seek_failure_closes_file "log.txt" (chars "x") stalling_card).
  - apply surjective_pairing.
  - vm_compute. repeat constructor.
  - discriminate.
Defined.

(** ** C8: the records array is not overrun *)

(** C8, as stated, fails for a negative [max_records]: nothing is read into
    the array and the count returned is 0, which is above [max_records]. *)
Lemma negative_max_records_below_count :
  ∃ record_count,
    count_of (sd_read_csv "data.csv" (replicate 3 blank_record) (-1) csv_card).1
      = Some record_count ∧
    record_count = 0 ∧ ¬ (record_count <= -1).
Proof. exists 0. split; [vm_compute; reflexivity|]. split; [reflexivity|lia]. Qed.

(** C8 (amended).  For every file, card, array and [max_records],
    [sd_read_csv] comes to an end; when it returns, no record at an index of
    [max_records] or more has changed, the array has the length it had, and
    the count is between 0 and the larger of 0 and [max_records]: it does
    not exceed a [max_records] that is not negative.  A store leaves the
    array only when the array is shorter than [max_records]. *)
Theorem read_csv_within_max_records filename records max_records w :
  match (sd_read_csv filename records max_records w).1 with
  | Ret (_, records', record_count) =>
      0 <= record_count <= Z.max 0 max_records ∧
      length records' = length records ∧
      ∀ i, max_records <= Z.of_nat i → records' !! i = records !! i
  | Overrun => Z.of_nat (length records) < max_records
  | OutOfFuel => False
  end.
Proof.
  destruct (f_open_log FIL_blank filename FA_READ w) as (ro & fp & w1 & Ho & _).
  unfold sd_read_csv. step Ho.
  case_decide as Hro; [simpl; split; [lia|done]|].
  assert (ro = FR_OK) as -> by (by destruct (decide (ro = FR_OK))).
  apply f_open_read_ok in Ho as (content & Hf & -> & Hfiles). cbn [objsize].
  pose proof (read_csv_loop_safe (S (length content))
                (mkFIL true filename FA_READ 0 (length content))
                records 0 max_records w1 ltac:(done)) as Hloop.
  unfold unread in Hloop. cbn [fptr fil_name] in Hloop.
  rewrite Hfiles, Hf in Hloop.
  change (default [] (Some content)) with content in Hloop.
  rewrite drop_0 in Hloop. specialize (Hloop ltac:(lia)).
  destruct (read_csv_loop _ _ _ _ _ _) as [[[[fp2 recs] n]| |] w2] eqn:Hrun;
    simpl in Hloop.
  - step Hrun.
    destruct (f_close_log fp2 w2) as (rc & fp3 & w3 & Hcl & _). step Hcl.
    simpl. tauto.
  - by rewrite (bind_overrun _ _ _ _ Hrun).
  - done.
Qed.

(** ** C9: the read length at [bufsize = 0] *)

(** C9.  Every run of [sd_read_file] opens the file, and when the open has
    succeeded its next call is the read, of [bufsize - 1] bytes for a
    [bufsize] of 1 or more and of 4294967295 bytes for [bufsize = 0], where
    [bufsize - 1] wraps around: at [bufsize = 0] the function neither fails
    nor skips the read.  A card that serves every call and holds the file
    gets that read and serves it.  The bytes read are at most what was asked
    for, and a call that returns [FR_OK] has read the whole file up to that
    length: at [bufsize = 0] this is the whole file, not zero bytes. *)
Theorem read_length_wraps_at_zero_bufsize filename buffer bufsize w o w' :
  0 <= bufsize <= UINT_MAX →
  sd_read_file filename buffer bufsize w = (o, w') →
  let asked := if decide (bufsize = 0) then 4294967295 else bufsize - 1 in
  ((∃ ro, ro ≠ FR_OK ∧ since w w' = [c_open filename FA_READ ro]) ∨
   (∃ br r rest,
      since w w' = c_open filename FA_READ FR_OK :: c_read asked br r :: rest)) ∧
  (mounted w = true → filename ∉ dirs w → is_Some (files w !! filename) →
   healthy w →
   ∃ br rest,
     since w w' = c_open filename FA_READ FR_OK :: c_read asked br FR_OK :: rest) ∧
  (∀ btr br r, c_read btr br r ∈ since w w' → btr = asked ∧ 0 <= br <= asked) ∧
  (∀ buffer' br, o = Ret (FR_OK, buffer', br) →
     ∃ content, files w !! filename = Some content ∧
                br = Z.min asked (Z.of_nat (length content))).
Proof.
  intros Hsize Hrun asked.
  assert (wrap32 (bufsize - 1) = asked) as Hasked.
  { unfold asked. case_decide as H0; [by subst|].
    apply wrap32_small. unfold UINT_MAX in *. lia. }
  destruct (sd_read_file_run filename buffer bufsize w)
    as (o0 & w0 & Hr0 & Hlog).
  rewrite Hrun in Hr0. injection Hr0 as <- <-. rewrite Hasked in Hlog.
  split; [|split; [|split]].
  - destruct Hlog as [(r0 & Hr & -> & Hc)|[(r0 & br0 & rc & b' & Hr & -> & Hbr & Hc)|
           [(br0 & rc & b' & -> & Hbr & Hc)|(br0 & -> & Hbr & Hc)]]];
      rewrite (since_app _ _ _ Hc); [left|right..]; eauto.
  - intros Hm Hd [content Hf] Hh.
    destruct (sd_read_file_healthy filename buffer bufsize w content Hm Hd Hf Hh)
      as (w1 & Hrun1).
    rewrite Hrun in Hrun1. injection Hrun1 as Ho _.
    destruct Hlog as [(r0 & Hr & -> & Hc)|[(r0 & br0 & rc & b' & Hr & -> & Hbr & Hc)|
           [(br0 & rc & b' & -> & Hbr & Hc)|(br0 & -> & Hbr & Hc)]]];
      rewrite (since_app _ _ _ Hc); [exfalso..|by eauto|by eauto].
    + destruct (store _ _) as [b| |]; simpl in Ho; [|done..].
      destruct (poke _ _ _) as [b2| |]; simpl in Ho; [|done..]. by injection Ho as -> _ _.
    + destruct (store _ _) as [b| |]; simpl in Ho; [|done..].
      destruct (poke _ _ _) as [b2| |]; simpl in Ho; [|done..]. by injection Ho as -> _ _.
  - intros btr br r Hin.
    destruct Hlog as [(r0 & Hr & -> & Hc)|[(r0 & br0 & rc & b' & Hr & -> & Hbr & Hc)|
           [(br0 & rc & b' & -> & Hbr & Hc)|(br0 & -> & Hbr & Hc)]]];
      rewrite (since_app _ _ _ Hc) in Hin; in_list Hin; simplify_eq; done.
  - intros buffer' br ->.
    apply sd_read_file_ok in Hrun as (content & Hf & Hbr & _).
    exists content. by rewrite <- Hasked.
Qed.

Lemma read_length_wraps_at_zero_bufsize_witness :
  let w := hello_card in
  let w' := (sd_read_file "hello.txt" (replicate 8 LF) 0 hello_card).2 in
  ((∃ ro, ro ≠ FR_OK ∧ since w w' = [c_open "hello.txt" FA_READ ro]) ∨
   (∃ br r rest,
      since w w' = c_open "hello.txt" FA_READ FR_OK :: c_read 4294967295 br r :: rest)) ∧
  (mounted w = true → "hello.txt"%string ∉ dirs w →
   is_Some (files w !! "hello.txt"%string) → healthy w →
   ∃ br rest,
     since w w'
     = c_open "hello.txt" FA_READ FR_OK :: c_read 4294967295 br FR_OK :: rest) ∧
  (∀ btr br r, c_read btr br r ∈ since w w' →
     btr = 4294967295 ∧ 0 <= br <= 4294967295) ∧
  (∀ buffer' br,
     (sd_read_file "hello.txt" (replicate 8 LF) 0 hello_card).1
       = Ret (FR_OK, buffer', br) →
     ∃ content, files w !! "hello.txt"%string = Some content ∧
                br = Z.min 4294967295 (Z.of_nat (length content))).
Proof.
  apply (read_length_wraps_at_zero_bufsize "hello.txt" (replicate 8 LF) 0 hello_card).
  - vm_compute. split; discriminate.
  - apply surjective_pairing.
Defined.

(** ** C10: the copy into a field *)

(** C10.  In the loop body of [sd_read_csv], on a record whose two text
    fields have their 32 bytes, the copy of a token into [field1] or
    [field2] leaves the field with its 32 bytes, holding the token cut to
    32 bytes and NULs after it; a token of 32 bytes or more leaves no NUL in
    the field, a shorter one is followed by one. *)
Theorem csv_field_copy_bounded_unterminated line records n old :
  0 <= n → records !! Z.to_nat n = Some old →
  length (field1 old) = FIELD_SIZE → length (field2 old) = FIELD_SIZE →
  ∃ records' n' r,
    read_csv_line line records n = Ret (records', n') ∧
    records' !! Z.to_nat n = Some r ∧
    length (field1 r) = FIELD_SIZE ∧ length (field2 r) = FIELD_SIZE ∧
    (∀ token, first_token line = Some token → copy_of token (field1 r)) ∧
    (∀ token, second_token line = Some token → copy_of token (field2 r)).
Proof.
  intros Hn Hold H1 H2.
  rewrite (read_csv_line_in _ _ _ old) by done.
  eexists _, _, _. split; [done|].
  split; [apply list_lookup_insert_eq; by eapply lookup_lt_Some|].
  unfold line_record, first_token, second_token, third_token.
  destruct (strtok (Some line) _ _) as [[t1|] sv1]; cbn [fst]; [|done].
  destruct (strtok None _ sv1) as [[t2|] sv2]; cbn [fst]; simpl.
  - pose proof (strncpy_copy_of _ t1 H1) as Hc1.
    pose proof (strncpy_copy_of _ t2 H2) as Hc2.
    split; [apply Hc1|]. split; [apply Hc2|].
    split; intros token [= <-]; done.
  - pose proof (strncpy_copy_of _ t1 H1) as Hc1.
    split; [apply Hc1|]. split; [done|].
    split; [intros token [= <-]; done|done].
Qed.

Lemma csv_field_copy_bounded_unterminated_witness :
  ∃ records' n' r,
    read_csv_line long_line [blank_record] 0 = Ret (records', n') ∧
    records' !! Z.to_nat 0 = Some r ∧
    length (field1 r) = FIELD_SIZE ∧ length (field2 r) = FIELD_SIZE ∧
    (∀ token, first_token long_line = Some token → copy_of token (field1 r)) ∧
    (∀ token, second_token long_line = Some token → copy_of token (field2 r)).
Proof.
  apply (csv_field_copy_bounded_unterminated long_line [blank_record] 0 blank_record);
    reflexivity || lia.
Defined.

(** * Further properties of the facade *)

(** ** Every file opened is closed *)

Lemma filter_gets (P : Call → bool) cs :
  (∀ l, P (c_gets l) = false) →
  Forall (λ c, ∃ l, c = c_gets l) cs → filter (λ c, P c) cs = [].
Proof.
  intros HP. induction 1 as [|c cs [l ->] _ IH]; [done|].
  rewrite filter_cons_False by (rewrite HP; simpl; tauto). done.
Qed.

Lemma gets_not_open cs path mode r :
  Forall (λ c, ∃ l, c = c_gets l) cs → c_open path mode r ∉ cs.
Proof.
  intros Hall Hin. rewrite Forall_forall in Hall.
  destruct (Hall _ Hin) as [l Hl]. done.
Qed.

(** Closes a goal on the log of an operation that opens no file, or one
    file with its close as the last call. *)
Ltac closed_once :=
  simpl; split; [lia|]; split; [lia|];
  let H := fresh in
  intros ? ? H; in_list H; simplify_eq; eauto.

(** Whatever the card does, an operation of the facade that returns has
    called [f_close] as often as [f_open] has succeeded, which is at most
    once, and after a successful [f_open] the close is its last call: no
    exit path leaves a file open, and none closes twice. *)
Theorem every_opened_file_closed_once op w r w' :
  returned op w = (Ret r, w') →
  length (filter (λ c, closed c) (since w w'))
    = length (filter (λ c, opened c) (since w w')) ∧
  (length (filter (λ c, opened c) (since w w')) ≤ 1)%nat ∧
  (∀ path mode, c_open path mode FR_OK ∈ since w w' →
     ∃ rc, last (since w w') = Some (c_close rc)).
Proof.
  destruct op; simpl.
  - destruct (sd_get_space_kb_run w) as (r0 & w0 & -> & Hc).
    intros [= -> ->]. rewrite (since_app _ _ _ Hc). closed_once.
  - destruct (sd_mount_run w) as (r0 & w0 & cs & -> & Hc & Hcs).
    intros [= -> ->]. rewrite (since_app _ _ _ Hc).
    destruct Hcs as [->|[rg ->]]; closed_once.
  - destruct (sd_unmount_run w) as (r0 & w0 & -> & Hc).
    intros [= -> ->]. rewrite (since_app _ _ _ Hc). closed_once.
  - destruct (sd_write_file_run filename text w)
      as (r0 & w0 & -> & [[Hr Hc]|(rw & bw & rc & Hc & Hr)]);
      intros [= -> ->]; rewrite (since_app _ _ _ Hc).
    + destruct r; [done|closed_once..].
    + closed_once.
  - destruct (sd_append_file_run filename text w)
      as (r0 & w0 & -> & [[Hr Hc]|[(ofs & rc & Hr & Hc)|(ofs & rw & bw & rc & Hc & Hr)]]);
      intros [= -> ->]; rewrite (since_app _ _ _ Hc).
    + destruct r; [done|closed_once..].
    + closed_once.
    + closed_once.
  - destruct (sd_read_file_run filename buffer bufsize w)
      as (o & w0 & Hrun &
          [(r0 & Hr & -> & Hc)|[(r0 & br & rc & b' & Hr & -> & _ & Hc)|
           [(br & rc & b' & -> & _ & Hc)|(br & -> & _ & Hc)]]]);
      unfold mbind, M_bind; rewrite Hrun; simpl; [| | |done];
      intros [= -> ->]; rewrite (since_app _ _ _ Hc).
    + destruct r; [done|closed_once..].
    + closed_once.
    + closed_once.
  - destruct (sd_read_csv_run filename records max_records w)
      as (o & w0 & Hrun &
          [(r0 & Hr & -> & Hc)|[(cs & Ho & Hc & Hall)|
           (cs & rc & recs & n & -> & Hc & Hall)]]);
      unfold mbind, M_bind; rewrite Hrun; simpl.
    + intros [= -> ->]. rewrite (since_app _ _ _ Hc).
      destruct r; [done|closed_once..].
    + destruct o as [a| |]; [by destruct (Ho a)|done|done].
    + intros [= <- ->]. rewrite (since_app _ _ _ Hc).
      rewrite !filter_cons, !filter_app. simpl.
      rewrite !(filter_gets _ cs) by done. simpl.
      split; [lia|]. split; [lia|]. intros path mode _. exists rc.
      by rewrite app_comm_cons, last_snoc.
  - destruct (sd_delete_file_run filename w) as (r0 & w0 & -> & Hc).
    intros [= -> ->]. rewrite (since_app _ _ _ Hc). closed_once.
  - destruct (sd_rename_file_run oldname newname w) as (r0 & w0 & -> & Hc).
    intros [= -> ->]. rewrite (since_app _ _ _ Hc). closed_once.
  - destruct (sd_create_directory_run path w) as (r0 & w0 & -> & Hc).
    intros [= -> ->]. rewrite (since_app _ _ _ Hc). closed_once.
Qed.

Lemma every_opened_file_closed_once_witness :
  let cs := since stalling_card (sd_append_file "log.txt" (chars "x") stalling_card).2 in
  length (filter (λ c, closed c) cs) = length (filter (λ c, opened c) cs) ∧
  (length (filter (λ c, opened c) cs) ≤ 1)%nat ∧
  (∀ path mode, c_open path mode FR_OK ∈ cs → ∃ rc, last cs = Some (c_close rc)).
Proof.
  apply (every_opened_file_closed_once
           (op_append_file "log.txt" (chars "x")) stalling_card FR_TIMEOUT).
  vm_compute. reflexivity.
Defined.

(** ** Nothing follows a failure but the close *)

(** The calls of the loop are the reads that gave a line and, at most, one
    that gave none, which is the last. *)
Lemma read_csv_loop_gets fuel file records record_count max_records w :
  ∃ o w' ls tl,
    read_csv_loop fuel file records record_count max_records w = (o, w') ∧
    calls w' = calls w ++ ((λ l, c_gets (Some l)) <$> ls) ++ tl ∧
    (tl = [] ∨ tl = [c_gets None]).
Proof.
  revert file records record_count w.
  induction fuel as [|fuel IH]; intros file records record_count w; simpl.
  { exists OutOfFuel, w, [], []. rewrite app_nil_r. eauto. }
  destruct (f_gets_log 128 file w) as (line & fp & w1 & Hg & Hc).
  step Hg.
  destruct line as [line|];
    [|exists (Ret (fp, records, record_count)), w1, [], [c_gets None]; eauto].
  assert (calls w1 = calls w ++ ((λ l, c_gets (Some l)) <$> [line]) ++ []) as Hc'
    by done.
  case_decide; [|eexists _, w1, [line], []; eauto].
  unfold lift at 1.
  destruct (read_csv_line line records record_count) as [[recs n]| |].
  - rewrite (bind_run _ _ w1 (recs, n) w1) by done. cbn beta iota.
    destruct (IH fp recs n w1) as (o & w2 & ls & tl & Hl & Hc2 & Htl).
    exists o, w2, (line :: ls), tl. split; [done|]. split; [|done].
    rewrite Hc2, Hc, <- app_assoc. done.
  - rewrite (bind_overrun _ _ w1 w1) by done. exists Overrun, w1, [line], []; eauto.
  - rewrite (bind_out_of_fuel _ _ w1 w1) by done.
    exists OutOfFuel, w1, [line], []; eauto.
Qed.

(** The calls of [sd_read_csv]: the open alone when it fails; else the
    open, the reads of the loop and the close. *)
Lemma sd_read_csv_gets filename records max_records w :
  ∃ o w', sd_read_csv filename records max_records w = (o, w') ∧
    ((∃ r, r ≠ FR_OK ∧ calls w' = calls w ++ [c_open filename FA_READ r]) ∨
     (∀ a, o ≠ Ret a) ∨
     (∃ ls tl rc,
        calls w' = calls w ++ (c_open filename FA_READ FR_OK ::
                               ((λ l, c_gets (Some l)) <$> ls)) ++ tl ++ [c_close rc] ∧
        (tl = [] ∨ tl = [c_gets None]))).
Proof.
  destruct (f_open_log FIL_blank filename FA_READ w) as (ro & fp & w1 & Ho & Hc1).
  unfold sd_read_csv. step Ho.
  case_decide as Hro; [exists (Ret (ro, records, 0)), w1; eauto 10|].
  assert (ro = FR_OK) as -> by (by destruct (decide (ro = FR_OK))).
  destruct (read_csv_loop_gets (S (objsize fp)) fp records 0 max_records w1)
    as (o & w2 & ls & tl & Hl & Hc2 & Htl).
  destruct o as [[[fp2 recs] n]| |].
  - step Hl.
    destruct (f_close_log fp2 w2) as (rc & fp3 & w3 & Hcl & Hc3).
    step Hcl. eexists _, w3. split; [reflexivity|right; right].
    exists ls, tl, rc. split; [|done].
    rewrite Hc3, Hc2, Hc1. by repeat (rewrite <- app_assoc; simpl).
  - rewrite (bind_overrun _ _ _ _ Hl). exists Overrun, w2. split; [done|by right; left].
  - rewrite (bind_out_of_fuel _ _ _ _ Hl). exists OutOfFuel, w2.
    split; [done|by right; left].
Qed.

(** A failed call of a log is not among the calls that went well at its
    head. *)
Lemma failed_after_served (cs rest pre post : list Call) c :
  Forall (λ c, ¬ failed c) cs → cs ++ rest = pre ++ c :: post → failed c →
  ∃ pre', rest = pre' ++ c :: post.
Proof.
  intros Hcs. revert pre. induction Hcs as [|a cs Ha _ IH]; intros pre Heq Hc.
  - by exists pre.
  - destruct pre as [|b pre]; simplify_eq/=; [done|]. by eapply IH.
Qed.

Lemma gets_line_served (ls : list (list ascii)) :
  Forall (λ c, ¬ failed c) ((λ l, c_gets (Some l)) <$> ls).
Proof.
  apply Forall_fmap, Forall_true. intros l [H|H]; simpl in H; done.
Qed.

(** Goes through the places of a call in a log given in full. *)
Ltac places :=
  repeat match goal with
         | H : _ :: _ = ?pre ++ _ :: _ |- _ =>
             destruct pre as [|? pre]; simplify_eq/=
         | H : [] = ?pre ++ _ :: _ |- _ => destruct pre; discriminate H
         end.

(** What may follow the failed call: nothing, or the close. *)
Ltac after_failure Hv :=
  try (by left); try (right; by eexists);
  try (by destruct Hv as [Hv|Hv]; simpl in Hv).

(** In every operation that gives a code back but [sd_mount], whose card
    query is not modelled, nothing follows a failed call but the [f_close]
    of the open file.  A failed call is one that gave back an error code
    ([f_close] too), an [f_write] that stored another count of bytes than
    asked, or an [f_gets] that gave no line.  So no call is tried again,
    nothing is read or written after a failed open or seek, and the loop of
    [sd_read_csv] reads no further once [f_gets] has given no line. *)
Theorem nothing_but_close_after_failure op w r w' pre c post :
  op ≠ op_mount →
  returned op w = (Ret r, w') →
  since w w' = pre ++ c :: post →
  failed c →
  post = [] ∨ ∃ rc, post = [c_close rc].
Proof.
  intros Hop. destruct op; [|done|..]; clear Hop; simpl.
  - destruct (sd_get_space_kb_run w) as (r0 & w0 & -> & Hc).
    intros [= -> ->]. rewrite (since_app _ _ _ Hc). intros H Hv. places; after_failure Hv.
  - destruct (sd_unmount_run w) as (r0 & w0 & -> & Hc).
    intros [= -> ->]. rewrite (since_app _ _ _ Hc). intros H Hv. places; after_failure Hv.
  - destruct (sd_write_file_run filename text w)
      as (r0 & w0 & -> & [[Hr Hc]|(rw & bw & rc & Hc & Hr)]);
      intros [= -> ->]; rewrite (since_app _ _ _ Hc); intros H Hv; places; after_failure Hv.
  - destruct (sd_append_file_run filename text w)
      as (r0 & w0 & -> & [[Hr Hc]|[(ofs & rc & Hr & Hc)|(ofs & rw & bw & rc & Hc & Hr)]]);
      intros [= -> ->]; rewrite (since_app _ _ _ Hc); intros H Hv; places; after_failure Hv.
  - destruct (sd_read_file_run filename buffer bufsize w)
      as (o & w0 & Hrun &
          [(r0 & Hr & -> & Hc)|[(r0 & br & rc & b' & Hr & -> & _ & Hc)|
           [(br & rc & b' & -> & _ & Hc)|(br & -> & _ & Hc)]]]);
      unfold mbind, M_bind; rewrite Hrun; simpl; [| | |done];
      intros [= -> ->]; rewrite (since_app _ _ _ Hc); intros H Hv; places; after_failure Hv.
  - destruct (sd_read_csv_gets filename records max_records w)
      as (o & w0 & Hrun & [(r0 & Hr & Hc)|[Ho|(ls & tl & rc & Hc & Htl)]]);
      unfold mbind, M_bind; rewrite Hrun.
    + destruct o as [[[r1 recs] n]| |]; simpl; [|done..].
      intros [= -> ->]. rewrite (since_app _ _ _ Hc).
      intros H Hv. places; after_failure Hv.
    + destruct o as [a| |]; [by destruct (Ho a)|done|done].
    + destruct o as [[[r1 recs] n]| |]; simpl; [|done..].
      intros [= -> ->]. rewrite (since_app _ _ _ Hc). intros H Hv.
      apply failed_after_served in H as [pre' H]; [|clear H|done].
      * destruct Htl as [->| ->]; simpl in H; places; after_failure Hv.
      * constructor; [|apply gets_line_served].
        intros [Hf|Hf]; simpl in Hf; done.
  - destruct (sd_delete_file_run filename w) as (r0 & w0 & -> & Hc).
    intros [= -> ->]. rewrite (since_app _ _ _ Hc). intros H Hv. places; after_failure Hv.
  - destruct (sd_rename_file_run oldname newname w) as (r0 & w0 & -> & Hc).
    intros [= -> ->]. rewrite (since_app _ _ _ Hc). intros H Hv. places; after_failure Hv.
  - destruct (sd_create_directory_run path w) as (r0 & w0 & -> & Hc).
    intros [= -> ->]. rewrite (since_app _ _ _ Hc). intros H Hv. places; after_failure Hv.
Qed.

Lemma nothing_but_close_after_failure_witness :
  let cs := since full_card (sd_write_file "log.txt" (chars "hello") full_card).2 in
  drop 2 cs = [] ∨ ∃ rc, drop 2 cs = [c_close rc].
Proof.
  apply (nothing_but_close_after_failure
           (op_write_file "log.txt" (chars "hello")) full_card FR_DISK_ERR
           (sd_write_file "log.txt" (chars "hello") full_card).2
           [c_open "log.txt" (FA_CREATE_ALWAYS + FA_WRITE) FR_OK]
           (c_write 5 2 FR_OK)).
  - discriminate.
  - vm_compute. reflexivity.
  - vm_compute. reflexivity.
  - right. simpl. discriminate.
Defined.

(** ** Mounting and the space figures *)

(** [sd_mount] asks for the space figures exactly when the mount has
    succeeded, once and after it; a mount that fails is the only call
    made. *)
Theorem mount_queries_space_after_success w r w' :
  sd_mount w = (Ret r, w') →
  (r = FR_OK → ∃ rg, since w w' = [c_mount true FR_OK; c_getfree rg]) ∧
  (r ≠ FR_OK → since w w' = [c_mount true r]).
Proof.
  intros Hrun.
  destruct (f_mount_log true w) as (res & w1 & Hm & Hc).
  unfold sd_mount in Hrun. rewrite (bind_run _ _ _ _ _ Hm) in Hrun.
  cbn beta iota in Hrun.
  destruct (decide (res = FR_OK)) as [->|Hres].
  - destruct (sd_get_space_kb_run w1) as (rg & w2 & Hg & Hc2).
    rewrite (bind_run _ _ _ _ _ Hg) in Hrun. injection Hrun as <- <-.
    split; [|done]. intros _. exists rg. apply since_app.
    rewrite Hc2, Hc, <- app_assoc. done.
  - injection Hrun as <- <-. split; [done|]. intros _. by apply since_app.
Qed.

Lemma mount_queries_space_after_success_witness :
  (FR_OK = FR_OK →
   ∃ rg, since (card [] [Healthy; Fails FR_DISK_ERR])
           (sd_mount (card [] [Healthy; Fails FR_DISK_ERR])).2
         = [c_mount true FR_OK; c_getfree rg]) ∧
  (FR_OK ≠ FR_OK →
   since (card [] [Healthy; Fails FR_DISK_ERR])
     (sd_mount (card [] [Healthy; Fails FR_DISK_ERR])).2
   = [c_mount true FR_OK]).
Proof.
  apply (mount_queries_space_after_success (card [] [Healthy; Fails FR_DISK_ERR])).
  vm_compute. reflexivity.
Defined.

(** The figures of [sd_get_space_kb], for a volume with [n_fatent - 2]
    clusters of [csize] sectors of which [fre_clust] are free.  When the
    sector count fits the 32-bit [DWORD], the total is half the sectors and
    the free space half the free sectors, in KB rounded down, and the free
    space is no more than the total.  When it does not fit (a volume of
    2 TiB or more) the product wraps and the total printed is too small. *)
Theorem space_figures_of_volume fre_clust n_fatent csize :
  2 <= n_fatent → 0 <= csize → 0 <= fre_clust <= n_fatent - 2 →
  let sectors := (n_fatent - 2) * csize in
  let total_kb := (space_kb fre_clust n_fatent csize).1 in
  let free_kb := (space_kb fre_clust n_fatent csize).2 in
  (sectors <= UINT_MAX →
   total_kb = sectors / 2 ∧ free_kb = fre_clust * csize / 2 ∧
   0 <= free_kb <= total_kb) ∧
  (UINT_MAX < sectors → total_kb < sectors / 2).
Proof.
  intros Hn Hc Hf sectors total_kb free_kb.
  unfold total_kb, free_kb, space_kb. simpl. fold sectors. split.
  - intros Hfit.
    assert (0 <= fre_clust * csize <= sectors) as Hfree by (unfold sectors; nia).
    rewrite !wrap32_small by (unfold sectors in *; nia).
    split; [done|]. split; [done|]. split.
    + apply Z.div_pos; lia.
    + apply Z.div_le_mono; lia.
  - intros Hbig. pose proof (wrap32_range sectors) as Hw.
    unfold UINT_MAX in *.
    assert (wrap32 sectors / 2 < 2147483648) as H1.
    { apply Z.div_lt_upper_bound; lia. }
    assert (2147483648 <= sectors / 2) as H2.
    { apply Z.div_le_lower_bound; lia. }
    lia.
Qed.

Lemma space_figures_of_volume_witness :
  let sectors := (1000 - 2) * 8 in
  let total_kb := (space_kb 500 1000 8).1 in
  let free_kb := (space_kb 500 1000 8).2 in
  (sectors <= UINT_MAX →
   total_kb = sectors / 2 ∧ free_kb = 500 * 8 / 2 ∧ 0 <= free_kb <= total_kb) ∧
  (UINT_MAX < sectors → total_kb < sectors / 2).
Proof. apply (space_figures_of_volume 500 1000 8); lia. Defined.

(** ** Reading a file: what reaches the buffer *)

(** When the open of [sd_read_file] fails, the call returns its code with
    the buffer as it was and 0 in [*bytes_read], and the open is the only
    library call made. *)
Theorem read_file_open_failure_leaves_buffer filename buffer bufsize w o w' r :
  sd_read_file filename buffer bufsize w = (o, w') →
  c_open filename FA_READ r ∈ since w w' → r ≠ FR_OK →
  o = Ret (r, buffer, 0) ∧ since w w' = [c_open filename FA_READ r].
Proof.
  intros Hrun Hin Hr.
  destruct (sd_read_file_run filename buffer bufsize w)
    as (o0 & w0 & Hr0 &
        [(r0 & Hr1 & -> & Hc)|[(r0 & br0 & rc & b' & Hr1 & -> & Hbr & Hc)|
         [(br0 & rc & b' & -> & Hbr & Hc)|(br0 & -> & Hbr & Hc)]]]);
    rewrite Hrun in Hr0; simplify_eq; rewrite (since_app _ _ _ Hc) in Hin |- *;
    in_list Hin; simplify_eq.
  done.
Qed.

Lemma read_file_open_failure_leaves_buffer_witness :
  (sd_read_file "none.txt" (replicate 8 LF) 8 hello_card).1
    = Ret (FR_NO_FILE, replicate 8 LF, 0) ∧
  since hello_card (sd_read_file "none.txt" (replicate 8 LF) 8 hello_card).2
    = [c_open "none.txt" FA_READ FR_NO_FILE].
Proof.
  apply (read_file_open_failure_leaves_buffer "none.txt" (replicate 8 LF) 8 hello_card).
  - apply surjective_pairing.
  - vm_compute. repeat constructor.
  - discriminate.
Defined.

(** What [f_read] does to the caller's buffer, whatever the card does. *)
Lemma f_read_in_buffer fp buff btr w :
  0 <= btr < Z.of_nat (length buff) →
  ∃ res fp' buff' br w',
    f_read fp buff btr w = (Ret (res, fp', buff', br), w') ∧
    0 <= br <= btr ∧ length buff' = length buff ∧
    drop (Z.to_nat btr) buff' = drop (Z.to_nat btr) buff.
Proof.
  intros Hbtr. unfold f_read, store. run_call.
  case_decide; simpl; [eexists _, _, _, _, _; split; [done|]; split; [lia|done]|].
  destruct (fil_valid fp); simpl;
    [|eexists _, _, _, _, _; split; [done|]; split; [lia|done]].
  destruct (has_flag _ _); simpl;
    [|eexists _, _, _, _, _; split; [done|]; split; [lia|done]].
  set (rest := drop (fptr fp) _).
  set (br := Z.min btr (Z.of_nat (length rest))).
  assert (length (take (Z.to_nat br) rest) = Z.to_nat br) as Hlen.
  { rewrite length_take. lia. }
  rewrite Hlen. rewrite decide_True by lia. simpl.
  eexists _, _, _, _, _. split; [done|]. split; [lia|]. split.
  - rewrite length_app, length_drop, Hlen. lia.
  - rewrite drop_app_ge by lia. rewrite Hlen, drop_drop. f_equal. lia.
Qed.

(** For a [bufsize] of 1 or more and a buffer of at least [bufsize] bytes,
    [sd_read_file] returns whatever the card does and whatever the file
    holds, with a count below [bufsize], and nothing at or past index
    [bufsize] of the buffer has changed: the call stores nowhere outside the
    first [bufsize] bytes. *)
Theorem read_file_stays_in_buffer filename buffer bufsize w :
  1 <= bufsize <= UINT_MAX → bufsize <= Z.of_nat (length buffer) →
  ∃ r buffer' br w',
    sd_read_file filename buffer bufsize w = (Ret (r, buffer', br), w') ∧
    length buffer' = length buffer ∧ 0 <= br < bufsize ∧
    drop (Z.to_nat bufsize) buffer' = drop (Z.to_nat bufsize) buffer.
Proof.
  intros Hsize Hcap.
  destruct (f_open_log FIL_blank filename FA_READ w) as (ro & fp & w1 & Ho & _).
  unfold sd_read_file. step Ho.
  case_decide as Hro;
    [eexists _, _, _, _; split; [done|]; split; [done|]; split; [lia|done]|].
  rewrite wrap32_small by (unfold UINT_MAX in *; lia).
  destruct (f_read_in_buffer fp buffer (bufsize - 1) w1)
    as (rr & fp2 & buf2 & br & w2 & Hr & Hbr & Hlen & Hdrop); [lia|].
  assert (drop (Z.to_nat bufsize) buf2 = drop (Z.to_nat bufsize) buffer) as Hd2.
  { replace (Z.to_nat bufsize) with (Z.to_nat (bufsize - 1) + 1)%nat by lia.
    by rewrite <- !drop_drop, Hdrop. }
  step Hr.
  case_decide as Hrr.
  - destruct (f_close_log fp2 w2) as (rc & fp3 & w3 & Hcl & _). step Hcl.
    eexists _, _, _, _. split; [done|]. split; [done|]. split; [lia|done].
  - unfold lift at 1, poke. rewrite decide_True by lia.
    rewrite (bind_run _ _ w2 _ w2) by done. cbn beta iota.
    destruct (f_close_log fp2 w2) as (rc & fp3 & w3 & Hcl & _). step Hcl.
    exists rc, (<[Z.to_nat br := NUL]> buf2), br, w3.
    split; [by case_decide; subst|].
    rewrite length_insert. split; [done|]. split; [lia|].
    rewrite drop_insert_lt by lia. done.
Qed.

Lemma read_file_stays_in_buffer_witness :
  ∃ r buffer' br w',
    sd_read_file "hello.txt" (replicate 8 LF) 4 hello_card
      = (Ret (r, buffer', br), w') ∧
    length buffer' = length (replicate 8 LF) ∧ 0 <= br < 4 ∧
    drop (Z.to_nat 4) buffer' = drop (Z.to_nat 4) (replicate 8 LF).
Proof.
  apply (read_file_stays_in_buffer "hello.txt" (replicate 8 LF) 4 hello_card).
  - vm_compute. split; discriminate.
  - vm_compute. discriminate.
Defined.

(** The data of a run of [sd_read_file] whose read step succeeded: the
    count, the buffer, and the close whose code it returns. *)
Lemma sd_read_file_data filename buffer bufsize w o w' btr br :
  sd_read_file filename buffer bufsize w = (o, w') →
  c_read btr br FR_OK ∈ since w w' →
  ∃ content rc,
    files w !! filename = Some content ∧
    btr = wrap32 (bufsize - 1) ∧
    br = Z.min btr (Z.of_nat (length content)) ∧
    o = (b ← store buffer (take (Z.to_nat br) content);
         b ← poke b br NUL; Ret (rc, b, br)) ∧
    (∀ a, o = Ret a → last (since w w') = Some (c_close rc)).
Proof.
  unfold sd_read_file, f_open, f_read, f_close. run_call.
  case_decide as Hf1; simpl.
  { rewrite decide_True by done. intros [= <- <-]. unfold since. simpl.
    rewrite drop_app_length. intros H; in_list H; simplify_eq. }
  destruct (open_entry _ _ _) as [[ro wv] size] eqn:Hopen. simpl.
  pose proof (open_entry_calls filename FA_READ (with_device (tail (device w)) w))
    as Hcalls.
  rewrite Hopen in Hcalls. simpl in Hcalls.
  case_decide as Hro.
  { intros [= <- <-]. unfold since. simpl. rewrite Hcalls, drop_app_length.
    intros H; in_list H; simplify_eq. }
  assert (ro = FR_OK) as -> by (by destruct (decide (ro = FR_OK))).
  apply open_entry_read_ok in Hopen as (-> & Hm & Hd & content & Hfile & ->).
  simpl in *.
  case_decide as Hf2; simpl.
  { rewrite decide_True by done. intros [= <- <-]. unfold since. simpl.
    rewrite <- !app_assoc, drop_app_length.
    intros H; in_list H; simplify_eq. }
  rewrite Hfile. simpl. rewrite drop_0.
  set (br0 := Z.min (wrap32 (bufsize - 1)) (Z.of_nat (length content))).
  destruct (store buffer _) as [b| |] eqn:Hst; simpl.
  2:{ intros [= <- <-]. unfold since. simpl.
      rewrite <- !app_assoc, drop_app_length.
      intros H; in_list H; simplify_eq.
      exists content, FR_OK. fold br0. rewrite Hst. done. }
  2:{ unfold store in Hst. by case_decide. }
  destruct (poke b _ NUL) as [b2| |] eqn:Hp; simpl.
  2:{ intros [= <- <-]. unfold since. simpl.
      rewrite <- !app_assoc, drop_app_length.
      intros H; in_list H; simplify_eq.
      exists content, FR_OK. fold br0. rewrite Hst. simpl. rewrite Hp. done. }
  2:{ unfold poke in Hp. by case_decide. }
  set (rc := if decide (fault_code (hd Healthy (tail (tail (device w)))) ≠ FR_OK)
             then fault_code (hd Healthy (tail (tail (device w)))) else FR_OK).
  intros Hrun Hin.
  assert (o = Ret (rc, b2, br0) ∧
          since w w' = [c_open filename FA_READ FR_OK;
                        c_read (wrap32 (bufsize - 1)) br0 FR_OK; c_close rc])
    as [-> Hs].
  { unfold rc.
    destruct (decide (fault_code (hd Healthy (tail (tail (device w)))) ≠ FR_OK));
      simpl in Hrun.
    - rewrite decide_True in Hrun by done. simplify_eq. split; [done|].
      unfold since. simpl. by rewrite <- !app_assoc, drop_app_length.
    - simplify_eq. split; [done|].
      unfold since. simpl. by rewrite <- !app_assoc, drop_app_length. }
  rewrite Hs in Hin |- *. in_list Hin; simplify_eq.
  exists content, rc. fold br0. rewrite Hst. simpl. rewrite Hp. done.
Qed.

(** When the read step of [sd_read_file] has succeeded and the call
    returns, the code returned is that of the close, and the count and the
    buffer are those of a successful call whatever that code is: the bytes
    of the file's head, with the terminator after them.  A close that fails
    is so reported with the data delivered. *)
Theorem read_data_delivered_when_close_fails
    filename buffer bufsize w r buffer' br w' btr br0 :
  sd_read_file filename buffer bufsize w = (Ret (r, buffer', br), w') →
  c_read btr br0 FR_OK ∈ since w w' →
  last (since w w') = Some (c_close r) ∧ br = br0 ∧
  ∃ content,
    files w !! filename = Some content ∧
    br = Z.min (wrap32 (bufsize - 1)) (Z.of_nat (length content)) ∧
    take (Z.to_nat br) buffer' = take (Z.to_nat br) content ∧
    buffer' !! Z.to_nat br = Some NUL.
Proof.
  intros Hrun Hin.
  destruct (sd_read_file_data _ _ _ _ _ _ _ _ Hrun Hin)
    as (content & rc & Hf & -> & -> & Ho & Hlast).
  set (br0 := Z.min _ _) in *.
  destruct (store buffer _) as [b| |] eqn:Hst; [|done..]. simpl in Ho.
  destruct (poke b _ NUL) as [b2| |] eqn:Hp; [|done..]. simpl in Ho.
  injection Ho as -> -> ->.
  split; [by eapply Hlast|]. split; [done|].
  exists content. split; [done|]. split; [done|].
  apply store_ret in Hst as [Hle ->].
  apply poke_ret in Hp as [Hi ->].
  pose proof (wrap32_range (bufsize - 1)) as Hw.
  assert (length (take (Z.to_nat br0) content) = Z.to_nat br0) as Hlen.
  { rewrite length_take. lia. }
  rewrite Hlen in *.
  rewrite length_app, length_drop, Hlen in Hi.
  destruct (drop (Z.to_nat br0) buffer) as [|c rest] eqn:Hd.
  { apply (f_equal length) in Hd. rewrite length_drop in Hd. simpl in Hd. lia. }
  rewrite insert_app_r_alt by lia. rewrite Hlen, Nat.sub_diag. simpl. split.
  - by rewrite take_app_length'.
  - rewrite lookup_app_r by lia. by rewrite Hlen, Nat.sub_diag.
Qed.

Lemma read_data_delivered_when_close_fails_witness :
  last (since closing_card
          (sd_read_file "hello.txt" (replicate 8 LF) 8 closing_card).2)
    = Some (c_close FR_DISK_ERR) ∧ 5 = 5 ∧
  ∃ content,
    files closing_card !! "hello.txt" = Some content ∧
    5 = Z.min (wrap32 (8 - 1)) (Z.of_nat (length content)) ∧
    take (Z.to_nat 5) (chars "hello" ++ [NUL; LF; LF])
      = take (Z.to_nat 5) content ∧
    (chars "hello" ++ [NUL; LF; LF]) !! Z.to_nat 5 = Some NUL.
Proof.
  apply (read_data_delivered_when_close_fails "hello.txt" (replicate 8 LF) 8
           closing_card FR_DISK_ERR (chars "hello" ++ [NUL; LF; LF]) 5
           (sd_read_file "hello.txt" (replicate 8 LF) 8 closing_card).2 7 5).
  - vm_compute. reflexivity.
  - vm_compute. repeat constructor.
Defined.

(** ** Writing, appending and reading back *)

Lemma open_entry_append_ok path w wv size :
  open_entry path (Z.lor FA_OPEN_ALWAYS FA_WRITE) w = (FR_OK, wv, size) →
  mounted w = true ∧ (path ∉ dirs w) ∧
  size = length (default [] (files w !! path)) ∧
  mounted wv = true ∧ dirs wv = dirs w ∧ device wv = device w ∧
  files wv !! path = Some (default [] (files w !! path)).
Proof.
  unfold open_entry.
  change (has_flag (Z.lor FA_OPEN_ALWAYS FA_WRITE)
            (Z.lor FA_CREATE_ALWAYS (Z.lor FA_OPEN_ALWAYS FA_CREATE_NEW))) with true.
  change (has_flag (Z.lor FA_OPEN_ALWAYS FA_WRITE) FA_CREATE_NEW) with false.
  change (has_flag (Z.lor FA_OPEN_ALWAYS FA_WRITE) FA_CREATE_ALWAYS) with false.
  cbn match.
  destruct (mounted w) eqn:Hm; simpl; [|done].
  case_decide; [done|].
  destruct (files w !! path) as [content|] eqn:Hf; intros [= <- <-]; simpl.
  - by rewrite Hm, Hf.
  - rewrite lookup_insert_eq. by rewrite Hm.
Qed.

(** A successful append leaves the old content of the file with the text
    after it. *)
Lemma sd_append_file_ok filename text w w' :
  sd_append_file filename text w = (Ret FR_OK, w') →
  mounted w' = true ∧ (filename ∉ dirs w') ∧
  files w' !! filename = Some (default [] (files w !! filename) ++ cstr text) ∧
  device w' = tl (tl (tl (tl (device w)))).
Proof.
  unfold sd_append_file, f_open, f_lseek, f_write, f_close, f_size. run_call.
  case_decide as Hf1; simpl. { case_decide; [|done]. intros; simplify_eq. }
  destruct (open_entry _ _ _) as [[ro wv] size] eqn:Hopen. simpl.
  case_decide as Hro; [intros; simplify_eq|].
  assert (ro = FR_OK) as -> by (by destruct (decide (ro = FR_OK))).
  apply open_entry_append_ok in Hopen as (Hm & Hd & -> & Hmv & Hdv & Hdev & Hfv).
  simpl in *.
  set (old := default [] (files w !! filename)) in *.
  case_decide as Hf2; simpl.
  { rewrite decide_True by done. simpl. intros; simplify_eq. }
  change (has_flag (Z.lor FA_OPEN_ALWAYS FA_WRITE) FA_WRITE) with true. simpl.
  rewrite Hfv. simpl. rewrite Nat2Z.id.
  rewrite decide_False by lia. simpl.
  destruct (decide (FR_OK ≠ FR_OK)) as [|_]; [done|].
  case_decide as Hf3; simpl.
  { rewrite decide_False by tauto. intros; simplify_eq. }
  rewrite Hfv. simpl.
  case_decide as Hbw; [|intros; simplify_eq].
  destruct Hbw as [_ Hbw]. intros [= <-]. simpl.
  rewrite lookup_insert_eq. rewrite Hmv, Hdv, Hdev.
  split; [done|]. split; [done|]. split; [|done].
  f_equal. unfold mem_write.
  rewrite Hdev in Hbw. rewrite Hbw, take_strlen.
  rewrite take_ge, drop_ge by lia.
  rewrite Nat.sub_diag. simpl. by rewrite app_nil_r.
Qed.

(** Reading back a file that holds a C string's text, with room for it. *)
Lemma sd_read_file_text filename buffer bufsize w content :
  mounted w = true → filename ∉ dirs w → files w !! filename = Some content →
  healthy w → NUL ∉ content →
  Z.of_nat (length content) < bufsize <= UINT_MAX →
  bufsize <= Z.of_nat (length buffer) →
  ∃ buffer' w',
    sd_read_file filename buffer bufsize w
      = (Ret (FR_OK, buffer', Z.of_nat (length content)), w') ∧
    cstr buffer' = content.
Proof.
  intros Hm Hd Hf Hh Hnul Hlen Hcap.
  destruct (sd_read_file_healthy filename buffer bufsize w _ Hm Hd Hf Hh) as (w2 & Hr).
  rewrite wrap32_small in Hr by lia.
  rewrite Z.min_r in Hr by lia.
  rewrite Nat2Z.id, take_ge in Hr by lia.
  unfold store in Hr. rewrite decide_True in Hr by lia.
  simpl in Hr. unfold poke in Hr.
  rewrite decide_True in Hr.
  2:{ rewrite length_app, length_drop. lia. }
  simpl in Hr. eexists _, w2. split; [exact Hr|].
  rewrite Nat2Z.id.
  rewrite insert_app_r_alt by done. rewrite Nat.sub_diag.
  destruct (drop (length content) buffer) as [|c r] eqn:Hdrop.
  { apply (f_equal length) in Hdrop. rewrite length_drop in Hdrop.
    simpl in Hdrop. lia. }
  simpl. by apply cstr_app_NUL.
Qed.

(** On a card that serves every call: a text written with [sd_write_file],
    a second one appended with [sd_append_file], both with [FR_OK], and
    [sd_read_file] with a buffer that has room for both and the terminator
    returns [FR_OK], counts the bytes of both, and leaves the first text
    with the second after it in the buffer. *)
Theorem write_append_read_round_trip filename text1 text2 buffer bufsize w w1 w2 :
  healthy w →
  sd_write_file filename text1 w = (Ret FR_OK, w1) →
  sd_append_file filename text2 w1 = (Ret FR_OK, w2) →
  strlen text1 + strlen text2 < bufsize → bufsize <= UINT_MAX →
  bufsize <= Z.of_nat (length buffer) →
  ∃ buffer' w3,
    sd_read_file filename buffer bufsize w2
      = (Ret (FR_OK, buffer', strlen text1 + strlen text2), w3) ∧
    cstr buffer' = cstr text1 ++ cstr text2.
Proof.
  intros Hh Hw Ha Hlen Hmax Hcap.
  apply sd_write_file_ok in Hw as (Hm1 & Hd1 & Hf1 & Hdev1).
  apply sd_append_file_ok in Ha as (Hm2 & Hd2 & Hf2 & Hdev2).
  rewrite Hf1 in Hf2. simpl in Hf2.
  assert (healthy w2) as Hh2.
  { unfold healthy in *. rewrite Hdev2, Hdev1. by do 7 apply healthy_tl. }
  destruct (sd_read_file_text filename buffer bufsize w2 _ Hm2 Hd2 Hf2 Hh2)
    as (buffer' & w3 & Hr & Hb).
  - rewrite elem_of_app. intros [H|H]; by apply cstr_no_NUL in H.
  - rewrite length_app. unfold strlen in *. lia.
  - done.
  - exists buffer', w3. split; [|done].
    rewrite Hr. rewrite length_app. unfold strlen. repeat f_equal. lia.
Qed.

Lemma write_append_read_round_trip_witness :
  ∃ buffer' w3,
    sd_read_file "log.txt" (replicate 8 LF) 8
        (sd_append_file "log.txt" (chars "cd")
           (sd_write_file "log.txt" (chars "ab") (card [] [])).2).2
      = (Ret (FR_OK, buffer', strlen (chars "ab") + strlen (chars "cd")), w3) ∧
    cstr buffer' = cstr (chars "ab") ++ cstr (chars "cd").
Proof.
  apply (write_append_read_round_trip
           "log.txt" (chars "ab") (chars "cd") (replicate 8 LF) 8 (card [] [])
           (sd_write_file "log.txt" (chars "ab") (card [] [])).2).
  - constructor.
  - vm_compute. reflexivity.
  - vm_compute. reflexivity.
  - vm_compute. reflexivity.
  - vm_compute. discriminate.
  - vm_compute. discriminate.
Defined.

(** ** The CSV reader *)

(** When the open of [sd_read_csv] fails, the call returns its code with
    the records as they were and 0 in [*record_count], and the open is the
    only library call made. *)
Theorem read_csv_open_failure_leaves_records
    filename records max_records w o w' r :
  sd_read_csv filename records max_records w = (o, w') →
  c_open filename FA_READ r ∈ since w w' → r ≠ FR_OK →
  o = Ret (r, records, 0) ∧ since w w' = [c_open filename FA_READ r].
Proof.
  intros Hrun Hin Hr.
  destruct (sd_read_csv_run filename records max_records w)
    as (o0 & w0 & Hr0 &
        [(r0 & Hr1 & -> & Hc)|[(cs & Ho & Hc & Hall)|
         (cs & rc & recs & n & -> & Hc & Hall)]]);
    rewrite Hrun in Hr0; simplify_eq; rewrite (since_app _ _ _ Hc) in Hin |- *.
  - in_list Hin; simplify_eq. done.
  - apply elem_of_cons in Hin as [Hin|Hin]; [simplify_eq|].
    by apply gets_not_open in Hin.
  - apply elem_of_cons in Hin as [Hin|Hin]; [simplify_eq|].
    apply elem_of_app in Hin as [Hin|Hin]; [by apply gets_not_open in Hin|].
    in_list Hin; simplify_eq.
Qed.

Lemma read_csv_open_failure_leaves_records_witness :
  (sd_read_csv "none.csv" (replicate 3 blank_record) 3 csv_card).1
    = Ret (FR_NO_FILE, replicate 3 blank_record, 0) ∧
  since csv_card (sd_read_csv "none.csv" (replicate 3 blank_record) 3 csv_card).2
    = [c_open "none.csv" FA_READ FR_NO_FILE].
Proof.
  apply (read_csv_open_failure_leaves_records
           "none.csv" (replicate 3 blank_record) 3 csv_card).
  - apply surjective_pairing.
  - vm_compute. repeat constructor.
  - discriminate.
Defined.

(** *** The tokens [strtok] finds *)

Lemma elem_of_comma c : c ∈ [comma] ↔ c = comma.
Proof. rewrite elem_of_cons, elem_of_nil. tauto. Qed.

Lemma fields_cons s : ∃ f fs, fields s = f :: fs.
Proof.
  destruct s as [|c s]; simpl; [eauto|].
  case_decide; [eauto|]. destruct (fields s); eauto.
Qed.

Lemma skip_delims_head s :
  match skip_delims [comma] s with
  | [] => True
  | c :: _ => c ≠ comma
  end.
Proof.
  induction s as [|c s IH]; simpl; [done|].
  case_decide as Hc; [done|]. by rewrite elem_of_comma in Hc.
Qed.

Lemma tokens_skip_delims s :
  filter (λ f, f ≠ []) (fields (skip_delims [comma] s))
    = filter (λ f : list ascii, f ≠ []) (fields s).
Proof.
  induction s as [|c s IH]; simpl; [done|].
  destruct (decide (c ∈ [comma])) as [Hc|Hc]; rewrite elem_of_comma in Hc.
  - rewrite decide_True by done. by rewrite filter_cons_False by tauto.
  - simpl. by rewrite decide_False by done.
Qed.

Lemma fields_scan_token s tok rest :
  scan_token [comma] s = (tok, rest) →
  (fields s = [tok] ∧ rest = []) ∨ fields s = tok :: fields rest.
Proof.
  revert tok rest. induction s as [|c s IH]; intros tok rest; simpl.
  { intros [= <- <-]. by left. }
  destruct (decide (c ∈ [comma])) as [Hc|Hc]; rewrite elem_of_comma in Hc.
  { intros [= <- <-]. rewrite decide_True by done. by right. }
  rewrite decide_False by done.
  destruct (scan_token [comma] s) as [t r] eqn:Hs. intros [= <- <-].
  destruct (IH _ _ eq_refl) as [[-> ->]| ->]; [by left|by right].
Qed.

Lemma tokens_scan_token s tok rest :
  scan_token [comma] s = (tok, rest) →
  filter (λ f, f ≠ []) (fields s)
    = filter (λ f : list ascii, f ≠ []) (tok :: fields rest).
Proof.
  intros [[-> ->]| ->]%fields_scan_token; [|done].
  simpl. destruct (decide (tok = [])) as [->|Hne].
  - by rewrite !filter_cons_False by tauto.
  - rewrite !(filter_cons_True _ tok) by done.
    by rewrite filter_cons_False by tauto.
Qed.

(** One [strtok] call on the saved pointer gives the first token of what
    is left and leaves the others. *)
Lemma strtok_next saved :
  let ts := filter (λ f, f ≠ []) (fields saved) in
  (strtok None [comma] saved).1 = head ts ∧
  filter (λ f : list ascii, f ≠ []) (fields (strtok None [comma] saved).2) = tail ts.
Proof.
  unfold strtok. rewrite <- (tokens_skip_delims saved).
  pose proof (skip_delims_head saved) as Hhd.
  destruct (skip_delims [comma] saved) as [|c s'] eqn:Hsk.
  { simpl. rewrite filter_cons_False by tauto. done. }
  destruct (scan_token [comma] (c :: s')) as [tok rest] eqn:Hs.
  rewrite (tokens_scan_token _ _ _ Hs).
  simpl in Hs. rewrite decide_False in Hs by (by rewrite elem_of_comma).
  destruct (scan_token [comma] s') as [t r]. injection Hs as <- <-.
  rewrite filter_cons_True by done. done.
Qed.

(** The three tokens the loop body looks at are the first three tokens of
    the line. *)
Lemma line_tokens line :
  first_token line = tokens line !! 0%nat ∧
  second_token line = tokens line !! 1%nat ∧
  third_token line = tokens line !! 2%nat.
Proof.
  unfold first_token, second_token, third_token, tokens.
  change (strtok (Some line) [comma] []) with (strtok None [comma] (cstr line)).
  destruct (strtok_next (cstr line)) as [H1 T1].
  destruct (strtok None [comma] (cstr line)) as [tok1 sv1]. simpl in H1, T1.
  destruct (strtok_next sv1) as [H2 T2].
  destruct (strtok None [comma] sv1) as [tok2 sv2]. simpl in H2, T2.
  destruct (strtok_next sv2) as [H3 T3].
  destruct (strtok None [comma] sv2) as [tok3 sv3]. simpl in H3, T3.
  rewrite T1 in H2, T2. rewrite T2 in H3. cbn [fst].
  destruct (filter _ (fields (cstr line))) as [|t1 [|t2 [|t3 ts]]];
    simpl in *; subst; done.
Qed.

Lemma line_record_tokens line old :
  line_record line old = record_of_tokens (tokens line) old.
Proof.
  destruct (line_tokens line) as (H1 & H2 & H3).
  unfold line_record, record_of_tokens. rewrite H1, H2, H3.
  destruct (tokens line) as [|t1 [|t2 [|t3 ts]]]; done.
Qed.

Lemma counted_tokens_length line :
  counted line = bool_decide (2 ≤ length (tokens line))%nat.
Proof.
  destruct (line_tokens line) as (_ & H2 & _).
  unfold counted. rewrite H2.
  destruct (tokens line) as [|t1 [|t2 ts]]; simpl; try done.
Qed.

Lemma read_csv_line_tokens line records n old :
  0 <= n → records !! Z.to_nat n = Some old →
  read_csv_line line records n
    = Ret (<[Z.to_nat n := record_of_tokens (tokens line) old]> records,
           if decide (2 ≤ length (tokens line))%nat then n + 1 else n).
Proof.
  intros Hn Hold. rewrite (read_csv_line_in _ _ _ old) by done.
  rewrite line_record_tokens, counted_tokens_length.
  by destruct (decide (2 ≤ length (tokens line))%nat);
    [rewrite bool_decide_true|rewrite bool_decide_false].
Qed.

(** The loop body of [sd_read_csv], for every line, array and count: the
    tokens it uses are the pieces of the line between its commas that are
    not empty, in their order.  A line with none leaves everything as it
    is; otherwise [records[record_count]] is stored into (which ends the
    run when it is outside the array), its [field1] taking the first token,
    its [field2] the second, its [value] the number of the third or 0; and
    the count goes up exactly when there are two tokens or more. *)
Theorem csv_line_read_by_tokens line records n :
  read_csv_line line records n
    = match tokens line with
      | [] => Ret (records, n)
      | _ :: _ =>
          records' ← update_record records n (record_of_tokens (tokens line));
          Ret (records',
               if decide (2 ≤ length (tokens line))%nat then n + 1 else n)
      end.
Proof.
  destruct (decide (0 <= n ∧ is_Some (records !! Z.to_nat n))) as [[Hn [old Hold]]|Hout].
  - rewrite (read_csv_line_tokens _ _ _ old) by done.
    destruct (tokens line) as [|t ts] eqn:Ht.
    + simpl. by rewrite list_insert_id.
    + by rewrite (update_record_in _ _ _ old).
  - assert (n < 0 ∨ records !! Z.to_nat n = None) as Hn.
    { destruct (decide (n < 0)); [by left|right].
      destruct (records !! Z.to_nat n) eqn:Hr; [|done].
      destruct Hout. split; [lia|by eexists]. }
    rewrite read_csv_line_out by done.
    destruct (line_tokens line) as [-> _].
    destruct (tokens line) as [|t ts]; [done|].
    by rewrite update_record_out.
Qed.

Lemma cstr_app a b : NUL ∉ a → cstr (a ++ b) = a ++ cstr b.
Proof.
  induction a as [|c a IH]; simpl; intros Ha; [done|].
  apply not_elem_of_cons in Ha as [Hc Ha].
  rewrite decide_False by congruence. by rewrite IH.
Qed.

Lemma cstr_cut a b : NUL ∈ a → cstr (a ++ b) = cstr a.
Proof.
  induction a as [|c a IH]; simpl; intros Ha; [by apply elem_of_nil in Ha|].
  case_decide; [done|].
  apply elem_of_cons in Ha as [Ha|Ha]; [congruence|]. by rewrite IH.
Qed.

Lemma cstr_plain s : NUL ∉ s → cstr s = s.
Proof.
  intros Hs. rewrite <- (app_nil_r s) at 1. rewrite cstr_app by done.
  simpl. apply app_nil_r.
Qed.

Lemma fields_app_comma a r : fields (a ++ comma :: r) = fields a ++ fields r.
Proof.
  induction a as [|c a IH]; [done|]. simpl.
  case_decide; [by rewrite IH|].
  rewrite IH. destruct (fields_cons a) as (f & fs & ->). done.
Qed.

Lemma fields_plain t : comma ∉ t → fields t = [t].
Proof.
  induction t as [|c t IH]; simpl; intros Ht; [done|].
  apply not_elem_of_cons in Ht as [Hc Ht].
  rewrite decide_False by congruence. by rewrite IH.
Qed.

Lemma fields_commas k b :
  filter (λ f, f ≠ []) (fields (replicate k comma ++ b))
    = filter (λ f : list ascii, f ≠ []) (fields b).
Proof.
  induction k as [|k IH]; simpl; [done|].
  by rewrite filter_cons_False by tauto.
Qed.

Lemma tokens_commas a k b :
  tokens (a ++ replicate (S k) comma ++ b) = tokens (a ++ comma :: b).
Proof.
  unfold tokens. destruct (decide (NUL ∈ a)) as [Ha|Ha].
  { by rewrite !cstr_cut. }
  rewrite (cstr_app a (comma :: b)), (cstr_app a (_ ++ b)) by done.
  assert (∀ m, cstr (replicate m comma ++ b) = replicate m comma ++ cstr b) as Hc.
  { intros m. apply cstr_app. intros [Heq _]%elem_of_replicate. done. }
  rewrite Hc. simpl.
  rewrite !fields_app_comma, !filter_app. by rewrite fields_commas.
Qed.

(** Commas that follow one another count as one: a line with an empty
    field between two commas is read as the line without it, so the fields
    after it move one place to the left.  [strtok] does not yield an empty
    token. *)
Theorem csv_consecutive_commas_are_one a k b records n :
  read_csv_line (a ++ replicate (S k) comma ++ b) records n
    = read_csv_line (a ++ comma :: b) records n.
Proof.
  pose proof (tokens_commas a k b) as Ht.
  destruct (decide (0 <= n)) as [Hn|Hn].
  - destruct (records !! Z.to_nat n) as [old|] eqn:Hold.
    + rewrite !(read_csv_line_tokens _ _ _ old) by done. by rewrite Ht.
    + rewrite !read_csv_line_out by eauto.
      destruct (line_tokens (a ++ replicate (S k) comma ++ b)) as [-> _].
      destruct (line_tokens (a ++ comma :: b)) as [-> _]. by rewrite Ht.
  - rewrite !read_csv_line_out by (left; lia).
    destruct (line_tokens (a ++ replicate (S k) comma ++ b)) as [-> _].
    destruct (line_tokens (a ++ comma :: b)) as [-> _]. by rewrite Ht.
Qed.

(** *** Rows *)

Lemma isspace_not_digit c : isspace c = true → isdigit c = false.
Proof.
  unfold isspace, isdigit. intros H.
  apply bool_decide_eq_false. apply orb_true_iff in H as [H|H];
    apply bool_decide_eq_true in H; lia.
Qed.

Lemma isspace_plain c : isspace c = true → c ≠ comma ∧ c ≠ NUL.
Proof.
  intros H. split; intros ->; vm_compute in H; done.
Qed.

Lemma digits_value_trailing acc d e :
  Forall (λ c, isspace c = true) e →
  digits_value acc (d ++ e) = digits_value acc d.
Proof.
  intros He. revert acc. induction d as [|c d IH]; intros acc; simpl.
  - destruct He as [|c e Hc _]; simpl; [done|].
    by rewrite (isspace_not_digit _ Hc).
  - by rewrite IH.
Qed.

Lemma skip_spaces_trailing t e :
  Forall (λ c, isspace c = true) e →
  skip_spaces (t ++ e)
    = match skip_spaces t with [] => [] | s => s ++ e end.
Proof.
  intros He. induction t as [|c t IH]; simpl.
  - induction He as [|c e Hc _ IH]; simpl; [done|]. by rewrite Hc.
  - destruct (isspace c); [done|done].
Qed.

Lemma spaces_no_NUL e : Forall (λ c, isspace c = true) e → NUL ∉ e.
Proof.
  intros He Hin. rewrite Forall_forall in He. by apply He in Hin.
Qed.

Lemma spaces_no_comma e : Forall (λ c, isspace c = true) e → comma ∉ e.
Proof.
  intros He Hin. rewrite Forall_forall in He. by apply He in Hin.
Qed.

(** White space after the text does not change the number [atoi] reads. *)
Lemma atoi_trailing t e :
  NUL ∉ t → Forall (λ c, isspace c = true) e → atoi (t ++ e) = atoi t.
Proof.
  intros Ht He. unfold atoi.
  rewrite (cstr_plain t) by done.
  rewrite cstr_plain by (rewrite elem_of_app; pose proof (spaces_no_NUL e He); tauto).
  rewrite skip_spaces_trailing by done.
  destruct (skip_spaces t) as [|c s]; [done|].
  simpl. repeat case_decide; rewrite ?digits_value_trailing by done; try done.
Qed.

Lemma tokens_three t1 t2 t3 eol :
  plain t1 → plain t2 → plain t3 → t1 ≠ [] → t2 ≠ [] →
  Forall (λ c, isspace c = true) eol →
  tokens (t1 ++ comma :: t2 ++ comma :: t3 ++ eol)
    = t1 :: t2 :: filter (λ f, f ≠ []) [t3 ++ eol].
Proof.
  intros [Hc1 Hn1] [Hc2 Hn2] [Hc3 Hn3] Hne1 Hne2 He.
  pose proof (spaces_no_NUL _ He) as HeN. pose proof (spaces_no_comma _ He) as HeC.
  unfold tokens. rewrite cstr_plain.
  2:{ rewrite ?elem_of_app, ?elem_of_cons, ?elem_of_app, ?elem_of_cons, ?elem_of_app.
      intuition done. }
  rewrite !fields_app_comma. rewrite !fields_plain by (rewrite ?elem_of_app; tauto).
  simpl. by rewrite !filter_cons_True by done.
Qed.

(** A row of two fields keeps its line end in the second: for a line
    [t1,t2] that ends in a line feed, as [f_gets] delivers it, [field2] is
    the copy of [t2] with the line feed after it, [value] is 0 and the row
    is counted; so is a row whose second field is empty, with the line feed
    alone in [field2]. *)
Theorem csv_row_with_two_fields_keeps_line_feed t1 t2 records n old :
  plain t1 → plain t2 → t1 ≠ [] →
  0 <= n → records !! Z.to_nat n = Some old →
  read_csv_line (t1 ++ comma :: t2 ++ [LF]) records n
    = Ret (<[Z.to_nat n := mkCsvRecord (strncpy (field1 old) t1 FIELD_SIZE)
                             (strncpy (field2 old) (t2 ++ [LF]) FIELD_SIZE) 0]>
             records,
           n + 1).
Proof.
  intros [Hc1 Hn1] [Hc2 Hn2] Hne1 Hn Hold.
  rewrite (read_csv_line_tokens _ _ _ old) by done.
  assert (tokens (t1 ++ comma :: t2 ++ [LF]) = [t1; t2 ++ [LF]]) as ->.
  { unfold tokens. rewrite cstr_plain.
    2:{ rewrite ?elem_of_app, ?elem_of_cons, ?elem_of_app, ?elem_of_cons, ?elem_of_nil.
        intuition done. }
    rewrite fields_app_comma. rewrite !fields_plain.
    2:{ rewrite elem_of_app, elem_of_cons, elem_of_nil. intuition done. }
    2:{ done. }
    simpl. rewrite filter_cons_True by done.
    rewrite filter_cons_True by (by destruct t2). done. }
  done.
Qed.

Lemma csv_row_with_two_fields_keeps_line_feed_witness :
  read_csv_line (chars "a" ++ comma :: chars "b" ++ [LF]) [blank_record] 0
    = Ret (<[Z.to_nat 0 :=
               mkCsvRecord (strncpy (field1 blank_record) (chars "a") FIELD_SIZE)
                 (strncpy (field2 blank_record) (chars "b" ++ [LF]) FIELD_SIZE) 0]>
             [blank_record],
           0 + 1).
Proof.
  apply (csv_row_with_two_fields_keeps_line_feed
           (chars "a") (chars "b") [blank_record] 0 blank_record).
  - split; vm_compute; intros H; in_list H; discriminate.
  - split; vm_compute; intros H; in_list H; discriminate.
  - discriminate.
  - lia.
  - reflexivity.
Defined.

(** The loop stores at the index it counts at, never past it. *)
Lemma parse_lines_tail ls records n max_records records' n' :
  0 <= n →
  parse_lines ls records n max_records = Ret (records', n') →
  n <= n' ∧ ∀ i, n' < Z.of_nat i → records' !! i = records !! i.
Proof.
  revert records n. induction ls as [|l ls IH]; intros records n Hn; simpl.
  { intros [= <- <-]. split; [lia|done]. }
  case_decide as Hlt; [|intros [= <- <-]; split; [lia|done]].
  destruct (records !! Z.to_nat n) as [old|] eqn:Hold.
  - rewrite (read_csv_line_in _ _ _ old) by done. cbn [mbind outcome_bind].
    cbn beta iota. intros Hrun.
    apply IH in Hrun as [Hle Hout]; [|destruct (counted l); lia].
    split; [destruct (counted l); lia|].
    intros i Hi. rewrite Hout by done.
    apply list_lookup_insert_ne. destruct (counted l); lia.
  - rewrite read_csv_line_out by eauto.
    destruct (first_token l); [done|]. cbn [mbind outcome_bind]. cbn beta iota.
    intros Hrun. by apply IH in Hrun.
Qed.

Lemma filter_counted (ls : list (list ascii)) :
  filter (λ l, counted l) ls = filter (λ l, (2 ≤ length (tokens l))%nat) ls.
Proof.
  apply list_filter_iff. intros l. rewrite counted_tokens_length.
  apply bool_decide_spec.
Qed.

(** [sd_read_csv] on a healthy card, for any file and an array of at least
    [max_records] records.  The rows are the lines that have two tokens or
    more.  The count returned is their number, capped at [max_records] (at
    0 when that is negative); record [k] below the count holds the tokens
    of row [k], whatever lines with fewer tokens stand between the rows;
    and no record past the count has changed.  The record at the count
    itself may hold in [field1] the token of a line that was not counted. *)
Theorem read_csv_records_from_rows filename records max_records w content :
  mounted w = true → filename ∉ dirs w → files w !! filename = Some content →
  healthy w →
  max_records <= Z.of_nat (length records) →
  let rows := filter (λ l, (2 ≤ length (tokens l))%nat) (file_lines w filename) in
  let n := Z.min (Z.max 0 max_records) (Z.of_nat (length rows)) in
  ∃ records',
    (sd_read_csv filename records max_records w).1 = Ret (FR_OK, records', n) ∧
    (∀ k line, rows !! k = Some line → Z.of_nat k < n →
       ∃ old, records !! k = Some old ∧
              records' !! k = Some (record_of_tokens (tokens line) old)) ∧
    (∀ i, n < Z.of_nat i → records' !! i = records !! i).
Proof.
  intros Hm Hd Hf Hh Hlen rows n.
  rewrite (sd_read_csv_healthy _ _ _ _ content) by done.
  destruct (parse_lines_spec (file_lines w filename) records 0 max_records)
    as (records' & Hrun & Hlen' & _ & Hrec); [done|done|].
  rewrite filter_counted in Hrun, Hrec.
  fold rows in Hrun, Hrec. rewrite Z.add_0_l in Hrun, Hrec. fold n in Hrun, Hrec.
  rewrite Hrun. unfold mbind, outcome_bind. cbn beta iota.
  exists records'. split; [done|]. split.
  - intros k line Hk Hkn. specialize (Hrec k line Hk ltac:(lia)).
    change (Z.to_nat 0 + k)%nat with k in Hrec.
    destruct (lookup_lt_is_Some_2 records k) as [old Hold]; [lia|].
    rewrite Hold in Hrec. exists old. split; [done|].
    rewrite Hrec. by rewrite <- line_record_tokens.
  - intros i Hi. by eapply (parse_lines_tail _ _ 0 _ _ n).
Qed.

Lemma read_csv_records_from_rows_witness :
  let rows :=
    filter (λ l, (2 ≤ length (tokens l))%nat) (file_lines csv_card "data.csv") in
  let n := Z.min (Z.max 0 3) (Z.of_nat (length rows)) in
  ∃ records',
    (sd_read_csv "data.csv" (replicate 3 blank_record) 3 csv_card).1
      = Ret (FR_OK, records', n) ∧
    (∀ k line, rows !! k = Some line → Z.of_nat k < n →
       ∃ old, replicate 3 blank_record !! k = Some old ∧
              records' !! k = Some (record_of_tokens (tokens line) old)) ∧
    (∀ i, n < Z.of_nat i → records' !! i = replicate 3 blank_record !! i).
Proof.
  apply (read_csv_records_from_rows
           "data.csv" (replicate 3 blank_record) 3 csv_card spec_csv).
  - reflexivity.
  - apply not_elem_of_empty.
  - vm_compute. reflexivity.
  - constructor.
  - vm_compute. discriminate.
Defined.

(** *** A file of whole rows *)

Lemma gets_scan_line strip_cr room text rest :
  LF ∉ text → CR ∉ text → (length text < room)%nat →
  gets_scan strip_cr room (text ++ LF :: rest) = (text ++ [LF], S (length text)).
Proof.
  revert room. induction text as [|c text IH]; intros room Hlf Hcr Hroom; simpl.
  - destruct room as [|room]; [lia|].
    rewrite andb_false_r. done.
  - destruct room as [|room]; [simpl in Hroom; lia|].
    apply not_elem_of_cons in Hlf as [Hc1 Hlf].
    apply not_elem_of_cons in Hcr as [Hc2 Hcr].
    rewrite (bool_decide_eq_false_2 (c = CR)) by congruence.
    rewrite andb_false_r.
    rewrite (bool_decide_eq_false_2 (c = LF)) by congruence.
    rewrite IH by (done || simpl in Hroom; lia). done.
Qed.

Lemma field_chars_no t c :
  Forall field_char t → (c = comma ∨ c = NUL ∨ c = LF ∨ c = CR) → c ∉ t.
Proof.
  intros Ht Hc Hin. rewrite Forall_forall in Ht.
  destruct (Ht _ Hin) as (? & ? & ? & ?). intuition congruence.
Qed.

(** [f_gets] delivers a whole row as one line. *)
Lemma whole_row_line strip_cr row rest :
  whole_row row →
  gets_scan strip_cr 127 (row_text row ++ rest)
    = (row_text row, length (row_text row)).
Proof.
  destruct row as [[t1 t2] t3]. intros (H1 & H2 & Hch & Hlen). simpl in *.
  apply Forall_app in Hch as [Hc1 Hch]. apply Forall_app in Hch as [Hc2 Hc3].
  set (text := t1 ++ comma :: t2 ++ comma :: t3).
  assert (t1 ++ comma :: t2 ++ comma :: t3 ++ [LF] = text ++ [LF]) as Heq.
  { unfold text. by repeat (rewrite <- app_assoc; simpl). }
  rewrite Heq in *. rewrite <- app_assoc. simpl.
  rewrite length_app in *. simpl in *.
  rewrite gets_scan_line; [f_equal; lia| | |lia].
  - unfold text. rewrite !elem_of_app, !elem_of_cons, !elem_of_app, !elem_of_cons.
    intros [H|[H|[H|[H|H]]]]; try done;
      revert H; apply field_chars_no; auto.
  - unfold text. rewrite !elem_of_app, !elem_of_cons, !elem_of_app, !elem_of_cons.
    intros [H|[H|[H|[H|H]]]]; try done;
      revert H; apply field_chars_no; auto.
Qed.

Lemma lines_from_rows strip_cr fuel rows :
  Forall whole_row rows → (length rows < fuel)%nat →
  lines_from strip_cr fuel (concat (row_text <$> rows)) = row_text <$> rows.
Proof.
  revert fuel. induction rows as [|row rows IH]; intros fuel Hrows Hfuel.
  - destruct fuel; simpl; done.
  - destruct fuel as [|fuel]; [simpl in Hfuel; lia|].
    apply Forall_cons in Hrows as [Hrow Hrows].
    cbn [fmap list_fmap concat lines_from].
    rewrite whole_row_line by done.
    rewrite drop_app_length. rewrite IH by (done || simpl in Hfuel; lia).
    destruct row as [[t1 t2] t3]. destruct Hrow as (H1 & _).
    destruct t1; done.
Qed.

Lemma concat_rows_length rows :
  (length rows ≤ length (concat (row_text <$> rows)))%nat.
Proof.
  induction rows as [|row rows IH]; [done|].
  change (concat (row_text <$> row :: rows))
    with (row_text row ++ concat (row_text <$> rows)).
  rewrite length_app.
  assert (1 ≤ length (row_text row))%nat; [|simpl; lia].
  destruct row as [[t1 t2] t3]. simpl. rewrite length_app. simpl. lia.
Qed.

Lemma whole_row_tokens row :
  whole_row row →
  tokens (row_text row)
    = row.1.1 :: row.1.2 :: filter (λ f, f ≠ []) [row.2 ++ [LF]].
Proof.
  destruct row as [[t1 t2] t3]. intros (H1 & H2 & Hch & _). simpl.
  apply Forall_app in Hch as [Hc1 Hch]. apply Forall_app in Hch as [Hc2 Hc3].
  apply tokens_three; try done.
  - split; apply field_chars_no; auto.
  - split; apply field_chars_no; auto.
  - split; apply field_chars_no; auto.
  - by repeat constructor.
Qed.

Lemma parse_lines_all_counted ls records n max_records records' n' :
  Forall (λ l, counted l = true) ls → 0 <= n →
  n + Z.of_nat (length ls) <= max_records →
  max_records <= Z.of_nat (length records) →
  parse_lines ls records n max_records = Ret (records', n') →
  ∀ i, n + Z.of_nat (length ls) <= Z.of_nat i → records' !! i = records !! i.
Proof.
  revert records n.
  induction ls as [|l ls IH]; intros records n Hls Hn Hmax Hlen; cbn [parse_lines].
  { by intros [= <- <-]. }
  apply Forall_cons in Hls as [Hl Hls]. rewrite length_cons in *.
  rewrite decide_True by lia.
  destruct (lookup_lt_is_Some_2 records (Z.to_nat n)) as [old Hold]; [lia|].
  rewrite (read_csv_line_in _ _ _ old) by done. rewrite Hl.
  cbn [mbind outcome_bind]. cbn beta iota. intros Hrun i Hi.
  rewrite (IH (<[Z.to_nat n := line_record l old]> records) (n + 1) Hls
             ltac:(lia) ltac:(lia) ltac:(rewrite length_insert; lia) Hrun i ltac:(lia)).
  apply list_lookup_insert_ne. lia.
Qed.

Lemma filter_all_counted (ls : list (list ascii)) :
  Forall (λ l, counted l = true) ls → filter (λ l, counted l) ls = ls.
Proof.
  induction 1 as [|l ls Hl _ IH]; [done|].
  rewrite filter_cons_True by (by rewrite Hl). by rewrite IH.
Qed.

(** The layout [field1,field2,value] read back.  For a file that is made
    of rows [t1,t2,t3] each ended by a line feed, each of 127 bytes at most
    (what the line buffer of 128 bytes takes), with first and second fields
    that are not empty and fields free of commas, NULs, line feeds and
    carriage returns, read from a healthy card into an array that has room
    for them: the count returned is the number of rows, record [k] holds
    the first field of row [k] in [field1], the second in [field2], each
    cut to 32 bytes, and the number of the third in [value]; and the
    records past the rows are as they were. *)
Theorem read_csv_file_of_whole_rows filename rows records max_records w :
  mounted w = true → filename ∉ dirs w →
  files w !! filename = Some (concat (row_text <$> rows)) →
  healthy w → Forall whole_row rows →
  Z.of_nat (length rows) <= max_records →
  max_records <= Z.of_nat (length records) →
  ∃ records',
    (sd_read_csv filename records max_records w).1
      = Ret (FR_OK, records', Z.of_nat (length rows)) ∧
    (∀ k t1 t2 t3, rows !! k = Some (t1, t2, t3) →
       ∃ old,
         records !! k = Some old ∧
         records' !! k
           = Some (mkCsvRecord (strncpy (field1 old) t1 FIELD_SIZE)
                               (strncpy (field2 old) t2 FIELD_SIZE)
                               (atoi t3))) ∧
    (∀ i, (length rows ≤ i)%nat → records' !! i = records !! i).
Proof.
  intros Hm Hd Hf Hh Hrows Hmax Hlen.
  rewrite (sd_read_csv_healthy _ _ _ _ _ Hm Hd Hf Hh).
  assert (file_lines w filename = row_text <$> rows) as Hlines.
  { unfold file_lines. rewrite Hf.
    change (default [] (Some ?c)) with c.
    apply lines_from_rows; [done|]. pose proof (concat_rows_length rows). lia. }
  rewrite Hlines.
  assert (Forall (λ l, counted l = true) (row_text <$> rows)) as Hcounted.
  { rewrite Forall_fmap. eapply Forall_impl; [exact Hrows|].
    intros row Hrow. simpl.
    rewrite counted_tokens_length, (whole_row_tokens _ Hrow).
    apply bool_decide_eq_true. simpl. lia. }
  pose proof (filter_all_counted _ Hcounted) as Hall.
  destruct (parse_lines_spec (row_text <$> rows) records 0 max_records)
    as (records' & Hrun & Hlen' & _ & Hrec); [done|done|].
  rewrite Hall, length_fmap in Hrun, Hrec.
  rewrite Z.add_0_l in Hrun, Hrec.
  rewrite Z.min_r in Hrun, Hrec by lia.
  rewrite Hrun. unfold mbind, outcome_bind. cbn beta iota.
  exists records'. split; [done|]. split.
  - intros k t1 t2 t3 Hk.
    pose proof (lookup_lt_Some _ _ _ Hk) as Hlt.
    specialize (Hrec k (row_text (t1, t2, t3))).
    rewrite list_lookup_fmap, Hk in Hrec. specialize (Hrec eq_refl ltac:(lia)).
    change (Z.to_nat 0 + k)%nat with k in Hrec.
    destruct (lookup_lt_is_Some_2 records k) as [old Hold]; [lia|].
    rewrite Hold in Hrec. exists old. split; [done|].
    rewrite Hrec.
    change (line_record ?l <$> Some ?o) with (Some (line_record l o)). f_equal.
    rewrite line_record_tokens.
    pose proof (Forall_lookup_1 _ _ _ _ Hrows Hk) as Hrow.
    rewrite (whole_row_tokens _ Hrow). simpl.
    rewrite filter_cons_True by (by destruct t3). simpl.
    destruct Hrow as (_ & _ & Hch & _).
    apply Forall_app in Hch as [_ Hch]. apply Forall_app in Hch as [_ Hc3].
    rewrite atoi_trailing; [done| |by repeat constructor].
    apply field_chars_no; auto.
  - intros i Hi.
    eapply (parse_lines_all_counted _ _ 0); [exact Hcounted|done| | |exact Hrun|].
    + rewrite length_fmap. lia.
    + done.
    + rewrite length_fmap. lia.
Qed.

Lemma read_csv_file_of_whole_rows_witness :
  ∃ records',
    (sd_read_csv "rows.csv" (replicate 3 blank_record) 3 rows_card).1
      = Ret (FR_OK, records', Z.of_nat (length two_rows)) ∧
    (∀ k t1 t2 t3, two_rows !! k = Some (t1, t2, t3) →
       ∃ old,
         replicate 3 blank_record !! k = Some old ∧
         records' !! k
           = Some (mkCsvRecord (strncpy (field1 old) t1 FIELD_SIZE)
                               (strncpy (field2 old) t2 FIELD_SIZE)
                               (atoi t3))) ∧
    (∀ i, (length two_rows ≤ i)%nat →
       records' !! i = replicate 3 blank_record !! i).
Proof.
  apply (read_csv_file_of_whole_rows
           "rows.csv" two_rows (replicate 3 blank_record) 3 rows_card).
  - reflexivity.
  - apply not_elem_of_empty.
  - vm_compute. reflexivity.
  - constructor.
  - unfold two_rows.
    repeat (apply Forall_cons; split); try done; unfold whole_row.
    all: split; [discriminate|]; split; [discriminate|]; split; [|vm_compute; lia].
    all: repeat (apply Forall_cons; split); try done.
    all: repeat split; discriminate.
  - vm_compute. discriminate.
  - vm_compute. discriminate.
Defined.

(** *** A read that fails *)

Lemma fails_after_now e w :
  fails_after 0 e w → fault_code (hd Healthy (device w)) ≠ FR_OK.
Proof.
  intros (oks & rest & Hd & Hlen & _ & He).
  destruct oks; [|done]. by rewrite Hd.
Qed.

Lemma fails_after_later k e w :
  fails_after (S k) e w →
  fault_code (hd Healthy (device w)) = FR_OK ∧
  ∀ w', device w' = tl (device w) → fails_after k e w'.
Proof.
  intros (oks & rest & Hd & Hlen & Hok & He).
  destruct oks as [|f oks]; [done|]. rewrite Hd. simpl.
  apply Forall_cons in Hok as [Hf Hok]. split; [done|].
  intros w' Hw'. exists oks, rest. simpl in Hlen. split; [done|].
  split; [lia|done].
Qed.

(** An [f_gets] the card fails gives a null pointer, like the end of the
    file. *)
Lemma f_gets_failed len fp w :
  fault_code (hd Healthy (device w)) ≠ FR_OK →
  ∃ fp' w', f_gets len fp w = (Ret (None, fp'), w').
Proof.
  intros Hf. unfold f_gets. run_call.
  rewrite decide_True by done. simpl. by eexists _, _.
Qed.

Lemma f_gets_served len fp w :
  fil_valid fp = true → has_flag (fil_flag fp) FA_READ = true →
  fault_code (hd Healthy (device w)) = FR_OK →
  let scan := gets_scan (bool_decide (USE_STRFUNC w = 2)) (Z.to_nat (len - 1))
                (unread fp w) in
  ∃ w',
    f_gets len fp w
      = (Ret (match scan.1 with [] => None | _ => Some scan.1 end,
              FIL_move fp (fptr fp + scan.2)), w') ∧
    files w' = files w ∧ USE_STRFUNC w' = USE_STRFUNC w ∧
    device w' = tl (device w).
Proof.
  intros Hv Hr Hh. unfold f_gets. run_call.
  rewrite Hh, Hv, Hr. simpl. fold (unread fp w).
  destruct (gets_scan _ _ _) as [line used]. simpl.
  eexists. split; [done|]. done.
Qed.

Lemma read_csv_loop_cut fuel fp records n max_records w k e :
  fil_valid fp = true → has_flag (fil_flag fp) FA_READ = true →
  fails_after k e w →
  (length (unread fp w) < fuel)%nat →
  loop_result (read_csv_loop fuel fp records n max_records w).1
    = parse_lines
        (take k (lines_from (bool_decide (USE_STRFUNC w = 2)) fuel (unread fp w)))
        records n max_records.
Proof.
  revert fp records n w k.
  induction fuel as [|fuel IH]; intros fp records n w k Hv Hr Hk Hfuel; [lia|].
  simpl.
  destruct k as [|k].
  { apply fails_after_now in Hk.
    destruct (f_gets_failed 128 fp w Hk) as (fp' & w' & Hg).
    step Hg. done. }
  apply fails_after_later in Hk as [Hok Hk].
  destruct (f_gets_served 128 fp w Hv Hr Hok) as (w1 & Hg & Hfiles & Hstr & Hdev).
  change (Z.to_nat (128 - 1)) with 127%nat in Hg.
  destruct (gets_scan _ 127 _) as [line used] eqn:Hscan. simpl in Hg.
  step Hg.
  destruct line as [|c line]; [done|]. simpl.
  destruct (decide (n < max_records)); [|reflexivity].
  unfold lift at 1.
  destruct (read_csv_line (c :: line) records n) as [[recs n1]| |] eqn:Hline; cbn.
  - rewrite (bind_run _ _ w1 (recs, n1) w1) by done. cbn beta iota.
    assert (unread (FIL_move fp (fptr fp + used)) w1 = drop used (unread fp w))
      as Hrest.
    { unfold unread. simpl. rewrite Hfiles. by rewrite drop_drop. }
    rewrite (IH _ _ _ _ k); [|done|done|by apply Hk|].
    + by rewrite Hstr, Hrest.
    + rewrite Hrest, length_drop.
      apply gets_scan_used in Hscan as [Hle Hpos].
      specialize (Hpos ltac:(done)). lia.
  - by rewrite (bind_overrun _ _ w1 w1).
  - by rewrite (bind_out_of_fuel _ _ w1 w1).
Qed.

Lemma f_open_read_served fp filename w content :
  mounted w = true → filename ∉ dirs w → files w !! filename = Some content →
  fault_code (hd Healthy (device w)) = FR_OK →
  ∃ w', f_open fp filename FA_READ w
          = (Ret (FR_OK, mkFIL true filename FA_READ 0 (length content)), w') ∧
        files w' = files w ∧ USE_STRFUNC w' = USE_STRFUNC w ∧
        device w' = tl (device w).
Proof.
  intros Hm Hd Hf Hh. unfold f_open. run_call.
  rewrite Hh. simpl.
  rewrite (open_entry_read _ _ content) by done. simpl.
  eexists. split; [done|]. done.
Qed.

(** A read that fails in the middle of the file is not reported.  On a
    card that serves the open and [k] reads of a line and fails the next
    read, with any code, [sd_read_csv] returns [FR_OK] with what the first
    [k] lines of the file give, as if the file ended there: the rows among
    them counted up to [max_records], the records below the count holding
    their tokens, the records past it as they were. *)
Theorem read_csv_read_failure_is_silent filename records max_records w content k e :
  mounted w = true → filename ∉ dirs w → files w !! filename = Some content →
  fails_after (S k) e w →
  max_records <= Z.of_nat (length records) →
  let rows :=
    filter (λ l, (2 ≤ length (tokens l))%nat) (take k (file_lines w filename)) in
  let n := Z.min (Z.max 0 max_records) (Z.of_nat (length rows)) in
  ∃ records',
    (sd_read_csv filename records max_records w).1 = Ret (FR_OK, records', n) ∧
    (∀ i line, rows !! i = Some line → Z.of_nat i < n →
       ∃ old, records !! i = Some old ∧
              records' !! i = Some (record_of_tokens (tokens line) old)) ∧
    (∀ i, n < Z.of_nat i → records' !! i = records !! i).
Proof.
  intros Hm Hd Hf Hk Hlen rows n.
  apply fails_after_later in Hk as [Hok Hk].
  destruct (f_open_read_served FIL_blank filename w content Hm Hd Hf Hok)
    as (w1 & Ho & Hfiles & Hstr & Hdev).
  unfold sd_read_csv. step Ho. cbn [objsize].
  destruct (decide (FR_OK ≠ FR_OK)) as [|_]; [done|].
  pose proof (read_csv_loop_cut (S (length content))
                (mkFIL true filename FA_READ 0 (length content))
                records 0 max_records w1 k e eq_refl eq_refl (Hk w1 Hdev)) as Hloop.
  unfold unread in Hloop. cbn [fptr fil_name] in Hloop.
  rewrite Hfiles, Hf, Hstr in Hloop.
  change (default [] (Some content)) with content in Hloop.
  rewrite drop_0 in Hloop. specialize (Hloop ltac:(lia)).
  assert (lines_from (bool_decide (USE_STRFUNC w = 2)) (S (length content)) content
          = file_lines w filename) as Hlines.
  { unfold file_lines. by rewrite Hf. }
  rewrite Hlines in Hloop.
  destruct (parse_lines_spec (take k (file_lines w filename)) records 0 max_records)
    as (records' & Hrun & Hlen' & _ & Hrec); [done|done|].
  rewrite filter_counted in Hrun, Hrec.
  fold rows in Hrun, Hrec. rewrite Z.add_0_l in Hrun, Hrec. fold n in Hrun, Hrec.
  rewrite Hrun in Hloop.
  exists records'. split; [|split].
  - destruct (read_csv_loop _ _ _ _ _ _) as [[[[fp2 recs] n2]| |] w2] eqn:Hrun2;
      simpl in Hloop; [|done|done].
    injection Hloop as -> ->. step Hrun2.
    destruct (f_close_log fp2 w2) as (rc & fp3 & w3 & Hcl & _). step Hcl. done.
  - intros i line Hi Hin. specialize (Hrec i line Hi ltac:(lia)).
    change (Z.to_nat 0 + i)%nat with i in Hrec.
    destruct (lookup_lt_is_Some_2 records i) as [old Hold]; [lia|].
    rewrite Hold in Hrec. exists old. split; [done|].
    rewrite Hrec. by rewrite <- line_record_tokens.
  - intros i Hi. by eapply (parse_lines_tail _ _ 0 _ _ n).
Qed.

Lemma read_csv_read_failure_is_silent_witness :
  let rows :=
    filter (λ l, (2 ≤ length (tokens l))%nat)
      (take 1 (file_lines reading_fails_card "data.csv")) in
  let n := Z.min (Z.max 0 3) (Z.of_nat (length rows)) in
  ∃ records',
    (sd_read_csv "data.csv" (replicate 3 blank_record) 3 reading_fails_card).1
      = Ret (FR_OK, records', n) ∧
    (∀ i line, rows !! i = Some line → Z.of_nat i < n →
       ∃ old, replicate 3 blank_record !! i = Some old ∧
              records' !! i = Some (record_of_tokens (tokens line) old)) ∧
    (∀ i, n < Z.of_nat i → records' !! i = replicate 3 blank_record !! i).
Proof.
  apply (read_csv_read_failure_is_silent
           "data.csv" (replicate 3 blank_record) 3 reading_fails_card spec_csv 1
           FR_DISK_ERR).
  - reflexivity.
  - apply not_elem_of_empty.
  - vm_compute. reflexivity.
  - exists [Healthy; Healthy], []. repeat split; try done. by repeat constructor.
  - vm_compute. discriminate.
Defined.

(** ** The directory listing *)

(** Unfolds the monad and the primitives of the disk. *)
Ltac run_dir :=
  unfold mbind, D_bind, answer, get_disk, dir_log, mret, D_ret; simpl.

Lemma D_bind_run {A B} (m : D A) (f : A → D B) d a d' :
  m d = (Ret a, d') → (m ≫= f) d = f a d'.
Proof. intros H. unfold mbind, D_bind. by rewrite H. Qed.

Lemma D_bind_out_of_fuel {A B} (m : D A) (f : A → D B) d d' :
  m d = (OutOfFuel, d') → (m ≫= f) d = (OutOfFuel, d').
Proof. intros H. unfold mbind, D_bind. by rewrite H. Qed.

Lemma printed_app d d' ls : console d' = console d ++ ls → printed d d' = ls.
Proof. intros H. unfold printed. rewrite H. apply drop_app_length. Qed.

Lemma dir_since_app d d' cs : dir_calls d' = dir_calls d ++ cs → dir_since d d' = cs.
Proof. intros H. unfold dir_since. rewrite H. apply drop_app_length. Qed.

(** *** What every run accounts for *)

Lemma accounted_ret {A} (a : A) : accounted (mret a : D A).
Proof.
  intros d. exists (Ret a), d, [], []. rewrite !app_nil_r. done.
Qed.

Lemma accounted_exhausted {A} : accounted (exhausted : D A).
Proof.
  intros d. exists OutOfFuel, d, [], []. rewrite !app_nil_r. done.
Qed.

Lemma accounted_bind {A B} (m : D A) (f : A → D B) :
  accounted m → (∀ a, accounted (f a)) → accounted (m ≫= f).
Proof.
  intros Hm Hf d.
  destruct (Hm d)
    as (o & d1 & cs1 & ls1 & Hrun & Hc1 & Hl1 & Hf1 & Hp1 & Hs1 & Ho1 & He1 & Hb1).
  unfold mbind, D_bind. rewrite Hrun.
  destruct o as [a| |]; [|done|].
  - destruct (Hf a d1)
      as (o2 & d2 & cs2 & ls2 & Hrun2 & Hc2 & Hl2 & Hf2 & Hp2 & Hs2 & Ho2 & He2 & Hb2).
    exists o2, d2, (cs1 ++ cs2), (ls1 ++ ls2). split; [done|].
    split; [by rewrite Hc2, Hc1, app_assoc|].
    split; [by rewrite Hl2, Hl1, app_assoc|].
    split; [congruence|]. split; [congruence|]. split; [tauto|]. split; [done|].
    split; [by rewrite !omap_app, He1, He2|].
    intros b ->. rewrite !filter_app, !length_app.
    rewrite (Hb1 a eq_refl), (Hb2 b eq_refl). done.
  - exists OutOfFuel, d1, cs1, ls1. done.
Qed.

Lemma accounted_printf l : error_line l = None → accounted (printf l).
Proof.
  intros Hl d. eexists (Ret tt), _, [], [l]. split; [done|]. simpl.
  rewrite app_nil_r, Hl. done.
Qed.

Lemma accounted_readdir dp fno : accounted (f_readdir dp fno).
Proof.
  intros d. unfold f_readdir. run_dir.
  destruct (if decide _ then _ else _) as [[res dp'] fno']. simpl.
  eexists _, _, [c_readdir res], []. split; [done|]. simpl.
  rewrite app_nil_r. do 4 (split; [done|]).
  split; [apply healthy_tl|done].
Qed.

Lemma accounted_list_entries turns recurse path depth dir fno :
  (∀ path' depth', accounted (recurse path' depth')) →
  accounted (list_entries turns recurse path depth dir fno).
Proof.
  intros Hrec. revert dir fno.
  induction turns as [|turns IH]; intros dir fno; simpl.
  { apply accounted_exhausted. }
  apply accounted_bind; [apply accounted_readdir|].
  intros [[res dir'] fno'].
  case_decide; [apply accounted_ret|].
  apply accounted_bind; [|intros _; apply IH].
  destruct (has_flag _ _); [|by apply accounted_printf].
  case_decide; [|apply accounted_ret].
  apply accounted_bind; [by apply accounted_printf|]. intros _. apply Hrec.
Qed.

Lemma f_opendir_log path d :
  ∃ res dir d', f_opendir path d = (Ret (res, dir), d') ∧
    dir_calls d' = dir_calls d ++ [c_opendir path res] ∧ console d' = console d ∧
    folders d' = folders d ∧ SDPath d' = SDPath d ∧ (serving d → serving d').
Proof.
  unfold f_opendir. run_dir.
  eexists _, _, _. split; [reflexivity|]. simpl. do 4 (split; [done|]).
  apply healthy_tl.
Qed.

Lemma f_closedir_log dp d :
  ∃ res d', f_closedir dp d = (Ret res, d') ∧
    dir_calls d' = dir_calls d ++ [c_closedir res] ∧ console d' = console d ∧
    folders d' = folders d ∧ SDPath d' = SDPath d ∧ (serving d → serving d').
Proof.
  unfold f_closedir. run_dir.
  eexists _, _. split; [reflexivity|]. simpl. do 4 (split; [done|]).
  apply healthy_tl.
Qed.

Lemma accounted_list_directory stack path depth :
  accounted (sd_list_directory_recursive stack path depth).
Proof.
  revert path depth. induction stack as [|stack IH]; intros path depth; simpl.
  { apply accounted_exhausted. }
  intros d.
  destruct (f_opendir_log path d) as (res & dir & d0 & Ho & Hc0 & Hl0 & Hf0 & Hp0 & Hs0).
  rewrite (D_bind_run _ _ _ _ _ Ho). cbn beta iota.
  destruct (decide (res ≠ FR_OK)) as [Hres|Hres].
  - eexists (Ret tt), _, [c_opendir path res], [l_cannot_open (depth * 2) path].
    split; [done|]. simpl. rewrite Hc0, Hl0. do 6 (split; [done|]).
    rewrite decide_False by done. split; [done|].
    intros _ _. destruct res; done.
  - assert (res = FR_OK) as Hok by (by destruct (decide (res = FR_OK))).
    pose proof (accounted_list_entries (S (length (dir_rest dir)))
                  (sd_list_directory_recursive stack) path depth dir FILINFO_end IH d0)
      as (o & d1 & cs1 & ls1 & Hrun & Hc1 & Hl1 & Hf1 & Hp1 & Hs1 & Ho1 & He1 & Hb1).
    destruct o as [dir1| |]; [|done|].
    + rewrite (D_bind_run _ _ _ _ _ Hrun).
      destruct (f_closedir_log dir1 d1) as (rc & d2 & Hcl & Hc2 & Hl2 & Hf2 & Hp2 & Hs2).
      rewrite (D_bind_run _ _ _ _ _ Hcl).
      eexists (Ret tt), _, (c_opendir path res :: cs1 ++ [c_closedir rc]), ls1.
      split; [done|]. rewrite Hc2, Hl2, Hc1, Hc0, Hl1, Hl0, <- !app_assoc.
      split; [done|]. split; [done|].
      split; [congruence|]. split; [congruence|]. split; [tauto|]. split; [done|].
      simpl. rewrite decide_True by done. rewrite omap_app, He1. simpl.
      rewrite app_nil_r. split; [done|].
      intros _ _. rewrite Hok.
      rewrite filter_cons_False by (simpl; tauto).
      rewrite filter_cons_True by done.
      rewrite !filter_app. simpl. rewrite !length_app, (Hb1 dir1 eq_refl). simpl. lia.
    + rewrite (D_bind_out_of_fuel _ _ _ _ Hrun).
      eexists OutOfFuel, d1, (c_opendir path res :: cs1), ls1.
      split; [done|]. rewrite Hc1, Hc0, Hl1, Hl0, <- !app_assoc.
      split; [done|]. split; [done|].
      split; [congruence|]. split; [congruence|]. split; [tauto|]. split; [done|].
      simpl. rewrite decide_True by done. done.
Qed.

(** Whatever the card does and however the listing of a directory goes, a
    call of [sd_list_directory_recursive] that returns has called
    [f_closedir] as often as [f_opendir] has succeeded: every directory it
    opened, at any depth, is closed again. *)
Theorem every_opened_directory_is_closed stack path depth d d' :
  sd_list_directory_recursive stack path depth d = (Ret tt, d') →
  length (filter (λ c, closed_dir c) (dir_since d d'))
    = length (filter (λ c, opened_dir c) (dir_since d d')).
Proof.
  intros Hrun.
  destruct (accounted_list_directory stack path depth d)
    as (o & d1 & cs & ls & Hrun1 & Hc & _ & _ & _ & _ & _ & _ & Hb).
  rewrite Hrun in Hrun1. injection Hrun1 as <- <-.
  rewrite (dir_since_app _ _ _ Hc). by eapply Hb.
Qed.

Lemma every_opened_directory_is_closed_witness :
  length (filter (λ c, closed_dir c)
            (dir_since failing_disk
               (sd_list_directory_recursive 3 "0:/" 0 failing_disk).2))
    = length (filter (λ c, opened_dir c)
                (dir_since failing_disk
                   (sd_list_directory_recursive 3 "0:/" 0 failing_disk).2)).
Proof.
  apply (every_opened_directory_is_closed 3 "0:/" 0 failing_disk).
  vm_compute. reflexivity.
Defined.

(** In every run of [sd_list_directory_recursive], to its end or not, the
    error lines on the console are those of the opens that failed, one for
    each, with its path and in their order.  A failure of [f_readdir] or of
    [f_closedir] has no such line. *)
Theorem one_error_line_for_each_failed_open stack path depth d :
  let d' := (sd_list_directory_recursive stack path depth d).2 in
  omap error_line (printed d d') = omap failed_open (dir_since d d').
Proof.
  destruct (accounted_list_directory stack path depth d)
    as (o & d1 & cs & ls & Hrun1 & Hc & Hl & _ & _ & _ & _ & He & _).
  rewrite Hrun1. simpl.
  by rewrite (dir_since_app _ _ _ Hc), (printed_app _ _ _ Hl).
Qed.

(** *** The turns of the loop *)

(** An [f_readdir] that gives an entry has one entry less to give. *)
Lemma f_readdir_rest dp fno d :
  ∃ res dp' fno' d',
    f_readdir dp fno d = (Ret (res, dp', fno'), d') ∧
    (res ≠ FR_OK ∨ fname fno' = ""%string ∨
     (length (dir_rest dp') < length (dir_rest dp))%nat).
Proof.
  unfold f_readdir. run_dir.
  case_decide; simpl; [eexists _, _, _, _; split; [done|]; by left|].
  destruct (dir_valid dp); simpl;
    [|eexists _, _, _, _; split; [done|]; by left].
  destruct (dir_rest dp) as [|entry rest]; simpl;
    eexists _, _, _, _; (split; [done|]); [right; by left|].
  right; right. simpl. lia.
Qed.

(** The turns given to the loop are enough: it runs out only when a nested
    call has. *)
Lemma list_entries_turns turns recurse path depth dir fno d :
  (∀ path' depth' d0, (recurse path' depth' d0).1 ≠ OutOfFuel) →
  (length (dir_rest dir) < turns)%nat →
  (list_entries turns recurse path depth dir fno d).1 ≠ OutOfFuel.
Proof.
  intros Hrec. revert dir fno d.
  induction turns as [|turns IH]; intros dir fno d Hturns; [lia|].
  simpl.
  destruct (f_readdir_rest dir fno d) as (res & dir' & fno' & d1 & Hr & Hless).
  rewrite (D_bind_run _ _ _ _ _ Hr). cbn beta iota.
  case_decide as Hend; [done|].
  assert (length (dir_rest dir') < length (dir_rest dir))%nat as Hlt by tauto.
  unfold mbind at 1, D_bind at 1.
  set (body := if has_flag (fattrib fno') AM_DIR then _ else _).
  assert ((body d1).1 ≠ OutOfFuel) as Hbody.
  { unfold body. destruct (has_flag _ _); [|done].
    case_decide; [|done].
    unfold mbind, D_bind, printf.
    match goal with |- context [recurse ?p ?k ?x] =>
      pose proof (Hrec p k x) as Hr'; destruct (recurse p k x) as [[u| |] d2]
    end; done. }
  destruct (body d1) as [[u| |] d2]; [|done|done].
  apply IH. lia.
Qed.

(** *** The listing of a tree *)

Lemma foldr_and_Forall {A} (P : A → Prop) l :
  foldr (λ a Q, P a ∧ Q) True l ↔ Forall P l.
Proof.
  induction l as [|a l IH]; simpl; [by split|].
  rewrite Forall_cons, IH. done.
Qed.

Lemma chars_length s : length (chars s) = String.length s.
Proof. induction s as [|c s IH]; simpl; [done|]. by rewrite IH. Qed.

Lemma chars_app a b : chars (a ++ b) = chars a ++ chars b.
Proof. induction a as [|c a IH]; simpl; [done|]. by rewrite IH. Qed.

(** A text that fits the buffer is what [snprintf] leaves in it. *)
Lemma snprintf_fits size text :
  (String.length text < size)%nat → snprintf size text = text.
Proof.
  intros Hlen. unfold snprintf.
  rewrite take_ge by (rewrite chars_length; lia).
  apply string_of_list_ascii_of_string.
Qed.

(** A path that fills the buffer is all that [snprintf] leaves of the path
    with a name after it. *)
Lemma snprintf_full path name :
  String.length path = 127%nat → snprintf PATH_SIZE (path ++ "/" ++ name) = path.
Proof.
  intros Hlen. unfold snprintf. rewrite chars_app.
  rewrite take_app_le by (rewrite chars_length; simpl; lia).
  rewrite take_ge by (rewrite chars_length; simpl; lia).
  apply string_of_list_ascii_of_string.
Qed.

Lemma f_opendir_serving path d es :
  serving d → folders d !! path = Some es →
  ∃ d', f_opendir path d = (Ret (FR_OK, mkDIR true es), d') ∧
        folders d' = folders d ∧ console d' = console d ∧ serving d'.
Proof.
  intros Hs Hf. unfold serving in *. unfold f_opendir. run_dir.
  rewrite (healthy_hd _ Hs), Hf. simpl.
  eexists. split; [done|]. simpl. split; [done|]. split; [done|].
  by apply healthy_tl.
Qed.

Lemma f_readdir_serving es fno d :
  serving d →
  ∃ d', f_readdir (mkDIR true es) fno d
          = (Ret (FR_OK, mkDIR true (tl es), hd FILINFO_end es), d') ∧
        folders d' = folders d ∧ console d' = console d ∧ serving d'.
Proof.
  intros Hs. unfold serving in *. unfold f_readdir. run_dir.
  rewrite (healthy_hd _ Hs). simpl.
  destruct es as [|e es]; simpl; (eexists; split; [done|]); simpl;
    (split; [done|]; split; [done|]; by apply healthy_tl).
Qed.

Lemma f_closedir_serving es d :
  serving d →
  ∃ d', f_closedir (mkDIR true es) d = (Ret FR_OK, d') ∧
        folders d' = folders d ∧ console d' = console d ∧ serving d'.
Proof.
  intros Hs. unfold serving in *. unfold f_closedir. run_dir.
  rewrite (healthy_hd _ Hs). simpl.
  eexists; split; [done|]; simpl.
  split; [done|]; split; [done|]; by apply healthy_tl.
Qed.

Lemma printf_run l d :
  ∃ d', printf l d = (Ret tt, d') ∧ folders d' = folders d ∧
        console d' = console d ++ [l] ∧ answers d' = answers d.
Proof. eexists. split; [done|]. done. Qed.

(** The loop on the entries of a directory, [recurse] listing every
    directory of fewer than [stack] levels. *)
Lemma list_entries_tree fs stack turns recurse path depth es fno :
  (∀ path' depth' es',
     fs !! path' = Some (info <$> es') → Forall (on_volume fs path') es' →
     (levels es' < stack)%nat →
     lists fs (recurse path' depth') tt (flat_map (listed depth') es')) →
  Forall (on_volume fs path) es → (levels es ≤ stack)%nat →
  (length es < turns)%nat →
  lists fs (list_entries turns recurse path depth (mkDIR true (info <$> es)) fno)
    (mkDIR true []) (flat_map (listed depth) es).
Proof.
  intros Hrec. revert es fno.
  induction turns as [|turns IH]; intros es fno Hes Hlev Hturns; [lia|].
  intros d Hs Hfs. simpl.
  destruct (f_readdir_serving (info <$> es) fno d Hs) as (d1 & Hr & Hf1 & Hc1 & Hs1).
  rewrite (D_bind_run _ _ _ _ _ Hr). cbn beta iota.
  destruct es as [|e es]; simpl.
  { exists d1. rewrite app_nil_r.
    split; [done|]. split; [done|]. split; [congruence|done]. }
  apply Forall_cons in Hes as [He Hes].
  unfold levels in Hlev. simpl in Hlev. fold (levels es) in Hlev.
  simpl in Hturns.
  assert (fname (info e) ≠ ""%string) as Hname by (destruct e; simpl in *; tauto).
  rewrite decide_False by (intros [?|?]; done).
  destruct e as [name attrib size|name attrib size children]; simpl in *.
  - destruct He as [_ ->].
    destruct (printf_run (l_file (depth * 2) name size) d1)
      as (d2 & Hp & Hf2 & Hc2 & Ha2).
    rewrite (D_bind_run _ _ _ _ _ Hp).
    destruct (IH es (mkFILINFO size attrib name) Hes ltac:(lia) ltac:(lia) d2)
      as (d3 & Hl & Hc3 & Hf3 & Hs3);
      [by unfold serving; rewrite Ha2|congruence|].
    exists d3. split; [done|]. split; [|done].
    rewrite Hc3, Hc2, Hc1, <- app_assoc. done.
  - destruct He as (_ & -> & Hsub).
    destruct (decide (name ≠ "."%string ∧ name ≠ ".."%string)) as [Hdots|Hdots].
    + destruct (Hsub Hdots) as (Hlen & Hch & Hall).
      apply foldr_and_Forall in Hall.
      destruct (printf_run (l_folder (depth * 2) name) d1)
        as (d2 & Hp & Hf2 & Hc2 & Ha2).
      rewrite snprintf_fits by done.
      destruct (Hrec _ (depth + 1) children Hch Hall ltac:(unfold levels; lia) d2)
        as (d3 & Hrun & Hc3 & Hf3 & Hs3);
        [by unfold serving; rewrite Ha2|congruence|].
      destruct (IH es (mkFILINFO size attrib name) Hes ltac:(lia) ltac:(lia) d3)
        as (d4 & Hl & Hc4 & Hf4 & Hs4); [done|done|].
      exists d4. split.
      * unfold mbind at 1, D_bind at 1.
        unfold mbind at 1, D_bind at 1. rewrite Hp, Hrun. done.
      * split; [|done]. rewrite Hc4, Hc3, Hc2, Hc1, <- !app_assoc. done.
    + destruct (IH es (mkFILINFO size attrib name) Hes ltac:(lia) ltac:(lia) d1)
        as (d3 & Hl & Hc3 & Hf3 & Hs3); [done|congruence|].
      exists d3. split; [done|]. split; [|done].
      rewrite Hc3, Hc1. done.
Qed.

Lemma list_directory_tree fs stack path depth es :
  fs !! path = Some (info <$> es) → Forall (on_volume fs path) es →
  (levels es < stack)%nat →
  lists fs (sd_list_directory_recursive stack path depth) tt
    (flat_map (listed depth) es).
Proof.
  revert path depth es.
  induction stack as [|stack IH]; intros path depth es Hf Hes Hlev; [lia|].
  intros d Hs Hfs. simpl.
  destruct (f_opendir_serving path d (info <$> es) Hs) as (d1 & Ho & Hf1 & Hc1 & Hs1);
    [by rewrite Hfs|].
  rewrite (D_bind_run _ _ _ _ _ Ho). cbn beta iota.
  rewrite decide_False by (intros H; by apply H).
  cbn [dir_rest].
  destruct (list_entries_tree fs stack (S (length (info <$> es)))
              (sd_list_directory_recursive stack) path depth es FILINFO_end IH Hes
              ltac:(lia) ltac:(rewrite length_fmap; lia) d1 Hs1 ltac:(congruence))
    as (d2 & Hl & Hc2 & Hf2 & Hs2).
  rewrite (D_bind_run _ _ _ _ _ Hl).
  destruct (f_closedir_serving [] d2 Hs2) as (d3 & Hcl & Hf3 & Hc3 & Hs3).
  rewrite (D_bind_run _ _ _ _ _ Hcl).
  exists d3. split; [done|]. split; [|split; [congruence|done]].
  rewrite Hc3, Hc2, Hc1. done.
Qed.

(** On a disk that serves every call, for a directory whose entries, with
    all that is below them, are on the volume under paths of fewer than 128
    characters, and a stack that has room for its levels:
    [sd_list_directory_recursive] returns, and what it has printed is the
    listing of the tree: every entry once, in the order [f_readdir] yields
    them, a directory followed at once by its own entries one level deeper,
    each line indented by twice its depth, and nothing for the dot
    entries. *)
Theorem list_directory_prints_tree stack path depth entries d :
  serving d →
  folders d !! path = Some (info <$> entries) →
  Forall (on_volume (folders d) path) entries →
  (levels entries < stack)%nat →
  ∃ d', sd_list_directory_recursive stack path depth d = (Ret tt, d') ∧
        printed d d' = flat_map (listed depth) entries.
Proof.
  intros Hs Hf Hes Hlev.
  destruct (list_directory_tree (folders d) stack path depth entries Hf Hes Hlev d Hs eq_refl)
    as (d' & Hrun & Hc & _).
  exists d'. split; [done|]. by apply printed_app.
Qed.

Lemma small_tree_on_volume : Forall (on_volume (folders small_disk) "0:/") small_tree.
Proof.
  apply Forall_cons. split; [done|].
  apply Forall_cons. split; [|by apply Forall_cons].
  split; [done|]. split; [done|]. intros _.
  split; [vm_compute; lia|]. split; [vm_compute; reflexivity|].
  simpl.
  split; [split; [done|split; [done|intros [? _]; done]]|].
  split; [split; [done|split; [done|intros [_ ?]; done]]|]. done.
Qed.

Lemma list_directory_prints_tree_witness :
  ∃ d', sd_list_directory_recursive 3 "0:/" 0 small_disk = (Ret tt, d') ∧
        printed small_disk d' = flat_map (listed 0) small_tree.
Proof.
  apply (list_directory_prints_tree 3 "0:/" 0 small_tree small_disk).
  - constructor.
  - vm_compute. reflexivity.
  - apply small_tree_on_volume.
  - unfold levels. simpl. lia.
Defined.

(** [sd_list_files], under the same conditions on the directory at
    [SDPath]: the header line, the listing of the volume from depth 0, and
    the two empty lines. *)
Theorem list_files_prints_volume stack entries d :
  serving d →
  folders d !! SDPath d = Some (info <$> entries) →
  Forall (on_volume (folders d) (SDPath d)) entries →
  (levels entries < stack)%nat →
  ∃ d', sd_list_files stack d = (Ret tt, d') ∧
        printed d d' = l_header :: flat_map (listed 0) entries ++ [l_end].
Proof.
  intros Hs Hf Hes Hlev. unfold sd_list_files.
  destruct (printf_run l_header d) as (d1 & Hp & Hf1 & Hc1 & Ha1).
  rewrite (D_bind_run _ _ _ _ _ Hp).
  unfold mbind at 1, D_bind at 1, get_disk. cbn beta iota.
  assert (SDPath d1 = SDPath d) as -> by (by injection Hp as <-).
  destruct (list_directory_tree (folders d) stack (SDPath d) 0 entries Hf Hes Hlev d1)
    as (d2 & Hrun & Hc2 & Hf2 & Hs2); [by unfold serving; rewrite Ha1|done|].
  rewrite (D_bind_run _ _ _ _ _ Hrun).
  destruct (printf_run l_end d2) as (d3 & Hp3 & Hf3 & Hc3 & Ha3).
  exists d3. split; [done|]. apply printed_app.
  rewrite Hc3, Hc2, Hc1, <- !app_assoc. done.
Qed.

Lemma list_files_prints_volume_witness :
  ∃ d', sd_list_files 3 small_disk = (Ret tt, d') ∧
        printed small_disk d'
          = l_header :: flat_map (listed 0) small_tree ++ [l_end].
Proof.
  apply (list_files_prints_volume 3 small_tree small_disk).
  - constructor.
  - vm_compute. reflexivity.
  - apply small_tree_on_volume.
  - unfold levels. simpl. lia.
Defined.

(** *** A path that fills the path buffer *)

Lemma list_entries_overflows turns recurse path depth before e after fno d :
  (∀ path' depth', accounted (recurse path' depth')) →
  (∀ depth' d', serving d' → folders d' = folders d →
     (recurse path depth' d').1 = OutOfFuel) →
  String.length path = 127%nat →
  Forall (λ i, fname i ≠ ""%string) before → entered e →
  (length before < turns)%nat → serving d →
  (list_entries turns recurse path depth
     (mkDIR true (before ++ e :: after)) fno d).1 = OutOfFuel.
Proof.
  intros Hacc Hrec Hlen. revert before fno d Hrec.
  induction turns as [|turns IH]; intros before fno d Hrec Hbefore He Hturns Hs; [lia|].
  simpl.
  destruct (f_readdir_serving (before ++ e :: after) fno d Hs)
    as (d1 & Hr & Hf1 & Hc1 & Hs1).
  rewrite (D_bind_run _ _ _ _ _ Hr). cbn beta iota.
  destruct before as [|i before]; simpl.
  - destruct He as (Hdir & Hn & Hdot & Hdots).
    rewrite decide_False by (intros [?|?]; done).
    rewrite Hdir, decide_True by done.
    rewrite snprintf_full by done.
    destruct (printf_run (l_folder (depth * 2) (fname e)) d1)
      as (d2 & Hp & Hf2 & Hc2 & Ha2).
    unfold mbind at 1, D_bind at 1. unfold mbind at 1, D_bind at 1. rewrite Hp.
    specialize (Hrec (depth + 1) d2 ltac:(by unfold serving; rewrite Ha2)
                  ltac:(congruence)).
    destruct (recurse path (depth + 1) d2) as [[u| |] d3]; simpl in Hrec; done.
  - apply Forall_cons in Hbefore as [Hi Hbefore]. simpl in Hturns.
    rewrite decide_False by (intros [?|?]; done).
    set (body := if has_flag (fattrib i) AM_DIR then _ else _).
    assert (accounted body) as Hbody.
    { unfold body. destruct (has_flag _ _); [|by apply accounted_printf].
      case_decide; [|apply accounted_ret].
      apply accounted_bind; [by apply accounted_printf|]. intros _. apply Hacc. }
    destruct (Hbody d1) as (o & d2 & cs & ls & Hrun & _ & _ & Hf2 & _ & Hs2 & Ho & _).
    unfold mbind at 1, D_bind at 1. rewrite Hrun.
    destruct o as [[]| |]; [|done|done].
    apply IH; [|done|done|lia|tauto].
    intros depth' d' Hs' Hf'. apply Hrec; [done|congruence].
Qed.

(** A directory whose path has 127 characters, all that the path buffer of
    128 bytes holds, and in it a sub-directory that is no dot entry, after
    any entries with a name: the path built for the sub-directory is cut
    back to the path of the directory itself, which is opened and listed
    again, one level deeper, and so on.  On a disk that serves every call
    [sd_list_directory_recursive] does not return from it, however much
    room the stack has. *)
Theorem list_directory_never_returns_from_full_path
    stack path depth before e after d :
  serving d → String.length path = 127%nat →
  folders d !! path = Some (before ++ e :: after) →
  Forall (λ i, fname i ≠ ""%string) before → entered e →
  (sd_list_directory_recursive stack path depth d).1 = OutOfFuel.
Proof.
  intros Hs Hlen Hf Hbefore He. revert depth d Hs Hf.
  induction stack as [|stack IH]; intros depth d Hs Hf; [done|].
  simpl.
  destruct (f_opendir_serving path d _ Hs Hf) as (d1 & Ho & Hf1 & Hc1 & Hs1).
  rewrite (D_bind_run _ _ _ _ _ Ho). cbn beta iota.
  rewrite decide_False by (intros H; by apply H). cbn [dir_rest].
  pose proof (list_entries_overflows (S (length (before ++ e :: after)))
                (sd_list_directory_recursive stack) path depth before e after
                FILINFO_end d1 (accounted_list_directory stack)) as Hloop.
  destruct (list_entries _ _ _ _ _ _ d1) as [o d2] eqn:Hrun.
  simpl in Hloop. rewrite Hloop in Hrun.
  - by rewrite (D_bind_out_of_fuel _ _ _ _ Hrun).
  - intros depth' d' Hs' Hf'. apply IH; [done|congruence].
  - done.
  - done.
  - done.
  - rewrite length_app. simpl. lia.
  - done.
Qed.

Lemma list_directory_never_returns_from_full_path_witness :
  (sd_list_directory_recursive 4 full_path 0 deep_disk).1 = OutOfFuel.
Proof.
  apply (list_directory_never_returns_from_full_path 4 full_path 0
           [mkFILINFO 5 32 "A.TXT"] (mkFILINFO 0 16 "SUB") [] deep_disk).
  - constructor.
  - vm_compute. reflexivity.
  - vm_compute. reflexivity.
  - by repeat constructor.
  - by repeat split.
Defined.
